(** * Dynamo: inventory synchronisation, persistency and placement policies

    A shallow embedding of the parts of the Dynamo code base that the
    specification makes checkable statements about:

    - [lib/detox/policy.py]                    ([Module Policy])
    - [lib/common/interface/webservice.py]     ([Module WebService])
    - [lib/common/interface/phedexdbsssb.py]   ([Module PhEDEx])
    - [lib/core/persistency/impl/mysqlstore.py] ([Module MySQLStore])
    - [lib/enforcer/interface.py]              ([Module Enforcer])

    Python dictionaries are finite maps or association lists (the latter
    where iteration order or object identity matters), Python sets are
    [gset]s or duplicate-free lists, [None] is [option]'s [None], raised
    exceptions are explicit results, and everything the code writes to a
    logger or sends to the database is collected in an explicit log. *)

From Stdlib Require Import ZArith Lia List Permutation Sorted Ascii String.
From stdpp Require Import gmap strings list fin_maps sorting.

Set Warnings "-clear-no-such-hyp".

Local Open Scope string_scope.
Local Open Scope list_scope.
Local Open Scope Z_scope.

(* ===================================================================== *)
(** * lib/detox/policy.py                                                 *)
(* ===================================================================== *)

Module Policy.

(** [DEC_DELETE, DEC_KEEP, DEC_PROTECT = range(1, 4)] *)
Inductive decision := DEC_DELETE | DEC_KEEP | DEC_PROTECT.

Definition decision_code (d : decision) : Z :=
  match d with DEC_DELETE => 1 | DEC_KEEP => 2 | DEC_PROTECT => 3 end.

(** A dataset replica as the policy sees it: the dataset it belongs to (by
    name, the inventory's key) and the site holding it. *)
Record DatasetReplica := mkReplica { dataset : string; site : string }.

(** [demands.dataset_demands[dataset].global_usage_rank].  The rank is a
    Python float; [sorted] only compares ranks, so the model keeps the
    order and uses integers. *)
Record DatasetDemand := mkDemand { global_usage_rank : Z }.

Record DemandManager := mkDemands { dataset_demands : gmap string DatasetDemand }.

(** What a rule returns when it is not [None]. *)
Definition verdict : Type := DatasetReplica * decision * string.

(** "A rule is a callable object with (replica, demand_manager) as
    arguments that returns None or (replica, decision, reason)". *)
Definition rule : Type := DatasetReplica -> DemandManager -> option verdict.

Record policy := mkPolicy {
  default_decision : decision;
  rules : list rule
}.

(** The [for rule in self.rules] loop of [evaluate].  [i] is the position of
    the rule about to be called and [called] the positions of the rules
    called so far; [None] is the loop running to its end (the [else:] arm of
    the [for]), [Some result] the [break]. *)
Fixpoint evaluate_loop (rs : list rule) (i : nat) (replica : DatasetReplica)
    (demand_manager : DemandManager) (called : list nat)
    : option verdict * list nat :=
  match rs with
  | [] => (None, called)
  | r :: rest =>
      let result := r replica demand_manager in
      let called := called ++ [i] in
      match result with
      | Some v => (Some v, called)
      | None => evaluate_loop rest (S i) replica demand_manager called
      end
  end.

(** [Policy.evaluate]: the verdict, and the positions of the rules that
    were called, in call order. *)
Definition evaluate (p : policy) (replica : DatasetReplica)
    (demand_manager : DemandManager) : verdict * list nat :=
  match evaluate_loop (rules p) 0 replica demand_manager [] with
  | (Some result, called) => (result, called)
  | (None, called) => ((replica, default_decision p, "Policy default"), called)
  end.

(** ** [sorted(iterable, key = ..., reverse = ...)]

    Python computes every key once, then sorts stably; with
    [reverse = True] the list is reversed, sorted stably in ascending order,
    and reversed again, which keeps elements with equal keys in their
    original order.  ([reverse] is the list reversal, [sorted]'s third
    argument the keyword of the same name.) *)

Section Sorted.
Context {A : Type}.

(** Stable insertion: [x] stood before every element of [l] and goes before
    the first element whose key is not smaller. *)
Fixpoint insert_by_key (x : Z * A) (l : list (Z * A)) : list (Z * A) :=
  match l with
  | [] => [x]
  | y :: ys => if fst y <? fst x then y :: insert_by_key x ys else x :: y :: ys
  end.

Definition stable_sort (l : list (Z * A)) : list (Z * A) :=
  foldr insert_by_key [] l.

(** The keys are computed first; a key function that raises ([None], such
    as a [KeyError] of a dictionary lookup) aborts the call. *)
Fixpoint decorate (key : A -> option Z) (l : list A) : option (list (Z * A)) :=
  match l with
  | [] => Some []
  | x :: xs =>
      match key x with
      | None => None
      | Some k =>
          match decorate key xs with
          | None => None
          | Some d => Some ((k, x) :: d)
          end
      end
  end.

Definition sorted (l : list A) (key : A -> option Z) (rev_flag : bool)
    : option (list A) :=
  match decorate key l with
  | None => None
  | Some d =>
      let d := if rev_flag then reverse d else d in
      let s := stable_sort d in
      Some (snd <$> (if rev_flag then reverse s else s))
  end.

End Sorted.

(** [lambda r: demands.dataset_demands[r.dataset].global_usage_rank] *)
Definition rank_key (demands : DemandManager) (r : DatasetReplica) : option Z :=
  match dataset_demands demands !! dataset r with
  | Some d => Some (global_usage_rank d)
  | None => None
  end.

(** [Policy.sort_deletion_candidates] *)
Definition sort_deletion_candidates (replicas : list DatasetReplica)
    (demands : DemandManager) : option (list DatasetReplica) :=
  sorted replicas (rank_key demands) true.

(** The order the specification asks for, as a property of an output list:
    ranks never increase, and of two candidates with the same rank the one
    with the lexicographically smaller dataset name stands first. *)
Definition ordered_by_rank_then_name (demands : DemandManager)
    (out : list DatasetReplica) : Prop :=
  forall (i j : nat) (a b : DatasetReplica) (ka kb : Z),
    out !! i = Some a -> out !! j = Some b ->
    rank_key demands a = Some ka -> rank_key demands b = Some kb ->
    (kb < ka -> (i < j)%nat) /\
    (ka = kb -> String.ltb (dataset a) (dataset b) = true -> (i < j)%nat).

(** Sample policies and candidates. *)
Definition rule_none : rule := fun _ _ => None.
Definition rule_keep : rule := fun r _ => Some (r, DEC_KEEP, "keep").
Definition rule_protect : rule := fun r _ => Some (r, DEC_PROTECT, "protect").

Definition sample_policy : policy :=
  mkPolicy DEC_DELETE [rule_none; rule_keep; rule_protect].
Definition silent_policy : policy := mkPolicy DEC_DELETE [rule_none; rule_none].

Definition tie_demands : DemandManager :=
  mkDemands (<["/A/x/y" := mkDemand 1]> (<["/B/x/y" := mkDemand 1]> ∅)).
Definition tie_replicas : list DatasetReplica :=
  [mkReplica "/B/x/y" "S1"; mkReplica "/A/x/y" "S1"].

(** *** Policy.sort_deletion_candidates *)

Section SortedFacts.
Context {A : Type}.
Implicit Types (x : Z * A) (l d : list (Z * A)).

Lemma insert_by_key_perm x l : insert_by_key x l ≡ₚ x :: l.
Proof.
  induction l as [|y ys IH]; simpl; [done|].
  destruct (fst y <? fst x); [|done].
  rewrite IH. apply Permutation_swap.
Qed.

Lemma stable_sort_perm l : stable_sort l ≡ₚ l.
Proof.
  induction l as [|x l IH]; simpl; [done|].
  rewrite insert_by_key_perm. by rewrite IH.
Qed.

Lemma insert_by_key_sorted x l :
  StronglySorted (fun p q => fst p <= fst q) l ->
  StronglySorted (fun p q => fst p <= fst q) (insert_by_key x l).
Proof.
  induction 1 as [|y ys Hys IH Hy]; simpl.
  - repeat constructor.
  - destruct (Z.ltb_spec (fst y) (fst x)) as [Hlt|Hge].
    + constructor; [done|].
      rewrite insert_by_key_perm. constructor; [lia|done].
    + constructor; [by constructor|].
      constructor; [done|].
      eapply Forall_impl; [exact Hy|]. simpl. intros; lia.
Qed.

Lemma stable_sort_sorted l :
  StronglySorted (fun p q => fst p <= fst q) (stable_sort l).
Proof.
  induction l as [|x l IH]; simpl; [constructor|].
  by apply insert_by_key_sorted.
Qed.

Lemma insert_by_key_filter (k : Z) x l :
  filter (fun p => fst p = k) (insert_by_key x l)
    = filter (fun p => fst p = k) (x :: l).
Proof.
  induction l as [|y ys IH]; simpl; [done|].
  destruct (Z.ltb_spec (fst y) (fst x)) as [Hlt|Hge]; [|done].
  rewrite (filter_cons _ y), IH, !(filter_cons _ x), !(filter_cons _ y).
  repeat case_decide; (done || lia).
Qed.

Lemma stable_sort_filter (k : Z) l :
  filter (fun p => fst p = k) (stable_sort l) = filter (fun p => fst p = k) l.
Proof.
  induction l as [|x l IH]; simpl; [done|].
  rewrite insert_by_key_filter, !(filter_cons _ x), IH. done.
Qed.

Lemma StronglySorted_reverse (R : relation (Z * A)) l :
  StronglySorted R l -> StronglySorted (flip R) (reverse l).
Proof.
  induction 1 as [|y ys Hys IH Hy]; [constructor|].
  rewrite reverse_cons. apply StronglySorted_app. split_and!.
  - intros p q Hp Hq. apply list_elem_of_singleton in Hq as ->.
    apply elem_of_reverse_2 in Hp. rewrite reverse_involutive in Hp.
    rewrite Forall_forall in Hy. by apply Hy.
  - done.
  - repeat constructor.
Qed.

Lemma decorate_Some (key : A -> option Z) (l : list A) (d : list (Z * A)) :
  decorate key l = Some d ->
  snd <$> d = l /\ Forall (fun p => key (snd p) = Some (fst p)) d.
Proof.
  revert d. induction l as [|x xs IH]; simpl; intros d Hd.
  - by inversion Hd.
  - destruct (key x) as [k|] eqn:Hk; [|done].
    destruct (decorate key xs) as [d'|]; [|done].
    inversion Hd; subst. destruct (IH d' eq_refl) as [Hxs Hall].
    split; [by rewrite fmap_cons, Hxs | by constructor].
Qed.

Lemma decorate_is_Some (key : A -> option Z) (l : list A) :
  Forall (fun a => is_Some (key a)) l -> is_Some (decorate key l).
Proof.
  induction 1 as [|a l [k Hk] _ [d Hd]]; simpl; [eauto|].
  rewrite Hk, Hd. eauto.
Qed.

Lemma filter_undecorate (key : A -> option Z) (k : Z) d :
  Forall (fun p => key (snd p) = Some (fst p)) d ->
  filter (fun a => key a = Some k) (snd <$> d)
    = snd <$> filter (fun p => fst p = k) d.
Proof.
  induction 1 as [|p d Hp _ IH]; [done|].
  rewrite fmap_cons, !filter_cons, IH.
  repeat case_decide; (done || congruence).
Qed.

(** What [sorted(l, key, reverse = True)] returns: a rearrangement of [l]
    whose keys never increase and in which the elements of any one key stand
    in the order they had in [l]. *)
Lemma sorted_reverse_spec (key : A -> option Z) (l out : list A) :
  sorted l key true = Some out ->
  out ≡ₚ l /\
  StronglySorted
    (fun a b => forall ka kb, key a = Some ka -> key b = Some kb -> kb <= ka) out /\
  (forall k, filter (fun a => key a = Some k) out
             = filter (fun a => key a = Some k) l).
Proof.
  unfold sorted. destruct (decorate key l) as [d|] eqn:Hd; [|done].
  intros [= <-]. apply decorate_Some in Hd as [Hl Hkeys].
  assert (Hperm : reverse (stable_sort (reverse d)) ≡ₚ d).
  { by rewrite reverse_Permutation, stable_sort_perm, reverse_Permutation. }
  assert (Hkeys' : Forall (fun p => key (snd p) = Some (fst p))
                     (reverse (stable_sort (reverse d)))).
  { by rewrite Hperm. }
  split_and!.
  - by rewrite Hperm, Hl.
  - pose proof (StronglySorted_reverse _ _ (stable_sort_sorted (reverse d))) as Hs.
    revert Hs Hkeys'. generalize (reverse (stable_sort (reverse d))).
    induction 1 as [|p s Hs IH Hp]; intros Hk; [constructor|].
    apply Forall_cons in Hk as [Hkp Hk]. rewrite fmap_cons.
    constructor; [by apply IH|].
    apply Forall_fmap, Forall_forall. intros q Hq ka kb Ha Hb.
    rewrite Forall_forall in Hp, Hk. specialize (Hp q Hq). specialize (Hk q Hq).
    unfold flip in Hp. rewrite Hkp in Ha. rewrite Hk in Hb.
    inversion Ha; inversion Hb; subst; exact Hp.
  - intros k. rewrite (filter_undecorate key k _ Hkeys').
    rewrite filter_reverse, stable_sort_filter, filter_reverse, reverse_involutive.
    rewrite <- (filter_undecorate key k d Hkeys). by rewrite Hl.
Qed.

End SortedFacts.

(** *** Policy.evaluate *)

Lemma evaluate_loop_first (pre post : list rule) (r : rule) (v : verdict)
    (i : nat) (replica : DatasetReplica) (dm : DemandManager) (called : list nat) :
  Forall (fun q => q replica dm = None) pre ->
  r replica dm = Some v ->
  evaluate_loop (pre ++ r :: post) i replica dm called
    = (Some v, called ++ seq i (S (length pre))).
Proof.
  intros Hpre Hr. revert i called.
  induction Hpre as [|q pre Hq _ IH]; intros i called; simpl.
  - now rewrite Hr.
  - rewrite Hq, IH. now rewrite <- app_assoc.
Qed.

Lemma evaluate_loop_none (rs : list rule) (i : nat) (replica : DatasetReplica)
    (dm : DemandManager) (called : list nat) :
  Forall (fun q => q replica dm = None) rs ->
  evaluate_loop rs i replica dm called = (None, called ++ seq i (length rs)).
Proof.
  intros Hrs. revert i called.
  induction Hrs as [|q rs Hq _ IH]; intros i called; simpl.
  - now rewrite app_nil_r.
  - rewrite Hq, IH. now rewrite <- app_assoc.
Qed.

(** C7.  [Policy.evaluate] returns the verdict of the first rule, in list
    order, that does not return [None], and calls exactly the rules up to
    and including that one (none of the later ones); when every rule returns
    [None] it returns [(replica, default_decision, "Policy default")] after
    calling each rule once. *)
Theorem evaluate_first_non_null (p : policy) (replica : DatasetReplica)
    (dm : DemandManager) :
  (forall pre r post v,
      rules p = pre ++ r :: post ->
      Forall (fun q => q replica dm = None) pre ->
      r replica dm = Some v ->
      evaluate p replica dm = (v, seq 0 (S (length pre)))) /\
  (Forall (fun q => q replica dm = None) (rules p) ->
      evaluate p replica dm
        = ((replica, default_decision p, "Policy default"),
           seq 0 (length (rules p)))).
Proof.
  split.
  - intros pre r post v Hrules Hpre Hr. unfold evaluate.
    rewrite Hrules, (evaluate_loop_first pre post r v) by assumption.
    reflexivity.
  - intros Hall. unfold evaluate.
    rewrite evaluate_loop_none by assumption. reflexivity.
Qed.

Lemma evaluate_first_non_null_witness :
  evaluate sample_policy (mkReplica "/A/x/y" "S1") tie_demands
    = ((mkReplica "/A/x/y" "S1", DEC_KEEP, "keep"), [0; 1]%nat) /\
  evaluate silent_policy (mkReplica "/A/x/y" "S1") tie_demands
    = ((mkReplica "/A/x/y" "S1", DEC_DELETE, "Policy default"), [0; 1]%nat).
Proof.
  split.
  - apply (proj1 (evaluate_first_non_null sample_policy _ tie_demands)
             [rule_none] rule_keep [rule_protect]).
    + reflexivity.
    + repeat constructor.
    + reflexivity.
  - apply (proj2 (evaluate_first_non_null silent_policy _ tie_demands)).
    repeat constructor.
Defined.

(** C6, as the code has it.  Whenever every candidate's dataset has a demand
    entry, [sort_deletion_candidates] returns a rearrangement of the
    candidates in which [global_usage_rank] never increases, and candidates
    with the same rank keep the order they had in the input (the sort is
    stable; dataset names play no part). *)
Theorem sort_deletion_candidates_stable (replicas : list DatasetReplica)
    (demands : DemandManager) :
  Forall (fun r => is_Some (dataset_demands demands !! dataset r)) replicas ->
  exists out,
    sort_deletion_candidates replicas demands = Some out /\
    out ≡ₚ replicas /\
    StronglySorted
      (fun a b => forall ka kb,
           rank_key demands a = Some ka -> rank_key demands b = Some kb ->
           kb <= ka) out /\
    (forall k, filter (fun r => rank_key demands r = Some k) out
               = filter (fun r => rank_key demands r = Some k) replicas).
Proof.
  intros Hall.
  assert (Hkeys : Forall (fun r => is_Some (rank_key demands r)) replicas).
  { eapply Forall_impl; [exact Hall|]. intros r [d Hd]. unfold rank_key.
    rewrite Hd. eauto. }
  destruct (decorate_is_Some _ _ Hkeys) as [d Hd].
  unfold sort_deletion_candidates.
  destruct (sorted replicas (rank_key demands) true) as [out|] eqn:Hout.
  - exists out. split; [done|]. by apply sorted_reverse_spec.
  - unfold sorted in Hout. by rewrite Hd in Hout.
Qed.

Lemma sort_deletion_candidates_stable_witness :
  exists out,
    sort_deletion_candidates tie_replicas tie_demands = Some out /\
    out ≡ₚ tie_replicas /\
    StronglySorted
      (fun a b => forall ka kb,
           rank_key tie_demands a = Some ka -> rank_key tie_demands b = Some kb ->
           kb <= ka) out /\
    (forall k, filter (fun r => rank_key tie_demands r = Some k) out
               = filter (fun r => rank_key tie_demands r = Some k) tie_replicas).
Proof.
  apply (sort_deletion_candidates_stable tie_replicas tie_demands).
  repeat constructor; vm_compute; eauto.
Defined.

(** C6, as the specification words it, fails: two candidates of equal rank
    come out in input order, here with the lexicographically larger dataset
    name first. *)
Lemma sort_deletion_candidates_ties_not_by_name :
  sort_deletion_candidates tie_replicas tie_demands = Some tie_replicas /\
  ~ ordered_by_rank_then_name tie_demands tie_replicas.
Proof.
  split; [by vm_compute|].
  intros H.
  destruct (H 1%nat 0%nat (mkReplica "/A/x/y" "S1") (mkReplica "/B/x/y" "S1") 1 1)
    as [_ Hname]; try (by vm_compute).
  specialize (Hname eq_refl). 
  assert (Hlt : String.ltb "/A/x/y" "/B/x/y" = true) by (by vm_compute).
  specialize (Hname Hlt). lia.
Qed.

End Policy.

(* ===================================================================== *)
(** * lib/common/interface/webservice.py                                  *)
(* ===================================================================== *)

Module WebService.

(** [sys.exc_info()[:2]]: the class of a caught exception and its value. *)
Record exc_info := mkExcInfo { exc_type : string; exc_value : string }.

(** What [opener.open(request)] followed by [response.read()] gives on one
    call: the content of the response, or the exception it raised. *)
Inductive response :=
| Content (content : string)
| OpenError (e : exc_info).

(** An exception leaving [make_request]: its class and constructor
    arguments. *)
Inductive exc_arg :=
| ArgStr (s : string)
| ArgExceptions (es : list exc_info).

Record exception := mkException { exc_class : string; exc_args : list exc_arg }.

(** Records written with [logger.error]. *)
Inductive log_record :=
| LogError (msg : string)
| LogErrorExceptions (es : list exc_info).

Inductive outcome (body : Type) :=
| Returned (result : body)
| Raised (e : exception).
Arguments Returned {body} result.
Arguments Raised {body} e.

Record RESTService := mkREST {
  url_base : string;
  headers : list (string * string);
  accept : string
}.

Section MakeRequest.

(** The decoded body, [json.loads] (which raises on malformed content) and
    [common.misc.unicode2str], which normalises the decoded body in place. *)
Variable body : Type.
Variable json_loads : string -> body + exc_info.
Variable unicode2str : body -> body.

(** [config.webservice.num_attempts] *)
Variable num_attempts : nat.

(** The remote end: the response to the [i]-th call of [opener.open], counted
    from 0. *)
Variable server : nat -> response.

(** The body of the [try]: open, read and decode.  Only
    ['application/json'] assigns [result]; with any other [accept] the
    [return result] raises [UnboundLocalError], and the bare [except]
    catches that like any other exception. *)
Definition attempt (self : RESTService) (r : response) : body + exc_info :=
  match r with
  | OpenError e => inr e
  | Content content =>
      if String.eqb (accept self) "application/json" then
        match json_loads content with
        | inl result => inl (unicode2str result)
        | inr e => inr e
        end
      else
        inr (mkExcInfo "UnboundLocalError"
               "local variable 'result' referenced before assignment")
  end.

(** The state of the loop: the number of calls made so far and the list
    [exceptions]. *)
Record final := mkFinal {
  result_of : outcome body;
  calls : nat;
  logged : list log_record
}.

(** [while len(exceptions) != config.webservice.num_attempts: ... else: ...]
    with [fuel] bounding the number of tests of the loop condition. *)
Fixpoint request_loop (fuel : nat) (self : RESTService) (ncalls : nat)
    (exceptions : list exc_info) : option final :=
  match fuel with
  | O => None
  | S fuel' =>
      if Nat.eqb (length exceptions) num_attempts then
        (* exhausted allowed attempts *)
        Some (mkFinal
                (Raised (mkException "RuntimeError"
                           [ArgStr "webservice too many attempts"]))
                ncalls
                [LogError "Too many failed attempts in webservice";
                 LogErrorExceptions exceptions])
      else
        match attempt self (server ncalls) with
        | inl result => Some (mkFinal (Returned result) (S ncalls) [])
        | inr e => request_loop fuel' self (S ncalls) (exceptions ++ [e])
        end
  end.

(** [RESTService.make_request], from [exceptions = []] on.  Each turn of the
    loop that does not return makes [exceptions] one longer, so
    [num_attempts + 1] tests of the condition are enough. *)
Definition make_request (self : RESTService) : option final :=
  request_loop (S num_attempts) self 0 [].

(** The failure the specification describes: [TransientNetworkError]
    carrying the (exception type, message) pairs. *)
Definition fails_with_TransientNetworkError (o : outcome body)
    (es : list exc_info) : Prop :=
  exists e, o = Raised e /\
            exc_class e = "TransientNetworkError" /\
            ArgExceptions es ∈ exc_args e.

Lemma request_loop_fails (self : RESTService) (es : list exc_info) :
  forall (fuel ncalls : nat) (exceptions : list exc_info),
    (forall i e, es !! i = Some e ->
                 attempt self (server (ncalls + i)) = inr e) ->
    (length exceptions + length es <= num_attempts)%nat ->
    (length es < fuel)%nat ->
    request_loop fuel self ncalls exceptions
      = request_loop (fuel - length es) self (ncalls + length es)
          (exceptions ++ es).
Proof.
  induction es as [|e es IH]; intros fuel ncalls exceptions Hes Hlen Hfuel.
  - simpl. by rewrite Nat.sub_0_r, Nat.add_0_r, app_nil_r.
  - destruct fuel as [|fuel]; [simpl in Hfuel; lia|]. simpl in *.
    destruct (Nat.eqb_spec (length exceptions) num_attempts) as [Heq|_]; [lia|].
    pose proof (Hes 0%nat e eq_refl) as H0. rewrite Nat.add_0_r in H0.
    rewrite H0, IH.
    + rewrite <- app_assoc. simpl. f_equal. lia.
    + intros i e' Hi. replace (S ncalls + i)%nat with (ncalls + S i)%nat by lia.
      by apply Hes.
    + rewrite length_app. simpl. lia.
    + lia.
Qed.

(** The loop ends: with [num_attempts + 1] tests of its condition
    [make_request] returns or raises. *)
Lemma make_request_loop_total (self : RESTService) :
  forall (fuel ncalls : nat) (exceptions : list exc_info),
    (length exceptions <= num_attempts)%nat ->
    (num_attempts - length exceptions < fuel)%nat ->
    is_Some (request_loop fuel self ncalls exceptions).
Proof.
  induction fuel as [|fuel IH]; intros ncalls exceptions Hle Hfuel; [lia|].
  simpl. destruct (Nat.eqb_spec (length exceptions) num_attempts); [eauto|].
  destruct (attempt self (server ncalls)); [eauto|].
  apply IH; rewrite length_app; simpl; lia.
Qed.

Lemma make_request_total (self : RESTService) : is_Some (make_request self).
Proof. apply make_request_loop_total; simpl; lia. Qed.

End MakeRequest.

Arguments mkFinal {body}.
Arguments result_of {body}.
Arguments calls {body}.
Arguments logged {body}.

(** A server that answers 500 twice and then 200, one that always answers
    500, and a decoder that accepts any content. *)
Definition http_500 : exc_info :=
  mkExcInfo "HTTPError" "HTTP Error 500: Internal Server Error".

Definition server_500_500_200 (i : nat) : response :=
  match i with
  | 0%nat | 1%nat => OpenError http_500
  | _ => Content "{}"
  end.

Definition server_500 (i : nat) : response := OpenError http_500.

Definition loads_any (content : string) : string + exc_info := inl content.

Definition phedex : RESTService :=
  mkREST "https://cmsweb.cern.ch/phedex/datasvc/json/prod" [] "application/json".

(** C1, as the code has it.  [es] being the exceptions of the first
    [length es] calls, in order: if fewer than [num_attempts] calls failed
    and the next one succeeds, [make_request] returns the decoded body of
    that call, having made [length es + 1] calls and logged nothing; if
    [num_attempts] calls failed, it makes no further call, logs the list of
    the [num_attempts] (exception type, value) pairs, one per failed call,
    and raises [RuntimeError('webservice too many attempts')], which carries
    only that message. *)
Theorem make_request_retries (body : Type) (json_loads : string -> body + exc_info)
    (unicode2str : body -> body) (num_attempts : nat) (server : nat -> response)
    (self : RESTService) (es : list exc_info) :
  (forall i e, es !! i = Some e ->
               attempt body json_loads unicode2str self (server i) = inr e) ->
  (forall result,
      (length es < num_attempts)%nat ->
      attempt body json_loads unicode2str self (server (length es)) = inl result ->
      make_request body json_loads unicode2str num_attempts server self
        = Some (mkFinal (Returned result) (S (length es)) [])) /\
  (length es = num_attempts ->
      make_request body json_loads unicode2str num_attempts server self
        = Some (mkFinal
                  (Raised (mkException "RuntimeError"
                             [ArgStr "webservice too many attempts"]))
                  num_attempts
                  [LogError "Too many failed attempts in webservice";
                   LogErrorExceptions es])).
Proof.
  intros Hes.
  assert (Hloop : (length es <= num_attempts)%nat ->
            make_request body json_loads unicode2str num_attempts server self
            = request_loop body json_loads unicode2str num_attempts server
                (S num_attempts - length es) self (length es) es).
  { intros Hle. unfold make_request.
    rewrite (request_loop_fails _ _ _ _ _ self es); simpl; try lia; done. }
  split.
  - intros result Hlt Hok. rewrite Hloop by lia.
    replace (S num_attempts - length es)%nat
      with (S (num_attempts - length es)) by lia.
    simpl. destruct (Nat.eqb_spec (length es) num_attempts) as [Heq|_]; [lia|].
    by rewrite Hok.
  - intros Heq. rewrite Hloop by lia.
    replace (S num_attempts - length es)%nat with 1%nat by lia.
    simpl. destruct (Nat.eqb_spec (length es) num_attempts) as [_|Hne]; [|lia].
    by rewrite Heq.
Qed.

Lemma make_request_retries_witness :
  make_request string loads_any id 3 server_500_500_200 phedex
    = Some (mkFinal (Returned "{}") 3 []) /\
  make_request string loads_any id 3 server_500 phedex
    = Some (mkFinal
              (Raised (mkException "RuntimeError"
                         [ArgStr "webservice too many attempts"]))
              3
              [LogError "Too many failed attempts in webservice";
               LogErrorExceptions [http_500; http_500; http_500]]).
Proof.
  split.
  - apply (proj1 (make_request_retries string loads_any id 3 server_500_500_200
                    phedex [http_500; http_500]
                    ltac:(intros [|[|i]] e; simpl; intros [= <-]; reflexivity))).
    + simpl. lia.
    + reflexivity.
  - apply (proj2 (make_request_retries string loads_any id 3 server_500
                    phedex [http_500; http_500; http_500]
                    ltac:(intros [|[|[|i]]] e; simpl; intros [= <-]; reflexivity))).
    reflexivity.
Defined.

(** C1, as the specification words it, fails: against a server that answers
    500 three times, with [num_attempts = 3], the exception raised after the
    third call is not a [TransientNetworkError] and does not carry the three
    (exception type, message) pairs. *)
Lemma make_request_not_TransientNetworkError :
  exists f,
    make_request string loads_any id 3 server_500 phedex = Some f /\
    calls f = 3%nat /\
    ~ fails_with_TransientNetworkError string (result_of f)
        [http_500; http_500; http_500].
Proof.
  eexists. split; [reflexivity|]. split; [reflexivity|].
  intros (e & He & Hclass & _). simpl in He. inversion He; subst e.
  discriminate Hclass.
Qed.

End WebService.

(* ===================================================================== *)
(** * lib/common/interface/phedexdbsssb.py                                *)
(* ===================================================================== *)

Module PhEDEx.

(** ** The objects of [common.dataformat] the adapter builds *)

Record Group := mkGroup { group_name : string }.

#[global] Instance Group_eq_dec : EqDecision Group.
Proof. solve_decision. Defined.

Record Block := mkBlock {
  block_name : string;
  block_size : Z;
  block_num_files : Z;
  block_is_open : bool
}.

(** [Dataset.STAT_*] *)
Inductive status :=
| STAT_VALID | STAT_PRODUCTION | STAT_UNKNOWN
| STAT_INVALID | STAT_DEPRECATED | STAT_IGNORED.

#[global] Instance status_eq_dec : EqDecision status.
Proof. solve_decision. Defined.

Record Dataset := mkDataset {
  dataset_name : string;
  dataset_status : status;
  on_tape : bool;
  blocks : list Block
}.

(** [site.group_quota] is a dictionary from group to quota; only its values
    are read here. *)
Record Site := mkSite {
  site_name : string;
  group_quota : list (string * Z)
}.

Record BlockReplica := mkBlockReplica {
  br_block : Block;
  br_site : string;
  br_group : option Group;
  br_is_complete : bool;
  br_is_custodial : bool;
  br_size : Z
}.

Record DatasetReplica := mkDatasetReplica {
  dr_dataset : Dataset;
  dr_site : string;
  is_complete : bool;
  is_partial : bool;
  is_custodial : bool;
  last_block_created : Z;
  group : option Group;
  block_replicas : list BlockReplica
}.

(** ** The response of the [blockreplicas] query *)

Record replica_entry := mkReplicaEntry {
  re_group : option string;      (* ['group'], [None] for JSON null *)
  re_node : string;
  re_time_update : Z;
  re_complete : string;          (* 'y' or 'n' *)
  re_custodial : string;
  re_bytes : Z
}.

Record block_entry := mkBlockEntry {
  be_name : string;
  be_bytes : Z;
  be_files : Z;
  be_replica : list replica_entry
}.

(** ['block' not in dataset_entry] is [de_block = None]. *)
Record dataset_entry := mkDatasetEntry {
  de_name : string;
  de_block : option (list block_entry)
}.

(** Exceptions that leave [exec_get]. *)
Inductive error :=
| KeyError (key : string)
| IndexError.

(** Records written with [logger.warning]. *)
Inductive log_record :=
| Warning_group_not_registered (group_name block_name : string).

(** ** [make_replica_links]: construction of the replicas (second pass of
    [exec_get]) *)

(** [dataset_replicas[site]], a dictionary local to one dataset entry.  The
    [DatasetReplica] objects it holds are the ones appended to
    [new_replicas]; they are updated in place, so the local dictionary is
    kept as the list of the dataset's new replicas in creation order and is
    appended to [new_replicas] when the dataset entry is done. *)
Fixpoint lookup_replica (site : string) (drs : list DatasetReplica)
    : option DatasetReplica :=
  match drs with
  | [] => None
  | dr :: rest =>
      if String.eqb (dr_site dr) site then Some dr else lookup_replica site rest
  end.

Fixpoint update_replica (dr' : DatasetReplica) (drs : list DatasetReplica)
    : list DatasetReplica :=
  match drs with
  | [] => []
  | dr :: rest =>
      if String.eqb (dr_site dr) (dr_site dr') then dr' :: rest
      else dr :: update_replica dr' rest
  end.

(** [replica_entry['group'] in gname_list]: the names in [gname_list] are
    strings, so a null group is never in the list. *)
Definition group_in (g : option string) (gname_list : list string) : bool :=
  match g with
  | Some name => bool_decide (name ∈ gname_list)
  | None => false
  end.

Record pass2_state := mkPass2 {
  dataset_replicas : list DatasetReplica;
  warnings : list log_record
}.

(** The body of [for replica_entry in block_entry['replica']]. *)
Definition process_replica_entry (sites : gmap string Site)
    (groups : gmap string Group) (gname_list : list string)
    (dataset : Dataset) (block : Block)
    (st : pass2_state) (entry : replica_entry) : error + pass2_state :=
  if negb (group_in (re_group entry) gname_list) then
    inr st                                                    (* continue *)
  else
    let '(grp, warns) :=
      match re_group entry with
      | Some gname =>
          match groups !! gname with
          | Some g => (Some g, warnings st)
          | None =>
              (None,
               warnings st ++ [Warning_group_not_registered gname (block_name block)])
          end
      | None => (None, warnings st)
      end in
    match sites !! re_node entry with
    | None => inl (KeyError (re_node entry))
    | Some site =>
        let '(dataset_replica, drs) :=
          match lookup_replica (site_name site) (dataset_replicas st) with
          | Some dr => (dr, dataset_replicas st)
          | None =>
              (* first time associating this dataset with this site *)
              let dr := mkDatasetReplica dataset (site_name site)
                          true false false 0 None [] in
              (dr, dataset_replicas st ++ [dr])
          end in
        let lbc :=
          if last_block_created dataset_replica <? re_time_update entry
          then re_time_update entry
          else last_block_created dataset_replica in
        let complete :=
          String.eqb (re_complete entry) "y"
          || (re_bytes entry <? block_size block) in
        let custodial := String.eqb (re_custodial entry) "y" in
        let block_replica :=
          mkBlockReplica block (site_name site) grp complete custodial
            (re_bytes entry) in
        let dr' :=
          mkDatasetReplica (dr_dataset dataset_replica) (dr_site dataset_replica)
            (if negb complete then false else is_complete dataset_replica)
            (is_partial dataset_replica)
            (if custodial then true else is_custodial dataset_replica)
            lbc
            (group dataset_replica)
            (block_replicas dataset_replica ++ [block_replica]) in
        inr (mkPass2 (update_replica dr' drs) warns)
    end.

(** [for replica_entry in block_entry['replica']: ...] *)
Fixpoint process_replica_entries (sites : gmap string Site)
    (groups : gmap string Group) (gname_list : list string)
    (dataset : Dataset) (block : Block)
    (st : pass2_state) (entries : list replica_entry) : error + pass2_state :=
  match entries with
  | [] => inr st
  | entry :: rest =>
      match process_replica_entry sites groups gname_list dataset block st entry with
      | inl e => inl e
      | inr st' =>
          process_replica_entries sites groups gname_list dataset block st' rest
      end
  end.

(** [for block_entry in dataset_entry['block']: ...]; the blocks prepared by
    the first pass are read from [block_array] at [barray_entry]. *)
Fixpoint process_block_entries (sites : gmap string Site)
    (groups : gmap string Group) (gname_list : list string)
    (dataset : Dataset) (block_array : list Block) (barray_entry : nat)
    (st : pass2_state) (entries : list block_entry)
    : error + (pass2_state * nat) :=
  match entries with
  | [] => inr (st, barray_entry)
  | entry :: rest =>
      match block_array !! barray_entry with
      | None => inl IndexError
      | Some block =>
          match process_replica_entries sites groups gname_list dataset block st
                  (be_replica entry) with
          | inl e => inl e
          | inr st' =>
              process_block_entries sites groups gname_list dataset block_array
                (S barray_entry) st' rest
          end
      end
  end.

(** The second pass of [exec_get] over [source]: [new_replicas] and the
    warnings logged. *)
Fixpoint construct_replicas (sites : gmap string Site)
    (groups : gmap string Group) (gname_list : list string)
    (dataset_array : list Dataset) (block_array : list Block)
    (darray_entry barray_entry : nat)
    (new_replicas : list DatasetReplica) (logged : list log_record)
    (source : list dataset_entry)
    : error + (list DatasetReplica * list log_record) :=
  match source with
  | [] => inr (new_replicas, logged)
  | entry :: rest =>
      match de_block entry with
      | None =>
          construct_replicas sites groups gname_list dataset_array block_array
            darray_entry barray_entry new_replicas logged rest
      | Some block_entries =>
          match dataset_array !! darray_entry with
          | None => inl IndexError
          | Some dataset =>
              match process_block_entries sites groups gname_list dataset
                      block_array barray_entry (mkPass2 [] logged) block_entries with
              | inl e => inl e
              | inr (st, barray_entry') =>
                  construct_replicas sites groups gname_list dataset_array
                    block_array (S darray_entry) barray_entry'
                    (new_replicas ++ dataset_replicas st) (warnings st) rest
              end
          end
      end
  end.

(** The block replicas a pass built, over all dataset replicas. *)
Definition built_block_replicas (st : pass2_state) : list BlockReplica :=
  concat (map block_replicas (dataset_replicas st)).

(** [all_groups] and [gname_list] of [make_replica_links]; [fnmatch] is
    [fnmatch.fnmatch] of the Python library. *)
Definition all_groups (fnmatch : string -> string -> bool)
    (groups : gmap string Group) (group_filt : string) : list Group :=
  map snd (filter (fun kv => fnmatch (fst kv) group_filt = true) (map_to_list groups)).

Definition gname_list_of (fnmatch : string -> string -> bool)
    (groups : gmap string Group) (group_filt : string) : list string :=
  map group_name (all_groups fnmatch groups group_filt).

(** ** [make_replica_links]: merging the group information *)

(** [for block_replica in replica.block_replicas: ...] on [replica.group]. *)
Fixpoint merge_group (g : option Group) (brs : list BlockReplica) : option Group :=
  match brs with
  | [] => g
  | block_replica :: rest =>
      match g with
      | None => merge_group (br_group block_replica) rest       (* continue *)
      | Some _ =>
          if bool_decide (br_group block_replica <> g) then None   (* break *)
          else merge_group g rest
      end
  end.

(** The body of [for replica in site.dataset_replicas]. *)
Definition merge_replica (replica : DatasetReplica) : DatasetReplica :=
  mkDatasetReplica (dr_dataset replica) (dr_site replica)
    (is_complete replica)
    (if bool_decide (length (block_replicas replica)
                       <> length (blocks (dr_dataset replica)))
     then true else is_partial replica)
    (is_custodial replica)
    (last_block_created replica)
    (merge_group (group replica) (block_replicas replica))
    (block_replicas replica).

(** Invariant 5 of the data model for one dataset replica with block
    replicas: its group is the group [g] exactly when every block replica is
    owned by [g]; so it is null whenever the block replicas do not all share
    one owning group, in particular when one of them has the null group. *)
Definition group_invariant (replica : DatasetReplica) : Prop :=
  block_replicas replica <> [] ->
  forall g : Group,
    group replica = Some g
    <-> Forall (fun br => br_group br = Some g) (block_replicas replica).

(** ** [make_replica_links]: splitting the query *)

(** [sum(site.group_quota.values())] *)
Definition total_quota (site : Site) : Z :=
  foldr Z.add 0 (map snd (group_quota site)).

Definition characters : string :=
  "aAbBcCdDeEfFgGhHiIjJkKlLmMnNoOpPqQrRsStTuUvVwWxXyYzZ0123456789".

(** [range(start, stop, step)] for a positive [step]. *)
Fixpoint range_loop (fuel i stop step : nat) : list nat :=
  match fuel with
  | O => []
  | S fuel' =>
      if (i <? stop)%nat then i :: range_loop fuel' (i + step) stop step else []
  end.

Definition py_range (start stop step : nat) : list nat :=
  range_loop stop start stop step.

(** [[characters[i:i + chunk_size] for i in range(0, 62, chunk_size)]] *)
Definition charsets (chunk_size : nat) : list string :=
  map (fun i => String.substring i chunk_size characters) (py_range 0 62 chunk_size).

(** ['/%s*/*/*' % c] *)
Definition dname_of (c : ascii) : string := "/" ++ String c "*/*/*".

(** One argument tuple of [exec_get]: [(site_list, gname_list, dname_list)]. *)
Definition item : Type := list Site * list string * list string.

(** [max(62 / int(total_quota / 100), 1)] in Python 2 integer arithmetic. *)
Definition chunk_size_of (quota : Z) : Z := Z.max (62 / (quota / 100)) 1.

(** The items contributed by one site. *)
Definition site_items (gname_list : list string) (site : Site) : list item :=
  if 500 <=? total_quota site then
    (* further split by the first character of the dataset names *)
    map (fun charset =>
           ([site], gname_list, map dname_of (String.list_ascii_of_string charset)))
        (charsets (Z.to_nat (chunk_size_of (total_quota site))))
  else
    [([site], gname_list, ["/*/*/*"])].

(** How [make_replica_links] runs [exec_get]: through [parallel_exec] over
    the items with the given number of threads, or once, directly. *)
Inductive dispatch :=
| ParallelExec (items : list item) (num_threads : Z)
| ExecGet (it : item).

Definition unrestricted (dataset_filt : string) : bool :=
  String.eqb dataset_filt "/*/*/*" || String.eqb dataset_filt ""
  || String.eqb dataset_filt "*".

Definition replica_queries (all_sites : list Site) (gname_list : list string)
    (dataset_filt : string) : dispatch :=
  if unrestricted dataset_filt then
    let items := concat (map (site_items gname_list) all_sites) in
    ParallelExec items (Z.min 64 (Z.of_nat (length items)))
  else
    ExecGet (all_sites, gname_list, [dataset_filt]).

(** Every run of [exec_get] makes one [blockreplicas] request. *)
Definition num_requests (d : dispatch) : nat :=
  match d with
  | ParallelExec items _ => length items
  | ExecGet _ => 1
  end.

(** ** [find_tape_copies] *)

(** [s.find(c)]: the first position of [c], or -1. *)
Definition py_find (c : string) (s : string) : Z :=
  match String.index 0 c s with
  | Some n => Z.of_nat n
  | None => -1
  end.

(** [s[:stop]] and [s[start:]]; a negative bound counts from the end. *)
Definition py_index (s : string) (i : Z) : nat :=
  if i <? 0 then Z.to_nat (Z.max 0 (Z.of_nat (String.length s) + i))
  else Nat.min (Z.to_nat i) (String.length s).

Definition slice_to (s : string) (stop : Z) : string :=
  String.substring 0 (py_index s stop) s.

Definition slice_from (s : string) (start : Z) : string :=
  String.substring (py_index s start) (String.length s - py_index s start) s.

(** [name[:name.find('#')]] and [name[name.find('#') + 1:]] *)
Definition ds_part (name : string) : string := slice_to name (py_find "#" name).
Definition block_part (name : string) : string :=
  slice_from name (py_find "#" name + 1).

Section TapeCopies.

(** [Block.translate_name], from the external to the internal block name. *)
Variable translate_name : string -> string.

(** The [blockreplicasummary] request: from the options posted to the names
    of the block entries of the response. *)
Variable blockreplicasummary : list (string * string) -> list string.

Definition ontape_options (dataset_list : list Dataset) : list (string * string) :=
  [("create_since", "0"); ("node", "T*MSS"); ("custodial", "y"); ("complete", "y")]
  ++ map (fun d => ("dataset", dataset_name d)) dataset_list.

(** [d[k]] for a [collections.defaultdict(list)] *)
Definition dd_get (d : gmap string (list string)) (k : string) : list string :=
  default [] (d !! k).

(** [on_tape[ds_name].append(Block.translate_name(block_name))] *)
Definition record_entry (on_tape : gmap string (list string)) (name : string)
    : gmap string (list string) :=
  <[ds_part name := dd_get on_tape (ds_part name) ++ [translate_name (block_part name)]]>
    on_tape.

(** [blocks_on_tape[ds_name].extend(block_names)] *)
Definition extend_entry (ds_name : string) (block_names : list string)
    (blocks_on_tape : gmap string (list string)) : gmap string (list string) :=
  <[ds_name := dd_get blocks_on_tape ds_name ++ block_names]> blocks_on_tape.

Definition run_ontape_query (blocks_on_tape : gmap string (list string))
    (dataset_list : list Dataset) : gmap string (list string) :=
  let source := blockreplicasummary (ontape_options dataset_list) in
  let on_tape := foldl record_entry ∅ source in
  map_fold extend_entry blocks_on_tape on_tape.

(** [if dataset.on_tape or dataset.status == Dataset.STAT_IGNORED: continue] *)
Definition skipped (d : Dataset) : bool :=
  on_tape d || bool_decide (dataset_status d = STAT_IGNORED).

(** The loop that fills [dataset_chunks]; the list of chunks is kept as the
    chunks before the last one and the last one. *)
Fixpoint fill_chunks (chunk_size : nat) (ds : list Dataset)
    (closed : list (list Dataset)) (current : list Dataset)
    : list (list Dataset) * list Dataset :=
  match ds with
  | [] => (closed, current)
  | d :: rest =>
      if skipped d then fill_chunks chunk_size rest closed current
      else
        let current := current ++ [d] in
        if Nat.eqb (length current) chunk_size
        then fill_chunks chunk_size rest (closed ++ [current]) []
        else fill_chunks chunk_size rest closed current
  end.

Definition dataset_chunks (values : list Dataset) : list (list Dataset) :=
  let '(closed, current) := fill_chunks 1000 values [] [] in
  if Nat.eqb (length current) 0 then closed else closed ++ [current].

Definition set_on_tape (d : Dataset) (b : bool) : Dataset :=
  mkDataset (dataset_name d) (dataset_status d) b (blocks d).

(** [find_tape_copies].  [datasets] is the dictionary from name to dataset
    as the list of its items; [parallel_exec] runs the query on every chunk,
    and the queries merge their findings one after the other under the
    lock. *)
Definition find_tape_copies (datasets : list (string * Dataset))
    : list (string * Dataset) :=
  let blocks_on_tape :=
    foldl run_ontape_query ∅ (dataset_chunks (map snd datasets)) in
  map (fun kv =>
         let dataset := snd kv in
         if skipped dataset then kv
         else
           let on_tape : gset string :=
             list_to_set (dd_get blocks_on_tape (dataset_name dataset)) in
           let dataset_blocks : gset string :=
             list_to_set (map block_name (blocks dataset)) in
           (fst kv, set_on_tape dataset (bool_decide (dataset_blocks = on_tape))))
      datasets.

(** The block entries returned by all the queries, and the names of the
    blocks found for a dataset among them. *)
Definition entries_found (datasets : list (string * Dataset)) : list string :=
  concat (map (fun chunk => blockreplicasummary (ontape_options chunk))
              (dataset_chunks (map snd datasets))).

Definition found_of (entries : list string) (ds_name : string) : list string :=
  map (fun name => translate_name (block_part name))
      (filter (fun name => ds_part name = ds_name) entries).

Definition blocks_found (datasets : list (string * Dataset)) (ds_name : string)
    : gset string :=
  list_to_set (found_of (entries_found datasets) ds_name).

End TapeCopies.

(** ** Sample inventory *)

Definition AnalysisOps : Group := mkGroup "AnalysisOps".
Definition sample_groups : gmap string Group := <["AnalysisOps" := AnalysisOps]> ∅.
Definition T2_A : Site := mkSite "T2_A" [("AnalysisOps", 500)].
Definition sample_sites : gmap string Site := <["T2_A" := T2_A]> ∅.
Definition block_b1 : Block := mkBlock "b1" 100 1 false.
Definition block_b2 : Block := mkBlock "b2" 100 1 false.
Definition dataset_D : Dataset := mkDataset "/D/x/y" STAT_VALID false [block_b1; block_b2].
Definition any_name (name pattern : string) : bool := true.

Definition entry_unknown_group : replica_entry :=
  mkReplicaEntry (Some "Unknown") "T2_A" 10 "y" "n" 100.
Definition entry_known_group : replica_entry :=
  mkReplicaEntry (Some "AnalysisOps") "T2_A" 10 "y" "n" 100.

Definition replica_null_then_owned : DatasetReplica :=
  mkDatasetReplica dataset_D "T2_A" true false false 10 None
    [mkBlockReplica block_b1 "T2_A" None true false 100;
     mkBlockReplica block_b2 "T2_A" (Some AnalysisOps) true false 100].

(** ** The group of a dataset replica *)

Lemma merge_group_Some (g : Group) (brs : list BlockReplica) :
  merge_group (Some g) brs
    = if bool_decide (Forall (fun br => br_group br = Some g) brs)
      then Some g else None.
Proof.
  induction brs as [|br rest IH]; cbn [merge_group].
  - by rewrite bool_decide_eq_true_2.
  - destruct (decide (br_group br = Some g)) as [Heq|Hne].
    + rewrite (bool_decide_eq_false_2 (br_group br <> Some g)) by tauto.
      rewrite IH. destruct (decide (Forall (fun br => br_group br = Some g) rest))
        as [Hall|Hnot].
      * by rewrite !bool_decide_eq_true_2 by (done || by constructor).
      * rewrite !bool_decide_eq_false_2; [done| |done].
        intros Hall. by inversion Hall.
    + rewrite (bool_decide_eq_true_2 (br_group br <> Some g)) by done.
      rewrite bool_decide_eq_false_2; [done|].
      intros Hall. by inversion Hall.
Qed.


(** The loop taken by itself relies on the block replicas having owners: on
    a dataset replica whose first block replica had no owner and whose
    second were owned by a group, it would leave the replica with that
    group.  The second pass of [exec_get] builds no block replica without
    an owner (see [ReplicaGroups]), so no such replica reaches the loop. *)
Lemma merge_group_needs_owners :
  group (merge_replica replica_null_then_owned) = Some AnalysisOps /\
  ~ Forall (fun br => br_group br = Some AnalysisOps)
      (block_replicas (merge_replica replica_null_then_owned)) /\
  ~ group_invariant (merge_replica replica_null_then_owned).
Proof.
  assert (Hnot : ~ Forall (fun br => br_group br = Some AnalysisOps)
                     (block_replicas (merge_replica replica_null_then_owned))).
  { intros Hall. by inversion Hall. }
  split_and!; [done|done|].
  intros Hinv. apply Hnot. by apply Hinv.
Qed.

(** ** Replicas of groups that are not registered *)

Lemma process_replica_entry_not_listed (sites : gmap string Site)
    (groups : gmap string Group) (gname_list : list string)
    (dataset : Dataset) (block : Block) (st : pass2_state) (entry : replica_entry) :
  group_in (re_group entry) gname_list = false ->
  process_replica_entry sites groups gname_list dataset block st entry = inr st.
Proof. intros H. unfold process_replica_entry. by rewrite H. Qed.

Lemma gname_list_of_registered (fnmatch : string -> string -> bool)
    (groups : gmap string Group) (group_filt name : string) :
  map_Forall (fun k g => group_name g = k) groups ->
  name ∈ gname_list_of fnmatch groups group_filt ->
  is_Some (groups !! name).
Proof.
  intros Hwf Hin. unfold gname_list_of, all_groups in Hin.
  apply list_elem_of_fmap in Hin as (g & -> & Hg).
  apply list_elem_of_fmap in Hg as ([k g'] & -> & Hkv).
  apply list_elem_of_filter in Hkv as [_ Hkv].
  apply elem_of_map_to_list in Hkv. simpl.
  rewrite (Hwf k g' Hkv). eauto.
Qed.

(** With the group dictionary keyed by group name, a replica entry whose
    group is not registered never reaches the warning: it is skipped, and
    neither a [BlockReplica] nor a log record comes of it. *)
Lemma unregistered_group_skipped (fnmatch : string -> string -> bool)
    (sites : gmap string Site) (groups : gmap string Group) (group_filt : string)
    (dataset : Dataset) (block : Block) (st : pass2_state) (entry : replica_entry)
    (gname : string) :
  map_Forall (fun k g => group_name g = k) groups ->
  re_group entry = Some gname ->
  groups !! gname = None ->
  process_replica_entry sites groups (gname_list_of fnmatch groups group_filt)
    dataset block st entry = inr st.
Proof.
  intros Hwf Hentry Hnone. apply process_replica_entry_not_listed.
  rewrite Hentry. simpl. apply bool_decide_eq_false_2. intros Hin.
  apply (gname_list_of_registered _ _ _ _ Hwf) in Hin as [g Hg]. congruence.
Qed.

(** C3, as the specification words it, fails: the replica catalogue
    reports, for block [b1] of [/D/x/y], one replica at [T2_A] owned by
    group ['Unknown'], and the local groups are [AnalysisOps] only, with the
    group filter ['*'].  The entry is skipped: the pass builds no
    [DatasetReplica], hence no [BlockReplica], and logs no warning, whereas
    the same entry with the registered group yields a [BlockReplica]. *)
Theorem unknown_group_replica_dropped :
  let gname_list := gname_list_of any_name sample_groups "*" in
  gname_list = ["AnalysisOps"] /\
  process_replica_entries sample_sites sample_groups gname_list
    dataset_D block_b1 (mkPass2 [] []) [entry_unknown_group]
    = inr (mkPass2 [] []) /\
  construct_replicas sample_sites sample_groups gname_list
    [dataset_D] [block_b1] 0 0 [] []
    [mkDatasetEntry "/D/x/y"
       (Some [mkBlockEntry "/D/x/y#b1" 100 1 [entry_unknown_group]])]
    = inr ([], []) /\
  (exists st,
      process_replica_entries sample_sites sample_groups gname_list
        dataset_D block_b1 (mkPass2 [] []) [entry_known_group] = inr st /\
      built_block_replicas st
        = [mkBlockReplica block_b1 "T2_A" (Some AnalysisOps) true false 100]).
Proof.
  split_and!.
  - by vm_compute.
  - by vm_compute.
  - by vm_compute.
  - eexists. split; by vm_compute.
Qed.

(** ** Splitting the query *)

Lemma chunk_size_of_bounds (quota : Z) :
  500 <= quota -> 1 <= chunk_size_of quota <= 12.
Proof.
  intros Hq. unfold chunk_size_of.
  assert (H5 : 5 <= quota / 100) by (apply Z.div_le_lower_bound; lia).
  assert (H0 : 0 <= 62 / (quota / 100)) by (apply Z.div_pos; lia).
  assert (H12 : 62 / (quota / 100) <= 62 / 5) by (apply Z.div_le_compat_l; lia).
  change (62 / 5) with 12 in H12. lia.
Qed.

(** The chunks of the alphabet for a chunk size between 1 and 12: put one
    after the other they give the 62 characters back, none is empty or longer
    than the chunk size, and all of them except the last have the chunk size
    exactly. *)
Definition chunks_of_alphabet (chunk_size : nat) (cs : list string) : Prop :=
  String.concat "" cs = characters /\
  Forall (fun c => (1 <= String.length c <= chunk_size)%nat) cs /\
  Forall (fun c => String.length c = chunk_size) (removelast cs) /\
  length cs = ((62 + chunk_size - 1) / chunk_size)%nat.

Lemma charsets_chunks (chunk_size : nat) :
  (1 <= chunk_size <= 12)%nat -> chunks_of_alphabet chunk_size (charsets chunk_size).
Proof.
  intros [H1 H12].
  do 13 (destruct chunk_size as [|chunk_size];
         [try lia;
          try (split_and!; [reflexivity | vm_compute; repeat constructor
                           | vm_compute; repeat constructor | reflexivity])|]).
  lia.
Qed.

(** C4, as the code has it.  With an unrestricted dataset filter the items
    are the sites' items one after the other, run with [min(64, len(items))]
    threads; a site whose total quota is below 500 contributes the single
    item ['/*/*/*'], any other site one item per chunk of the alphabet
    [characters], where with [chunk_size = max(62 / (total_quota / 100), 1)]
    the chunks partition the 62 characters in order, every chunk but the
    last has exactly [chunk_size] characters and the last one between 1 and
    [chunk_size].  With a restricted filter [exec_get] runs once, for one
    request. *)
Theorem replica_queries_chunking (all_sites : list Site) (gname_list : list string)
    (dataset_filt : string) :
  (unrestricted dataset_filt = true ->
     let items := concat (map (site_items gname_list) all_sites) in
     replica_queries all_sites gname_list dataset_filt
       = ParallelExec items (Z.min 64 (Z.of_nat (length items))) /\
     forall site, site ∈ all_sites ->
       (total_quota site < 500 ->
          site_items gname_list site = [([site], gname_list, ["/*/*/*"])]) /\
       (500 <= total_quota site ->
          let chunk_size := Z.to_nat (chunk_size_of (total_quota site)) in
          site_items gname_list site
            = map (fun charset =>
                     ([site], gname_list,
                      map dname_of (String.list_ascii_of_string charset)))
                  (charsets chunk_size) /\
          chunks_of_alphabet chunk_size (charsets chunk_size))) /\
  (unrestricted dataset_filt = false ->
     replica_queries all_sites gname_list dataset_filt
       = ExecGet (all_sites, gname_list, [dataset_filt]) /\
     num_requests (replica_queries all_sites gname_list dataset_filt) = 1%nat).
Proof.
  split.
  - intros Hfilt. split.
    + unfold replica_queries. by rewrite Hfilt.
    + intros site _. unfold site_items. split.
      * intros Hq. destruct (Z.leb_spec 500 (total_quota site)); [lia|done].
      * intros Hq. destruct (Z.leb_spec 500 (total_quota site)); [|lia].
        split; [done|]. apply charsets_chunks.
        pose proof (chunk_size_of_bounds _ Hq). lia.
  - intros Hfilt. unfold replica_queries. by rewrite Hfilt.
Qed.

Lemma replica_queries_chunking_witness :
  (let items := concat (map (site_items ["AnalysisOps"]) [T2_A]) in
   replica_queries [T2_A] ["AnalysisOps"] "/*/*/*"
     = ParallelExec items (Z.min 64 (Z.of_nat (length items))) /\
   chunks_of_alphabet 12 (charsets 12)) /\
  replica_queries [T2_A] ["AnalysisOps"] "/D/x/y"
    = ExecGet ([T2_A], ["AnalysisOps"], ["/D/x/y"]).
Proof.
  pose proof (replica_queries_chunking [T2_A] ["AnalysisOps"] "/*/*/*") as [Hu _].
  pose proof (replica_queries_chunking [T2_A] ["AnalysisOps"] "/D/x/y") as [_ Hr].
  specialize (Hu eq_refl). destruct Hu as [Hitems Hsites].
  destruct (Hsites T2_A ltac:(by left)) as [_ Hhigh].
  specialize (Hhigh ltac:(vm_compute; discriminate)).
  split; [split|].
  - exact Hitems.
  - exact (proj2 Hhigh).
  - exact (proj1 (Hr eq_refl)).
Defined.

(** C4, as the specification words it, fails: a site with a total quota of
    500 is split into six chunks, and the last one has two characters, not
    [max(62 / (500 / 100), 1) = 12]. *)
Lemma chunks_not_all_of_chunk_size :
  chunk_size_of (total_quota T2_A) = 12 /\
  exists items,
    replica_queries [T2_A] ["AnalysisOps"] "/*/*/*" = ParallelExec items 6 /\
    last items = Some ([T2_A], ["AnalysisOps"], ["/8*/*/*"; "/9*/*/*"]) /\
    ~ Forall (fun it : item => Z.of_nat (length (snd it)) = chunk_size_of (total_quota T2_A))
        items.
Proof.
  split; [reflexivity|]. eexists. split; [by vm_compute|]. split; [reflexivity|].
  intros Hall. rewrite Forall_forall in Hall.
  specialize (Hall ([T2_A], ["AnalysisOps"], ["/8*/*/*"; "/9*/*/*"])).
  assert (Hin : ([T2_A], ["AnalysisOps"], ["/8*/*/*"; "/9*/*/*"])
                  ∈ concat (map (site_items ["AnalysisOps"]) [T2_A])).
  { vm_compute. do 5 right. left. }
  specialize (Hall Hin). vm_compute in Hall. discriminate Hall.
Qed.

(** ** Tape copies *)

Section TapeCopiesFacts.
Variable translate_name : string -> string.
Variable blockreplicasummary : list (string * string) -> list string.

Local Abbreviation found_of := (found_of translate_name).
Local Abbreviation record_entry := (record_entry translate_name).
Local Abbreviation run_ontape_query :=
  (run_ontape_query translate_name blockreplicasummary).

Lemma dd_get_empty (n : string) : dd_get ∅ n = [].
Proof. unfold dd_get. by rewrite lookup_empty. Qed.

Lemma found_of_app (l1 l2 : list string) (n : string) :
  found_of (l1 ++ l2) n = found_of l1 n ++ found_of l2 n.
Proof. unfold PhEDEx.found_of. by rewrite filter_app, map_app. Qed.

Lemma dd_get_record_entry (m : gmap string (list string)) (name n : string) :
  dd_get (record_entry m name) n = dd_get m n ++ found_of [name] n.
Proof.
  unfold PhEDEx.record_entry, PhEDEx.found_of, dd_get.
  rewrite filter_cons, filter_nil.
  destruct (decide (ds_part name = n)) as [->|Hne].
  - by rewrite lookup_insert_eq.
  - rewrite lookup_insert_ne by done. simpl. by rewrite app_nil_r.
Qed.

Lemma dd_get_record_entries (source : list string) (m : gmap string (list string))
    (n : string) :
  dd_get (foldl record_entry m source) n = dd_get m n ++ found_of source n.
Proof.
  revert m. induction source as [|name source IH]; intros m; simpl.
  - by rewrite app_nil_r.
  - rewrite IH, dd_get_record_entry, <- app_assoc.
    by rewrite <- found_of_app.
Qed.

Lemma dd_get_extend_entries (acc on_tape : gmap string (list string)) (n : string) :
  dd_get (map_fold extend_entry acc on_tape) n = dd_get acc n ++ dd_get on_tape n.
Proof.
  apply (map_fold_weak_ind
           (fun r m => dd_get r n = dd_get acc n ++ dd_get m n)).
  - by rewrite dd_get_empty, app_nil_r.
  - intros ds_name block_names m r Hnone IH. unfold extend_entry, dd_get at 1 4.
    destruct (decide (ds_name = n)) as [->|Hne].
    + rewrite !lookup_insert_eq. simpl. rewrite IH.
      unfold dd_get at 2. rewrite Hnone. simpl. by rewrite app_nil_r.
    + rewrite !lookup_insert_ne by done. exact IH.
Qed.

Lemma dd_get_run_ontape_query (acc : gmap string (list string))
    (chunk : list Dataset) (n : string) :
  dd_get (run_ontape_query acc chunk) n
    = dd_get acc n ++ found_of (blockreplicasummary (ontape_options chunk)) n.
Proof.
  unfold PhEDEx.run_ontape_query.
  rewrite dd_get_extend_entries, dd_get_record_entries.
  by rewrite dd_get_empty.
Qed.

Lemma dd_get_all_queries (chunks : list (list Dataset))
    (acc : gmap string (list string)) (n : string) :
  dd_get (foldl run_ontape_query acc chunks) n
    = dd_get acc n
      ++ found_of (concat (map (fun chunk => blockreplicasummary (ontape_options chunk))
                               chunks)) n.
Proof.
  revert acc. induction chunks as [|chunk chunks IH]; intros acc; simpl.
  - unfold PhEDEx.found_of. rewrite filter_nil. simpl. by rewrite app_nil_r.
  - by rewrite IH, dd_get_run_ontape_query, found_of_app, app_assoc.
Qed.

(** The chunks hold the datasets that are not skipped, each once, in the
    order of the dictionary. *)
Lemma fill_chunks_concat (chunk_size : nat) (ds : list Dataset)
    (closed : list (list Dataset)) (current : list Dataset) :
  concat (fst (fill_chunks chunk_size ds closed current))
    ++ snd (fill_chunks chunk_size ds closed current)
  = concat closed ++ current ++ filter (fun d => skipped d = false) ds.
Proof.
  revert closed current.
  induction ds as [|d rest IH]; intros closed current; simpl.
  - by rewrite filter_nil, app_nil_r.
  - rewrite filter_cons. destruct (skipped d) eqn:Hd.
    + rewrite IH. by case_decide.
    + case_decide; [|done].
      destruct (Nat.eqb _ _); rewrite IH.
      * rewrite concat_app. simpl. by rewrite !app_nil_r, <- !app_assoc.
      * by rewrite <- !app_assoc.
Qed.

Lemma dataset_chunks_concat (values : list Dataset) :
  concat (dataset_chunks values) = filter (fun d => skipped d = false) values.
Proof.
  unfold dataset_chunks.
  pose proof (fill_chunks_concat 1000 values [] []) as H.
  destruct (fill_chunks 1000 values [] []) as [closed current]. simpl in H.
  destruct current as [|d current]; simpl.
  - by rewrite app_nil_r in H.
  - rewrite concat_app. simpl. by rewrite app_nil_r.
Qed.

End TapeCopiesFacts.

(** C5, as the code has it.  A dataset that is already on tape or is
    [IGNORED] is left as it is.  Any other dataset keeps its name, status and
    blocks, and its [on_tape] becomes true exactly when the set of its block
    names is equal to the set of block names the [blockreplicasummary]
    queries returned for it; the queries name, between them, every dataset
    that is not skipped. *)
Theorem find_tape_copies_on_tape (translate_name : string -> string)
    (blockreplicasummary : list (string * string) -> list string)
    (datasets : list (string * Dataset)) (i : nat) (key : string) (d : Dataset) :
  datasets !! i = Some (key, d) ->
  concat (dataset_chunks (map snd datasets))
    = filter (fun d => skipped d = false) (map snd datasets) /\
  (skipped d = true ->
     find_tape_copies translate_name blockreplicasummary datasets !! i
       = Some (key, d)) /\
  (skipped d = false ->
     exists d',
       find_tape_copies translate_name blockreplicasummary datasets !! i
         = Some (key, d') /\
       dataset_name d' = dataset_name d /\
       dataset_status d' = dataset_status d /\
       blocks d' = blocks d /\
       (on_tape d' = true <->
        (list_to_set (map block_name (blocks d)) : gset string)
          = blocks_found translate_name blockreplicasummary datasets
              (dataset_name d))).
Proof.
  intros Hi. split; [apply dataset_chunks_concat|].
  unfold find_tape_copies. rewrite list_lookup_fmap, Hi. simpl. split.
  - intros Hs. by rewrite Hs.
  - intros Hs. rewrite Hs. eexists. split; [reflexivity|]. simpl.
    split_and!; try done.
    rewrite dd_get_all_queries, dd_get_empty. simpl.
    unfold blocks_found, entries_found.
    split; [apply bool_decide_eq_true_1 | apply bool_decide_eq_true_2].
Qed.

(** A catalogue that reports both blocks of [/D/x/y] on tape, for a dataset
    known with block [b1] only. *)
Definition dataset_D_b1 : Dataset := mkDataset "/D/x/y" STAT_VALID false [block_b1].
Definition dataset_D_b1_b2 : Dataset := dataset_D.
Definition summary_b1_b2 (options : list (string * string)) : list string :=
  ["/D/x/y#b1"; "/D/x/y#b2"].

Lemma find_tape_copies_on_tape_witness :
  exists d',
    find_tape_copies id summary_b1_b2 [("/D/x/y", dataset_D_b1_b2)] !! 0%nat
      = Some ("/D/x/y", d') /\
    dataset_name d' = "/D/x/y" /\
    dataset_status d' = STAT_VALID /\
    blocks d' = [block_b1; block_b2] /\
    (on_tape d' = true <->
     (list_to_set (map block_name [block_b1; block_b2]) : gset string)
       = blocks_found id summary_b1_b2 [("/D/x/y", dataset_D_b1_b2)] "/D/x/y").
Proof.
  exact (proj2 (proj2 (find_tape_copies_on_tape id summary_b1_b2
                         [("/D/x/y", dataset_D_b1_b2)] 0 "/D/x/y" dataset_D_b1_b2
                         eq_refl)) eq_refl).
Defined.

(** C5, as the specification words it, fails: every block of the dataset was
    found with a complete custodial copy on tape, together with a block the
    inventory does not know, and the dataset is not marked as on tape. *)
Lemma on_tape_not_by_inclusion :
  (list_to_set (map block_name (blocks dataset_D_b1)) : gset string)
    ⊆ blocks_found id summary_b1_b2 [("/D/x/y", dataset_D_b1)] "/D/x/y" /\
  find_tape_copies id summary_b1_b2 [("/D/x/y", dataset_D_b1)]
    = [("/D/x/y", dataset_D_b1)] /\
  on_tape dataset_D_b1 = false.
Proof.
  split_and!.
  - assert (H : found_of id (entries_found summary_b1_b2 [("/D/x/y", dataset_D_b1)])
                  "/D/x/y" = ["b1"; "b2"]) by (by vm_compute).
    unfold blocks_found. rewrite H. simpl. set_solver.
  - by vm_compute.
  - reflexivity.
Qed.

End PhEDEx.

(* ===================================================================== *)
(** * lib/common/interface/phedexdbsssb.py: the owners of the replicas    *)
(* ===================================================================== *)

Module ReplicaGroups.
Import PhEDEx.

(** A block replica owned by a registered group whose name is in
    [gname_list]. *)
Definition owned_by_listed (groups : gmap string Group) (gname_list : list string)
    (br : BlockReplica) : Prop :=
  exists gname g,
    gname ∈ gname_list /\ groups !! gname = Some g /\ br_group br = Some g.

(** A dataset replica as the second pass leaves it, for the merge of the
    group information: its group is not set, and it has block replicas,
    each owned by a registered group of the list. *)
Definition owned_replica (groups : gmap string Group) (gname_list : list string)
    (dr : DatasetReplica) : Prop :=
  group dr = None /\
  block_replicas dr <> [] /\
  Forall (owned_by_listed groups gname_list) (block_replicas dr).

(** [groups.items()] filtered by the group filter, under a dictionary keyed
    by group name: the names of the list are registered and match the
    filter. *)
Lemma gname_list_of_listed (fnmatch : string -> string -> bool)
    (groups : gmap string Group) (group_filt gname : string) :
  map_Forall (fun k g => group_name g = k) groups ->
  gname ∈ gname_list_of fnmatch groups group_filt ->
  fnmatch gname group_filt = true /\
  exists g, groups !! gname = Some g /\ group_name g = gname.
Proof.
  intros Hwf Hin. unfold gname_list_of, all_groups in Hin.
  apply list_elem_of_fmap in Hin as (g & -> & Hg).
  apply list_elem_of_fmap in Hg as ([k g'] & -> & Hkv).
  apply list_elem_of_filter in Hkv as [Hmatch Hkv].
  apply elem_of_map_to_list in Hkv. simpl in *.
  rewrite (Hwf k g' Hkv). eauto.
Qed.

Lemma group_in_listed (g : option string) (gname_list : list string) :
  group_in g gname_list = true -> exists gname, g = Some gname /\ gname ∈ gname_list.
Proof.
  destruct g as [gname|]; simpl; [|done].
  intros H. apply bool_decide_eq_true in H. eauto.
Qed.

Lemma lookup_replica_found (site : string) (drs : list DatasetReplica)
    (dr : DatasetReplica) :
  lookup_replica site drs = Some dr -> dr ∈ drs.
Proof.
  induction drs as [|d drs IH]; simpl; [done|].
  destruct (String.eqb (dr_site d) site).
  - intros [= <-]. by left.
  - intros H. right. by apply IH.
Qed.

Lemma update_replica_all (P : DatasetReplica -> Prop) (dr' : DatasetReplica)
    (drs : list DatasetReplica) :
  P dr' -> Forall P drs -> Forall P (update_replica dr' drs).
Proof.
  intros Hdr'. induction 1 as [|d drs Hd Hall IH]; simpl; [constructor|].
  destruct (String.eqb (dr_site d) (dr_site dr')); by constructor.
Qed.

Lemma update_replica_new (dr dr' : DatasetReplica) (drs : list DatasetReplica) :
  lookup_replica (dr_site dr') drs = None ->
  dr_site dr = dr_site dr' ->
  update_replica dr' (drs ++ [dr]) = drs ++ [dr'].
Proof.
  intros Hnone Hsite. induction drs as [|d drs IH]; simpl in *.
  - by rewrite Hsite, String.eqb_refl.
  - destruct (String.eqb (dr_site d) (dr_site dr')); [done|]. by rewrite IH.
Qed.

Section SecondPass.

Variable sites : gmap string Site.
Variable groups : gmap string Group.
Variable gname_list : list string.

(** Every name of the list is the key of a registered group. *)
Hypothesis listed_registered :
  forall gname, gname ∈ gname_list -> is_Some (groups !! gname).

Lemma process_replica_entry_owned (dataset : Dataset) (block : Block)
    (st st' : pass2_state) (entry : replica_entry) :
  Forall (owned_replica groups gname_list) (dataset_replicas st) ->
  process_replica_entry sites groups gname_list dataset block st entry = inr st' ->
  Forall (owned_replica groups gname_list) (dataset_replicas st') /\
  warnings st' = warnings st.
Proof.
  intros Hall. unfold process_replica_entry.
  destruct (group_in (re_group entry) gname_list) eqn:Hlisted; simpl;
    [|by intros [= <-]].
  apply group_in_listed in Hlisted as (gname & -> & Hgname).
  destruct (listed_registered gname Hgname) as [g Hg]. rewrite Hg.
  destruct (sites !! re_node entry) as [site|]; [|done].
  assert (Hbr : forall complete custodial,
             owned_by_listed groups gname_list
               (mkBlockReplica block (site_name site) (Some g) complete custodial
                  (re_bytes entry))).
  { intros complete custodial. exists gname, g. by split_and!. }
  destruct (lookup_replica (site_name site) (dataset_replicas st)) as [dr|] eqn:Hlookup.
  - apply lookup_replica_found in Hlookup.
    rewrite Forall_forall in Hall. destruct (Hall dr Hlookup) as (Hgroup & _ & Hbrs).
    intros [= <-]. simpl. split; [|done].
    apply update_replica_all; [|by apply Forall_forall].
    split_and!; simpl; [done| |].
    + by destruct (block_replicas dr).
    + apply Forall_app. split; [done|]. apply Forall_singleton. apply Hbr.
  - intros [= <-]. simpl. split; [|done].
    rewrite update_replica_new by done.
    apply Forall_app. split; [done|]. apply Forall_singleton.
    split_and!; simpl; [done|done|]. apply Forall_singleton. apply Hbr.
Qed.

Lemma process_replica_entries_owned (dataset : Dataset) (block : Block)
    (entries : list replica_entry) (st st' : pass2_state) :
  Forall (owned_replica groups gname_list) (dataset_replicas st) ->
  process_replica_entries sites groups gname_list dataset block st entries = inr st' ->
  Forall (owned_replica groups gname_list) (dataset_replicas st') /\
  warnings st' = warnings st.
Proof.
  revert st. induction entries as [|entry entries IH]; intros st Hall; simpl.
  - by intros [= <-].
  - destruct (process_replica_entry _ _ _ _ _ st entry) as [e|st1] eqn:H1; [done|].
    destruct (process_replica_entry_owned _ _ _ _ _ Hall H1) as [Hall1 Hw1].
    intros Hrest. destruct (IH st1 Hall1 Hrest) as [Hall' Hw'].
    split; [done|congruence].
Qed.

Lemma process_block_entries_owned (dataset : Dataset) (block_array : list Block)
    (entries : list block_entry) (barray_entry n : nat) (st st' : pass2_state) :
  Forall (owned_replica groups gname_list) (dataset_replicas st) ->
  process_block_entries sites groups gname_list dataset block_array barray_entry
    st entries = inr (st', n) ->
  Forall (owned_replica groups gname_list) (dataset_replicas st') /\
  warnings st' = warnings st.
Proof.
  revert barray_entry st.
  induction entries as [|entry entries IH]; intros barray_entry st Hall; simpl.
  - by intros [= <- _].
  - destruct (block_array !! barray_entry) as [block|]; [|done].
    destruct (process_replica_entries _ _ _ _ _ st _) as [e|st1] eqn:H1; [done|].
    destruct (process_replica_entries_owned _ _ _ _ _ Hall H1) as [Hall1 Hw1].
    intros Hrest. destruct (IH _ st1 Hall1 Hrest) as [Hall' Hw'].
    split; [done|congruence].
Qed.

Lemma construct_replicas_owned (dataset_array : list Dataset)
    (block_array : list Block) (source : list dataset_entry)
    (darray_entry barray_entry : nat)
    (new_replicas out : list DatasetReplica) (logged logged' : list log_record) :
  Forall (owned_replica groups gname_list) new_replicas ->
  construct_replicas sites groups gname_list dataset_array block_array
    darray_entry barray_entry new_replicas logged source = inr (out, logged') ->
  Forall (owned_replica groups gname_list) out /\ logged' = logged.
Proof.
  revert darray_entry barray_entry new_replicas logged.
  induction source as [|entry source IH];
    intros darray_entry barray_entry new_replicas logged Hnew; simpl.
  - by intros [= <- <-].
  - destruct (de_block entry) as [block_entries|]; [|by apply IH].
    destruct (dataset_array !! darray_entry) as [dataset|]; [|done].
    destruct (process_block_entries _ _ _ _ _ _ _ _) as [e|[st n]] eqn:Hblocks; [done|].
    apply process_block_entries_owned in Hblocks as [Hall Hw]; [|constructor].
    simpl in Hw. intros Hrest.
    assert (Hnew' : Forall (owned_replica groups gname_list)
                      (new_replicas ++ dataset_replicas st))
      by (apply Forall_app; by split).
    destruct (IH _ _ _ _ Hnew' Hrest) as [Hout Hlogged].
    split; [done|congruence].
Qed.

End SecondPass.








(** C3.  The groups and the group filter limit what the replica-catalogue
    pass records (with the group dictionary keyed by group name).  A
    replica entry whose group is null, is not a registered group or does
    not match the group filter is skipped: the state of the pass stays as it
    was, so no [BlockReplica] is made of it and no warning is logged.
    Over a whole answer, the pass logs nothing, and every [BlockReplica]
    it builds is owned by a registered group that matches the filter,
    never by the null group. *)
Theorem replicas_limited_to_listed_groups (fnmatch : string -> string -> bool)
    (sites : gmap string Site) (groups : gmap string Group) (group_filt : string) :
  map_Forall (fun k g => group_name g = k) groups ->
  let gname_list := gname_list_of fnmatch groups group_filt in
  (forall dataset block st entry,
      match re_group entry with
      | Some gname => groups !! gname = None \/ fnmatch gname group_filt = false
      | None => True
      end ->
      process_replica_entry sites groups gname_list dataset block st entry = inr st) /\
  (forall dataset_array block_array source new_replicas logged,
      construct_replicas sites groups gname_list dataset_array block_array 0 0 [] []
        source = inr (new_replicas, logged) ->
      logged = [] /\
      Forall (fun br =>
                exists g, br_group br = Some g /\
                          groups !! group_name g = Some g /\
                          fnmatch (group_name g) group_filt = true)
        (concat (map block_replicas new_replicas))).
Proof.
  intros Hwf gname_list. split.
  - intros dataset block st entry Hentry.
    apply process_replica_entry_not_listed.
    destruct (re_group entry) as [gname|]; [|done].
    simpl. apply bool_decide_eq_false_2. intros Hin.
    apply (gname_list_of_listed _ _ _ _ Hwf) in Hin as (Hmatch & g & Hg & _).
    destruct Hentry; congruence.
  - intros dataset_array block_array source new_replicas logged Hpass.
    destruct (construct_replicas_owned sites groups gname_list
                (fun gname Hin => gname_list_of_registered _ _ _ _ Hwf Hin)
                dataset_array block_array source 0 0 [] new_replicas [] logged
                ltac:(constructor) Hpass) as [Hall ->].
    split; [done|].
    apply Forall_concat, Forall_fmap. eapply Forall_impl; [exact Hall|].
    intros dr (_ & _ & Hbrs). simpl. eapply Forall_impl; [exact Hbrs|].
    intros br (gname & g & Hin & Hg & Hbr).
    apply (gname_list_of_listed _ _ _ _ Hwf) in Hin as (Hmatch & g' & Hg' & Hname).
    assert (g' = g) as -> by congruence.
    exists g. rewrite Hname. by split_and!.
Qed.

Lemma replicas_limited_to_listed_groups_witness :
  let gname_list := gname_list_of any_name sample_groups "*" in
  (forall dataset block st entry,
      match re_group entry with
      | Some gname => sample_groups !! gname = None \/ any_name gname "*" = false
      | None => True
      end ->
      process_replica_entry sample_sites sample_groups gname_list dataset block st entry
      = inr st) /\
  (forall dataset_array block_array source new_replicas logged,
      construct_replicas sample_sites sample_groups gname_list dataset_array
        block_array 0 0 [] [] source = inr (new_replicas, logged) ->
      logged = [] /\
      Forall (fun br =>
                exists g, br_group br = Some g /\
                          sample_groups !! group_name g = Some g /\
                          any_name (group_name g) "*" = true)
        (concat (map block_replicas new_replicas))).
Proof.
  apply (replicas_limited_to_listed_groups any_name sample_sites sample_groups "*").
  apply map_Forall_insert_2; [reflexivity|]. apply map_Forall_empty.
Defined.

End ReplicaGroups.

(* ===================================================================== *)
(** * lib/core/persistency/impl/mysqlstore.py                             *)
(* ===================================================================== *)

Module MySQLStore.

(** ** The objects of [dynamo.dataformat] the store reads and writes *)

Record Dataset := mkDataset { dataset_id : Z; dataset_name : string }.

Record Block := mkBlock {
  block_id : Z;
  block_dataset : Dataset;
  real_name : string;
  block_size : Z;
  block_num_files : Z;
  block_is_open : bool;
  block_last_update : Z
}.

Record File := mkFile {
  file_id : Z;
  file_block : Block;
  file_size : Z;
  lfn : string
}.

Record Site := mkSite { site_id : Z; site_name : string }.

Record Group := mkGroup { group_id : Z; group_name : string }.

Record BlockReplica := mkBlockReplica {
  br_block : Block;
  br_site : Site;
  br_group : Group;
  br_is_complete : bool;
  br_is_custodial : bool;
  br_size : Z;
  br_last_update : Z
}.

Record DatasetReplica := mkDatasetReplica {
  dr_dataset : Dataset;
  dr_site : Site;
  dr_block_replicas : list BlockReplica
}.

#[global] Instance Dataset_eq_dec : EqDecision Dataset.
Proof. solve_decision. Defined.
#[global] Instance Site_eq_dec : EqDecision Site.
Proof. solve_decision. Defined.

(** ** Statements sent through [self._mysql.query] *)

(** Values bound to the [%s] placeholders; [VTime] is a timestamp formatted
    with [time.strftime('%Y-%m-%d %H:%M:%S', time.localtime(t))]. *)
Inductive value :=
| VInt (z : Z)
| VStr (s : string)
| VBool (b : bool)
| VTime (epoch : Z).

(** [InsertUpdate t fields values] is
    [INSERT INTO t (fields) VALUES (values) ON DUPLICATE KEY UPDATE f=VALUES(f), ...],
    as [_insert_update] builds it; [DeleteWhere t [(f1, v1); ...]] is
    [DELETE FROM t WHERE f1 = v1 AND ...]. *)
Inductive statement :=
| InsertUpdate (table : string) (fields : list string) (values : list value)
| DeleteWhere (table : string) (conditions : list (string * value)).

Section Mutators.

(** The database behind [self._mysql]: its state, and what running a
    statement does to it and returns (for an insertion, the id of the new
    row). *)
Context {DB : Type}.
Variable mysql_query : statement -> DB -> DB * Z.

(** The database together with the statements issued so far. *)
Record store := mkStore { db : DB; issued : list statement }.

Definition query (q : statement) (s : store) : store * Z :=
  let '(db', result) := mysql_query q (db s) in
  (mkStore db' (issued s ++ [q]), result).

Definition _insert_update (table : string) (fields : list string)
    (values : list value) (s : store) : store * Z :=
  query (InsertUpdate table fields values) s.

(** [save_block]; the block comes back with its [id] set on a new insert. *)
Definition save_block (block : Block) (s : store) : store * Block :=
  let dataset_id := dataset_id (block_dataset block) in
  if dataset_id =? 0 then (s, block)
  else
    let fields := ["dataset_id"; "name"; "size"; "num_files"; "is_open"; "last_update"] in
    let '(s', new_id) :=
      _insert_update "blocks" fields
        [VInt dataset_id; VStr (real_name block); VInt (block_size block);
         VInt (block_num_files block); VBool (block_is_open block);
         VTime (block_last_update block)] s in
    if negb (new_id =? 0) then
      (* new insert *)
      (s', mkBlock new_id (block_dataset block) (real_name block) (block_size block)
             (block_num_files block) (block_is_open block) (block_last_update block))
    else (s', block).

(** [save_file] *)
Definition save_file (lfile : File) (s : store) : store * File :=
  let dataset_id := dataset_id (block_dataset (file_block lfile)) in
  if dataset_id =? 0 then (s, lfile)
  else
    let block_id := block_id (file_block lfile) in
    if block_id =? 0 then (s, lfile)
    else
      let fields := ["block_id"; "dataset_id"; "size"; "name"] in
      let '(s', new_id) :=
        _insert_update "files" fields
          [VInt block_id; VInt dataset_id; VInt (file_size lfile); VStr (lfn lfile)] s in
      if negb (new_id =? 0) then
        (s', mkFile new_id (file_block lfile) (file_size lfile) (lfn lfile))
      else (s', lfile).

(** [save_blockreplica] *)
Definition save_blockreplica (block_replica : BlockReplica) (s : store) : store :=
  let block_id := block_id (br_block block_replica) in
  if block_id =? 0 then s
  else
    let site_id := site_id (br_site block_replica) in
    if site_id =? 0 then s
    else
      let fields := ["block_id"; "site_id"; "group_id"; "is_complete";
                     "is_custodial"; "last_update"] in
      let s1 :=
        fst (_insert_update "block_replicas" fields
               [VInt block_id; VInt site_id; VInt (group_id (br_group block_replica));
                VBool (br_is_complete block_replica);
                VBool (br_is_custodial block_replica);
                VTime (br_last_update block_replica)] s) in
      if negb (br_size block_replica =? block_size (br_block block_replica)) then
        fst (_insert_update "block_replica_sizes" ["block_id"; "site_id"; "size"]
               [VInt block_id; VInt site_id; VInt (br_size block_replica)] s1)
      else
        fst (query (DeleteWhere "block_replica_sizes"
                      [("block_id", VInt block_id); ("site_id", VInt site_id)]) s1).

(** [save_datasetreplica] *)
Definition save_datasetreplica (dataset_replica : DatasetReplica) (s : store) : store :=
  let dataset_id := dataset_id (dr_dataset dataset_replica) in
  if dataset_id =? 0 then s
  else
    let site_id := site_id (dr_site dataset_replica) in
    if site_id =? 0 then s
    else
      fst (_insert_update "dataset_replicas" ["dataset_id"; "site_id"]
             [VInt dataset_id; VInt site_id] s).

(** [delete_file]: no id is looked at. *)
Definition delete_file (lfile : File) (s : store) : store :=
  fst (query (DeleteWhere "files" [("name", VStr (lfn lfile))]) s).

End Mutators.

Arguments store : clear implicits.
Arguments mkStore {DB}.

(** ** [_load_replicas] *)

(** A row of the SELECT.  The columns taken from [block_replicas] come from
    a LEFT JOIN on its key: they are present together or NULL together;
    [brs.size] comes from a LEFT JOIN of its own. *)
Record replica_columns := mkColumns {
  col_block_id : Z;
  col_group_id : Z;
  col_is_complete : Z;
  col_is_custodial : Z;
  col_last_update : Z
}.

Record replica_row := mkRow {
  row_dataset_id : Z;
  row_site_id : Z;
  row_replica : option replica_columns;
  row_size : option Z
}.

(** The local variables of the loop; the ones that are assigned inside the
    loop only are unbound ([None]) until then.  [ls_linked] lists the dataset
    replicas that were added to their dataset and site. *)
Record load_state := mkLoad {
  ls_dataset_id : Z;
  ls_site_id : Z;
  ls_dataset : option Dataset;
  ls_id_block_map : option (gmap Z Block);
  ls_site : option Site;
  ls_dataset_replica : option DatasetReplica;
  ls_linked : list DatasetReplica
}.

Section Load.

Variable id_group_map : gmap Z Group.
Variable id_site_map : gmap Z Site.
Variable id_dataset_map : gmap Z Dataset.
Variable id_block_maps : gmap Z (gmap Z Block).

(** [BlockReplica(block, site, group = group, ..., size = block.size if
    b_size is None else b_size, ...)] *)
Definition make_block_replica (block : Block) (site : Site) (grp : Group)
    (cols : replica_columns) (b_size : option Z) : BlockReplica :=
  mkBlockReplica block site grp
    (col_is_complete cols =? 1) (col_is_custodial cols =? 1)
    (match b_size with None => block_size block | Some size => size end)
    (col_last_update cols).

(** [if dataset_id != _dataset_id: ...]; [None] is a [KeyError] of one of
    the id maps. *)
Definition enter_dataset (st : load_state) (row : replica_row) : option load_state :=
  if bool_decide (row_dataset_id row <> ls_dataset_id st) then
    match id_dataset_map !! row_dataset_id row, id_block_maps !! row_dataset_id row with
    | Some dataset, Some id_block_map =>
        Some (mkLoad (row_dataset_id row) (ls_site_id st) (Some dataset)
                (Some id_block_map) (ls_site st) (ls_dataset_replica st)
                (ls_linked st))
    | _, _ => None
    end
  else Some st.

(** [if site_id != _site_id: ...] *)
Definition enter_site (st : load_state) (row : replica_row) : option load_state :=
  if bool_decide (row_site_id row <> ls_site_id st) then
    match id_site_map !! row_site_id row with
    | Some site =>
        Some (mkLoad (ls_dataset_id st) (row_site_id row) (ls_dataset st)
                (ls_id_block_map st) (Some site) (ls_dataset_replica st)
                (ls_linked st))
    | None => None
    end
  else Some st.

(** [if dataset_replica is None or dataset is not dataset_replica.dataset or
    site is not dataset_replica.site: ...]: the dataset replica the row
    belongs to, and the replicas linked so far. *)
Definition current_replica (dataset : Dataset) (site : Site) (st : load_state)
    : DatasetReplica * list DatasetReplica :=
  match ls_dataset_replica st with
  | None => (mkDatasetReplica dataset site [], ls_linked st)
  | Some dr =>
      if bool_decide (dataset <> dr_dataset dr \/ site <> dr_site dr) then
        (* the previous dataset replica is complete: add it to its dataset
           and site *)
        (mkDatasetReplica dataset site [], ls_linked st ++ [dr])
      else (dr, ls_linked st)
  end.

(** One turn of the loop over the rows; [None] is a [KeyError] or the use of
    a variable that is not bound yet. *)
Definition load_row (st : load_state) (row : replica_row) : option load_state :=
  match enter_dataset st row with
  | None => None
  | Some st1 =>
      match enter_site st1 row with
      | None => None
      | Some st2 =>
          match ls_dataset st2, ls_site st2 with
          | Some dataset, Some site =>
              let '(dataset_replica, linked) := current_replica dataset site st2 in
              match row_replica row with
              | None =>
                  (* this block replica does not exist *)
                  Some (mkLoad (ls_dataset_id st2) (ls_site_id st2) (ls_dataset st2)
                          (ls_id_block_map st2) (ls_site st2)
                          (Some dataset_replica) linked)
              | Some cols =>
                  match ls_id_block_map st2 with
                  | None => None
                  | Some id_block_map =>
                      match id_block_map !! col_block_id cols,
                            id_group_map !! col_group_id cols with
                      | Some block, Some grp =>
                          let block_replica :=
                            make_block_replica block site grp cols (row_size row) in
                          Some (mkLoad (ls_dataset_id st2) (ls_site_id st2)
                                  (ls_dataset st2) (ls_id_block_map st2) (ls_site st2)
                                  (Some (mkDatasetReplica (dr_dataset dataset_replica)
                                           (dr_site dataset_replica)
                                           (dr_block_replicas dataset_replica
                                              ++ [block_replica])))
                                  linked)
                      | _, _ => None
                      end
                  end
              end
          | _, _ => None
          end
      end
  end.

Fixpoint load_rows (st : load_state) (rows : list replica_row) : option load_state :=
  match rows with
  | [] => Some st
  | row :: rest =>
      match load_row st row with
      | None => None
      | Some st' => load_rows st' rest
      end
  end.

(** [_load_replicas] on the rows of its query: the dataset replicas it adds
    to the inventory, in order. *)
Definition _load_replicas (rows : list replica_row) : option (list DatasetReplica) :=
  match load_rows (mkLoad 0 0 None None None None []) rows with
  | None => None
  | Some st =>
      Some (match ls_dataset_replica st with
            | Some dr => ls_linked st ++ [dr]             (* one last bit *)
            | None => ls_linked st
            end)
  end.

End Load.

(** ** The database *)

Record block_row := mkBlockRow {
  b_id : Z;
  b_dataset_id : Z;
  b_name : string;
  b_size : Z;
  b_num_files : Z;
  b_is_open : bool;
  b_last_update : Z
}.

(** Modelled from the spec: the MySQL server behind [self._mysql], whose
    interface class and schema are not part of the sources.  The tables are
    those of the persistent schema that [_load_replicas] reads:
    [blocks(id, dataset_id, name, size, num_files, is_open, last_update)]
    with an auto-increment [id] and one row per [(dataset_id, name)];
    [dataset_replicas(dataset_id, site_id)], kept in key order;
    [block_replicas(block_id, site_id, group_id, is_complete, is_custodial,
    last_update)] and [block_replica_sizes(block_id, site_id, size)], each
    with one row per [(block_id, site_id)]. *)
Record database := mkDB {
  t_blocks : list block_row;
  t_dataset_replicas : list (Z * Z);
  t_block_replicas : gmap (Z * Z) (Z * bool * bool * Z);
  t_block_replica_sizes : gmap (Z * Z) Z
}.

Definition key_ltb (k k' : Z * Z) : bool :=
  (fst k <? fst k') || ((fst k =? fst k') && (snd k <? snd k')).

Fixpoint insert_key (k : Z * Z) (l : list (Z * Z)) : list (Z * Z) :=
  match l with
  | [] => [k]
  | k' :: rest =>
      if bool_decide (k = k') then l
      else if key_ltb k k' then k :: l
      else k' :: insert_key k rest
  end.

Fixpoint upsert_block (r : block_row) (l : list block_row) : option (list block_row) :=
  match l with
  | [] => None
  | r' :: rest =>
      if (b_dataset_id r' =? b_dataset_id r) && String.eqb (b_name r') (b_name r) then
        Some (mkBlockRow (b_id r') (b_dataset_id r) (b_name r) (b_size r)
                (b_num_files r) (b_is_open r) (b_last_update r) :: rest)
      else
        match upsert_block r rest with
        | Some rest' => Some (r' :: rest')
        | None => None
        end
  end.

(** Modelled from the spec: what the statements of the incremental mutators
    do to these tables.  An insertion on a duplicate key replaces the row;
    the value returned is the id given to a new row of a table with an
    auto-increment id and 0 otherwise.  Statements on the other tables of
    the schema leave the four tables as they are. *)
Definition mysql_exec (q : statement) (d : database) : database * Z :=
  match q with
  | InsertUpdate table fields values =>
      if String.eqb table "block_replica_sizes" then
        match values with
        | [VInt b; VInt s; VInt size] =>
            (mkDB (t_blocks d) (t_dataset_replicas d) (t_block_replicas d)
               (<[(b, s) := size]> (t_block_replica_sizes d)), 0)
        | _ => (d, 0)
        end
      else if String.eqb table "block_replicas" then
        match values with
        | [VInt b; VInt s; VInt g; VBool c; VBool cu; VTime t] =>
            (mkDB (t_blocks d) (t_dataset_replicas d)
               (<[(b, s) := (g, c, cu, t)]> (t_block_replicas d))
               (t_block_replica_sizes d), 0)
        | _ => (d, 0)
        end
      else if String.eqb table "dataset_replicas" then
        match values with
        | [VInt ds; VInt s] =>
            (mkDB (t_blocks d) (insert_key (ds, s) (t_dataset_replicas d))
               (t_block_replicas d) (t_block_replica_sizes d), 0)
        | _ => (d, 0)
        end
      else if String.eqb table "blocks" then
        match values with
        | [VInt ds; VStr name; VInt size; VInt nfiles; VBool open; VTime t] =>
            match upsert_block (mkBlockRow 0 ds name size nfiles open t) (t_blocks d) with
            | Some rows =>
                (mkDB rows (t_dataset_replicas d) (t_block_replicas d)
                   (t_block_replica_sizes d), 0)
            | None =>
                let new_id := 1 + foldr Z.max 0 (map b_id (t_blocks d)) in
                (mkDB (t_blocks d ++ [mkBlockRow new_id ds name size nfiles open t])
                   (t_dataset_replicas d) (t_block_replicas d)
                   (t_block_replica_sizes d), new_id)
            end
        | _ => (d, 0)
        end
      else (d, 0)
  | DeleteWhere table conditions =>
      if String.eqb table "block_replica_sizes" then
        match conditions with
        | [(f1, VInt b); (f2, VInt s)] =>
            if String.eqb f1 "block_id" && String.eqb f2 "site_id" then
              (mkDB (t_blocks d) (t_dataset_replicas d) (t_block_replicas d)
                 (delete (b, s) (t_block_replica_sizes d)), 0)
            else (d, 0)
        | _ => (d, 0)
        end
      else (d, 0)
  end.

(** Modelled from the spec: the rows of the SELECT of [_load_replicas]
    without filters,
    [dataset_replicas AS dr INNER JOIN blocks AS b ON b.dataset_id = dr.dataset_id
     LEFT JOIN block_replicas AS br ON (br.block_id, br.site_id) = (b.id, dr.site_id)
     LEFT JOIN block_replica_sizes AS brs ON (brs.block_id, brs.site_id) = (b.id, dr.site_id)
     ORDER BY dr.dataset_id, dr.site_id]. *)
Definition replicas_query (d : database) : list replica_row :=
  flat_map
    (fun dr : Z * Z =>
       map (fun b =>
              mkRow (fst dr) (snd dr)
                (match t_block_replicas d !! (b_id b, snd dr) with
                 | Some (g, c, cu, t) =>
                     Some (mkColumns (b_id b) g (Z.b2z c) (Z.b2z cu) t)
                 | None => None
                 end)
                (t_block_replica_sizes d !! (b_id b, snd dr)))
           (filter (fun b => b_dataset_id b = fst dr) (t_blocks d)))
    (t_dataset_replicas d).

(** ** Sample store *)

Definition ds1 : Dataset := mkDataset 1 "/D/x/y".
Definition ds_unsaved : Dataset := mkDataset 0 "/N/x/y".
Definition blk1 : Block := mkBlock 7 ds1 "b1" 100 2 false 0.
Definition blk_unsaved : Block := mkBlock 0 ds1 "b9" 100 2 false 0.
Definition blk_orphan : Block := mkBlock 8 ds_unsaved "b8" 100 2 false 0.
Definition site3 : Site := mkSite 3 "T2_A".
Definition site_unsaved : Site := mkSite 0 "T2_N".
Definition grp1 : Group := mkGroup 1 "AnalysisOps".
Definition partial_replica : BlockReplica := mkBlockReplica blk1 site3 grp1 false false 40 5.
Definition unsaved_replica : BlockReplica :=
  mkBlockReplica blk_unsaved site3 grp1 false false 40 5.
Definition empty_db : database := mkDB [] [] ∅ ∅.
Definition sample_db : database :=
  mkDB [mkBlockRow 7 1 "b1" 100 2 false 0] [(1, 3)] ∅ ∅.

(** ** Mutations on an unsaved parent *)

(** C9.  Whatever the database and its state: [save_block] of a block whose
    dataset has id 0, [save_file] of a file whose dataset or block has id 0,
    [save_blockreplica] of a replica whose block or site has id 0 and
    [save_datasetreplica] of a replica whose dataset or site has id 0 return
    with the database and the list of issued statements as they were, and
    with the object unchanged. *)
Theorem save_unsaved_parent_noop {DB : Type} (mysql_query : statement -> DB -> DB * Z)
    (s : store DB) :
  (forall block,
      dataset_id (block_dataset block) = 0 ->
      save_block mysql_query block s = (s, block)) /\
  (forall lfile,
      dataset_id (block_dataset (file_block lfile)) = 0
      \/ block_id (file_block lfile) = 0 ->
      save_file mysql_query lfile s = (s, lfile)) /\
  (forall block_replica,
      block_id (br_block block_replica) = 0 \/ site_id (br_site block_replica) = 0 ->
      save_blockreplica mysql_query block_replica s = s) /\
  (forall dataset_replica,
      dataset_id (dr_dataset dataset_replica) = 0
      \/ site_id (dr_site dataset_replica) = 0 ->
      save_datasetreplica mysql_query dataset_replica s = s).
Proof.
  split_and!.
  - intros block Hid. unfold save_block. by rewrite Hid.
  - intros lfile [Hid|Hid]; unfold save_file; rewrite Hid; simpl; [done|].
    by destruct (_ =? 0).
  - intros br [Hid|Hid]; unfold save_blockreplica; rewrite Hid; simpl; [done|].
    by destruct (_ =? 0).
  - intros dr [Hid|Hid]; unfold save_datasetreplica; rewrite Hid; simpl; [done|].
    by destruct (_ =? 0).
Qed.

Lemma save_unsaved_parent_noop_witness :
  let s := mkStore sample_db [] in
  save_block mysql_exec blk_orphan s = (s, blk_orphan) /\
  save_file mysql_exec (mkFile 0 blk_unsaved 10 "/store/f.root") s
    = (s, mkFile 0 blk_unsaved 10 "/store/f.root") /\
  save_blockreplica mysql_exec (mkBlockReplica blk1 site_unsaved grp1 true false 100 5) s
    = s /\
  save_datasetreplica mysql_exec (mkDatasetReplica ds_unsaved site3 []) s = s.
Proof.
  intros s.
  destruct (save_unsaved_parent_noop mysql_exec s) as (Hb & Hf & Hbr & Hdr).
  split_and!.
  - apply Hb. reflexivity.
  - apply Hf. right. reflexivity.
  - apply Hbr. right. reflexivity.
  - apply Hdr. left. reflexivity.
Defined.

(** C9, as the specification words it for every incremental mutator, fails:
    [delete_file] has no check of the ids.  For a file of a block that is
    not saved (id 0), for which [save_file] does nothing, it sends its
    [DELETE FROM files WHERE name = ...] to the database. *)
Lemma delete_file_unsaved_block_issues_delete :
  let s := mkStore sample_db [] in
  let lfile := mkFile 0 blk_unsaved 10 "/store/f.root" in
  block_id (file_block lfile) = 0 /\
  save_file mysql_exec lfile s = (s, lfile) /\
  issued (delete_file mysql_exec lfile s)
  = [DeleteWhere "files" [("name", VStr "/store/f.root")]] /\
  delete_file mysql_exec lfile s <> s.
Proof. by split_and!. Qed.

(** ** Sizes of block replicas *)

Lemma save_blockreplica_sizes (block_replica : BlockReplica) (s : store database) :
  block_id (br_block block_replica) <> 0 ->
  site_id (br_site block_replica) <> 0 ->
  t_block_replica_sizes (db (save_blockreplica mysql_exec block_replica s))
  = if br_size block_replica =? block_size (br_block block_replica)
    then delete (block_id (br_block block_replica), site_id (br_site block_replica))
           (t_block_replica_sizes (db s))
    else <[(block_id (br_block block_replica), site_id (br_site block_replica))
             := br_size block_replica]> (t_block_replica_sizes (db s)).
Proof.
  intros Hb Hs. unfold save_blockreplica.
  destruct (Z.eqb_spec (block_id (br_block block_replica)) 0) as [|_]; [done|].
  destruct (Z.eqb_spec (site_id (br_site block_replica)) 0) as [|_]; [done|].
  by destruct (br_size block_replica =? block_size (br_block block_replica)).
Qed.

Section LoadFacts.

Variable id_group_map : gmap Z Group.
Variable id_site_map : gmap Z Site.
Variable id_dataset_map : gmap Z Dataset.
Variable id_block_maps : gmap Z (gmap Z Block).
Variable all_rows : list replica_row.

Local Abbreviation enter_dataset := (enter_dataset id_dataset_map id_block_maps).
Local Abbreviation enter_site := (enter_site id_site_map).
Local Abbreviation load_row :=
  (load_row id_group_map id_site_map id_dataset_map id_block_maps).
Local Abbreviation load_rows :=
  (load_rows id_group_map id_site_map id_dataset_map id_block_maps).

(** A block replica built from one of the rows: its block and site are the
    ones the id maps give for the row, and its size is the row's
    [brs.size], or the size of the block when that is NULL. *)
Definition from_row (br : BlockReplica) : Prop :=
  exists row cols id_block_map,
    row ∈ all_rows /\
    row_replica row = Some cols /\
    id_block_maps !! row_dataset_id row = Some id_block_map /\
    id_block_map !! col_block_id cols = Some (br_block br) /\
    id_site_map !! row_site_id row = Some (br_site br) /\
    br_size br = match row_size row with
                 | Some size => size
                 | None => block_size (br_block br)
                 end.

Definition load_inv (st : load_state) : Prop :=
  (forall m, ls_id_block_map st = Some m ->
             id_block_maps !! ls_dataset_id st = Some m) /\
  (forall site, ls_site st = Some site ->
                id_site_map !! ls_site_id st = Some site) /\
  Forall (fun dr => Forall from_row (dr_block_replicas dr)) (ls_linked st) /\
  (forall dr, ls_dataset_replica st = Some dr ->
              Forall from_row (dr_block_replicas dr)).

Lemma enter_dataset_inv (st st1 : load_state) (row : replica_row) :
  load_inv st -> enter_dataset st row = Some st1 ->
  load_inv st1 /\ ls_dataset_id st1 = row_dataset_id row.
Proof.
  intros (Hbm & Hsite & Hlinked & Hcur). unfold MySQLStore.enter_dataset.
  case_bool_decide as Hd.
  - destruct (id_dataset_map !! row_dataset_id row); [|done].
    destruct (id_block_maps !! row_dataset_id row) eqn:Hm; [|done].
    intros [= <-]. split; [|done]. split_and!; simpl; try done.
    by intros m [= <-].
  - intros [= <-]. by split; [split_and!|].
Qed.

Lemma enter_site_inv (st st2 : load_state) (row : replica_row) :
  load_inv st -> enter_site st row = Some st2 ->
  load_inv st2 /\ ls_site_id st2 = row_site_id row
  /\ ls_dataset_id st2 = ls_dataset_id st.
Proof.
  intros (Hbm & Hsite & Hlinked & Hcur). unfold MySQLStore.enter_site.
  case_bool_decide as Hd.
  - destruct (id_site_map !! row_site_id row) eqn:Hm; [|done].
    intros [= <-]. split; [|done]. split_and!; simpl; try done.
    by intros site [= <-].
  - intros [= <-]. by split; [split_and!|].
Qed.

Lemma current_replica_inv (dataset : Dataset) (site : Site) (st : load_state) :
  load_inv st ->
  Forall from_row (dr_block_replicas (fst (current_replica dataset site st))) /\
  Forall (fun dr => Forall from_row (dr_block_replicas dr))
    (snd (current_replica dataset site st)).
Proof.
  intros (Hbm & Hsite & Hlinked & Hcur). unfold current_replica.
  destruct (ls_dataset_replica st) as [dr0|]; simpl.
  - case_bool_decide; simpl.
    + split; [constructor|]. apply Forall_app. split; [done|].
      constructor; [|constructor]. by apply Hcur.
    + split; [by apply Hcur|done].
  - split; [constructor|done].
Qed.

Lemma load_row_inv (st st' : load_state) (row : replica_row) :
  row ∈ all_rows -> load_inv st -> load_row st row = Some st' -> load_inv st'.
Proof.
  intros Hin Hinv. unfold MySQLStore.load_row.
  destruct (enter_dataset st row) as [st1|] eqn:H1; [|done].
  destruct (enter_dataset_inv _ _ _ Hinv H1) as [Hinv1 Hds1].
  destruct (enter_site st1 row) as [st2|] eqn:H2; [|done].
  destruct (enter_site_inv _ _ _ Hinv1 H2) as (Hinv2 & Hsid2 & Hds2).
  destruct (ls_dataset st2) as [dataset|] eqn:Hdataset; [|done].
  destruct (ls_site st2) as [site|] eqn:Hsite; [|done].
  pose proof (current_replica_inv dataset site st2 Hinv2) as [Hdr Hlinked].
  destruct (current_replica dataset site st2) as [dataset_replica linked].
  simpl in Hdr, Hlinked.
  destruct Hinv2 as (Hbm & Hs & _ & _).
  destruct (row_replica row) as [cols|] eqn:Hcols.
  - destruct (ls_id_block_map st2) as [id_block_map|] eqn:Hmap; [|done].
    destruct (id_block_map !! col_block_id cols) as [block|] eqn:Hblock; [|done].
    destruct (id_group_map !! col_group_id cols) as [grp|]; [|done].
    intros [= <-]. split_and!; simpl; try done.
    + intros site0 [= <-]. by apply Hs.
    + intros dr [= <-]. simpl. apply Forall_app. split; [done|].
      constructor; [|constructor].
      exists row, cols, id_block_map. split_and!; try done.
      * rewrite <- Hds1, <- Hds2. by apply Hbm.
      * simpl. rewrite <- Hsid2. by apply Hs.
  - intros [= <-]. split_and!; simpl; try done.
    + intros site0 [= <-]. by apply Hs.
    + by intros dr [= <-].
Qed.

Lemma load_rows_inv (rows : list replica_row) (st st' : load_state) :
  Forall (fun row => row ∈ all_rows) rows ->
  load_inv st -> load_rows st rows = Some st' -> load_inv st'.
Proof.
  intros Hrows. revert st. induction Hrows as [|row rows Hin _ IH]; intros st Hinv.
  - by intros [= <-].
  - simpl. destruct (load_row st row) as [st1|] eqn:H1; [|done].
    apply IH. by eapply load_row_inv.
Qed.

End LoadFacts.

(** Every block replica that [_load_replicas] builds comes from a row of its
    query. *)
Lemma _load_replicas_from_rows (id_group_map : gmap Z Group)
    (id_site_map : gmap Z Site) (id_dataset_map : gmap Z Dataset)
    (id_block_maps : gmap Z (gmap Z Block)) (rows : list replica_row)
    (drs : list DatasetReplica) :
  _load_replicas id_group_map id_site_map id_dataset_map id_block_maps rows = Some drs ->
  Forall (fun dr => Forall (from_row id_site_map id_block_maps rows)
                      (dr_block_replicas dr)) drs.
Proof.
  unfold _load_replicas.
  destruct (load_rows _ _ _ _ _ rows) as [st|] eqn:Hload; [|done].
  intros [= <-].
  assert (Hinv : load_inv id_site_map id_block_maps rows st).
  { eapply load_rows_inv; [|  |exact Hload].
    - by apply Forall_forall.
    - split_and!; simpl; try done. }
  destruct Hinv as (_ & _ & Hlinked & Hcur).
  destruct (ls_dataset_replica st) as [dr|]; [|done].
  apply Forall_app. split; [done|]. constructor; [|constructor]. by apply Hcur.
Qed.

(** What the query puts in the size column. *)
Lemma replicas_query_size (d : database) (row : replica_row) (cols : replica_columns) :
  row ∈ replicas_query d ->
  row_replica row = Some cols ->
  is_Some (t_block_replicas d !! (col_block_id cols, row_site_id row)) /\
  row_size row = t_block_replica_sizes d !! (col_block_id cols, row_site_id row).
Proof.
  unfold replicas_query. intros Hin Hcols.
  apply list_elem_of_In, in_flat_map in Hin as ([ds sid] & _ & Hin).
  apply list_elem_of_In, list_elem_of_fmap in Hin as (b & -> & _).
  simpl in *.
  destruct (t_block_replicas d !! (b_id b, sid)) as [[[[g c] cu] t]|] eqn:Hbr; [|done].
  inversion Hcols; subst; simpl. eauto.
Qed.

(** The size of a loaded block replica. *)
Lemma loaded_block_replica_size (id_group_map : gmap Z Group)
    (id_site_map : gmap Z Site) (id_dataset_map : gmap Z Dataset)
    (id_block_maps : gmap Z (gmap Z Block)) (d : database)
    (drs : list DatasetReplica) (dr : DatasetReplica) (br : BlockReplica) :
  _load_replicas id_group_map id_site_map id_dataset_map id_block_maps
    (replicas_query d) = Some drs ->
  dr ∈ drs ->
  br ∈ dr_block_replicas dr ->
  exists dataset_id block_id site_id id_block_map,
    id_block_maps !! dataset_id = Some id_block_map /\
    id_block_map !! block_id = Some (br_block br) /\
    id_site_map !! site_id = Some (br_site br) /\
    is_Some (t_block_replicas d !! (block_id, site_id)) /\
    br_size br = match t_block_replica_sizes d !! (block_id, site_id) with
                 | Some size => size
                 | None => block_size (br_block br)
                 end.
Proof.
  intros Hload Hdr Hbr.
  apply _load_replicas_from_rows in Hload.
  rewrite Forall_forall in Hload. specialize (Hload dr Hdr).
  rewrite Forall_forall in Hload.
  destruct (Hload br Hbr)
    as (row & cols & m & Hrow & Hcols & Hm & Hblock & Hsite & Hsize).
  destruct (replicas_query_size d row cols Hrow Hcols) as [Hsome Hrs].
  exists (row_dataset_id row), (col_block_id cols), (row_site_id row), m.
  by rewrite <- Hrs.
Qed.

(** C8, as the code has it.  For a block replica whose block and site both
    have a nonzero id, [save_blockreplica] leaves a [block_replica_sizes]
    row for (block, site) exactly when the replica's size differs from its
    block's size, that row then holding the replica's size, and leaves the
    rows of other keys as they were.  On load, every block replica built by
    [_load_replicas] belongs to a [block_replicas] row (block id, site id)
    and has the size of the [block_replica_sizes] row of that key when there
    is one and the size of its block otherwise. *)
Theorem block_replica_sizes_saved_and_loaded (block_replica : BlockReplica)
    (s : store database) :
  block_id (br_block block_replica) <> 0 ->
  site_id (br_site block_replica) <> 0 ->
  let key := (block_id (br_block block_replica), site_id (br_site block_replica)) in
  let sizes' :=
    t_block_replica_sizes (db (save_blockreplica mysql_exec block_replica s)) in
  (is_Some (sizes' !! key)
   <-> br_size block_replica <> block_size (br_block block_replica)) /\
  (br_size block_replica <> block_size (br_block block_replica) ->
   sizes' !! key = Some (br_size block_replica)) /\
  (forall k, k <> key -> sizes' !! k = t_block_replica_sizes (db s) !! k) /\
  (forall id_group_map id_site_map id_dataset_map id_block_maps d drs dr br,
      _load_replicas id_group_map id_site_map id_dataset_map id_block_maps
        (replicas_query d) = Some drs ->
      dr ∈ drs ->
      br ∈ dr_block_replicas dr ->
      exists dataset_id block_id site_id id_block_map,
        id_block_maps !! dataset_id = Some id_block_map /\
        id_block_map !! block_id = Some (br_block br) /\
        id_site_map !! site_id = Some (br_site br) /\
        is_Some (t_block_replicas d !! (block_id, site_id)) /\
        br_size br = match t_block_replica_sizes d !! (block_id, site_id) with
                     | Some size => size
                     | None => block_size (br_block br)
                     end).
Proof.
  intros Hb Hs key sizes'. subst sizes'.
  rewrite save_blockreplica_sizes by done. fold key.
  destruct (Z.eqb_spec (br_size block_replica) (block_size (br_block block_replica)))
    as [Heq|Hne].
  - split_and!.
    + rewrite lookup_delete_eq. split; [by intros [? ?]|done].
    + done.
    + intros k Hk. by rewrite lookup_delete_ne.
    + apply loaded_block_replica_size.
  - split_and!.
    + rewrite lookup_insert_eq. split; [done|eauto].
    + intros _. by rewrite lookup_insert_eq.
    + intros k Hk. by rewrite lookup_insert_ne.
    + apply loaded_block_replica_size.
Qed.

Definition sample_group_map : gmap Z Group := <[1 := grp1]> ∅.
Definition sample_site_map : gmap Z Site := <[3 := site3]> ∅.
Definition sample_dataset_map : gmap Z Dataset := <[1 := ds1]> ∅.
Definition sample_block_maps : gmap Z (gmap Z Block) := <[1 := <[7 := blk1]> ∅]> ∅.

Lemma block_replica_sizes_saved_and_loaded_witness :
  let d' := db (save_blockreplica mysql_exec partial_replica (mkStore sample_db [])) in
  t_block_replica_sizes d' !! (7, 3) = Some 40 /\
  _load_replicas sample_group_map sample_site_map sample_dataset_map sample_block_maps
    (replicas_query d')
    = Some [mkDatasetReplica ds1 site3 [partial_replica]] /\
  exists dataset_id block_id site_id id_block_map,
    sample_block_maps !! dataset_id = Some id_block_map /\
    id_block_map !! block_id = Some blk1 /\
    sample_site_map !! site_id = Some site3 /\
    is_Some (t_block_replicas d' !! (block_id, site_id)) /\
    40 = match t_block_replica_sizes d' !! (block_id, site_id) with
         | Some size => size
         | None => 100
         end.
Proof.
  intros d'.
  assert (Hload : _load_replicas sample_group_map sample_site_map sample_dataset_map
                    sample_block_maps (replicas_query d')
                  = Some [mkDatasetReplica ds1 site3 [partial_replica]]).
  { vm_compute. reflexivity. }
  destruct (block_replica_sizes_saved_and_loaded partial_replica
              (mkStore sample_db []) ltac:(discriminate) ltac:(discriminate))
    as (_ & Hrow & _ & Hloaded).
  split; [apply Hrow; discriminate|]. split; [exact Hload|].
  apply (Hloaded sample_group_map sample_site_map sample_dataset_map
           sample_block_maps d' _ (mkDatasetReplica ds1 site3 [partial_replica])
           partial_replica Hload); by left.
Defined.

(** C8, as the specification words it, fails for a replica of a block that
    was never saved: its size differs from the size of its block, and the
    call leaves no [block_replica_sizes] row for it. *)
Lemma save_blockreplica_unsaved_block_no_row :
  let s' := save_blockreplica mysql_exec unsaved_replica (mkStore empty_db []) in
  let key := (block_id (br_block unsaved_replica), site_id (br_site unsaved_replica)) in
  br_size unsaved_replica <> block_size (br_block unsaved_replica) /\
  t_block_replica_sizes (db s') !! key = None /\
  ~ (is_Some (t_block_replica_sizes (db s') !! key)
     <-> br_size unsaved_replica <> block_size (br_block unsaved_replica)).
Proof.
  intros s' key.
  assert (Hne : br_size unsaved_replica <> block_size (br_block unsaved_replica))
    by discriminate.
  assert (Hnone : t_block_replica_sizes (db s') !! key = None) by reflexivity.
  split_and!; [done|done|].
  intros [_ H]. destruct (H Hne) as [v Hv]. rewrite Hnone in Hv. discriminate.
Qed.

End MySQLStore.

(* ===================================================================== *)
(** * lib/enforcer/interface.py                                           *)
(* ===================================================================== *)

Module Enforcer.

(** ** The inventory as [report_back] reads it

    Sites and groups are the objects of the inventory, one per name, and are
    represented by their names; a set of sites is a [gset]. *)

Record BlockReplica := mkBlockReplica {
  br_block : string;
  br_group : option string
}.

(** A dataset replica without the reference to its dataset: the site, the
    block replicas, [replica.is_full()] and [replica.size(physical = True)],
    [replica.size(physical = False)]. *)
Record replica_data := mkReplicaData {
  rd_site : string;
  rd_block_replicas : list BlockReplica;
  rd_is_full : bool;
  rd_size_physical : Z;
  rd_size : Z
}.

(** [dataset.replicas] lists the replicas of the dataset. *)
Record Dataset := mkDataset {
  dataset_name : string;
  dataset_size : Z;
  replicas : list replica_data
}.

(** A [DatasetReplica] object: [replica.dataset] and the rest. *)
Record DatasetReplica := mkDatasetReplica {
  dataset : Dataset;
  data : replica_data
}.

(** [site.partitions[partition]]; [replicas] is the dictionary from dataset
    replica to [None] (the whole replica is in the partition) or the set of
    its block replicas that are, as the list of its items. *)
Record SitePartition := mkSitePartition {
  sp_site : string;
  sp_quota : Z;
  sp_replicas : list (DatasetReplica * option (list BlockReplica))
}.

(** [inventory.sites], each site with its [partitions[partition]] for the
    partition of the policy, and [inventory.groups]. *)
Record Inventory := mkInventory {
  sites : list (string * SitePartition);
  groups : gset string
}.

(** [Condition.match] is not part of the sources: a condition is the
    predicate it evaluates. *)
Record EnforcerRule := mkRule {
  num_copies : nat;
  destination_sites : list (SitePartition -> bool);   (* list of ORed conditions *)
  source_sites : list (SitePartition -> bool);
  target_replicas : list (DatasetReplica -> bool);
  destination_group_name : string;
  protect : bool
}.

(** What [report_back] appends to [product]: a copy request
    [(dataset, site)], or with [write_rrds] the report of a rule,
    [(rule_name, already_there, en_route, still_missing)]. *)
Inductive product_item :=
| Request (dataset : Dataset) (site : string)
| Report (rule_name : string) (already_there : list string)
    (en_route : list (string * (Z * Z))) (still_missing : list (string * Z)).

(** ** [_get_sites] *)
Definition _get_sites (conditions : list (SitePartition -> bool))
    (inventory : Inventory) : gset string :=
  list_to_set
    (map fst (filter (fun s => existsb (fun c => c (snd s)) conditions = true)
                     (sites inventory))).

(** ** The loop over [dataset.replicas] *)

Record counts := mkCounts {
  num_complete : nat;
  num_incomplete : nat;
  data_incomplete : list (string * (Z * Z));
  can_be_flipped : list replica_data
}.

(** [site_partition.replicas[replica]]; the outer [None] is the
    [KeyError]. *)
Fixpoint partition_lookup (dname site : string)
    (l : list (DatasetReplica * option (list BlockReplica)))
    : option (option (list BlockReplica)) :=
  match l with
  | [] => None
  | (r, v) :: rest =>
      if String.eqb (dataset_name (dataset r)) dname && String.eqb (rd_site (data r)) site
      then Some v else partition_lookup dname site rest
  end.

(** [len(owners) == 1 and list(owners)[0] is destination_group] for
    [owners = set(b.group for b in replica.block_replicas)] *)
Definition owned_by (destination_group : string) (r : replica_data) : bool :=
  match remove_dups (map br_group (rd_block_replicas r)) with
  | [g] => bool_decide (g = Some destination_group)
  | _ => false
  end.

Definition count_replica (destination_sites : gset string)
    (site_partition : SitePartition) (destination_group : string)
    (d : Dataset) (c : counts) (replica : replica_data) : counts :=
  if negb (bool_decide (rd_site replica ∈ destination_sites)) then c
  else
    match partition_lookup (dataset_name d) (rd_site replica)
            (sp_replicas site_partition) with
    | None => c                                             (* KeyError *)
    | Some (Some _) => c           (* skip replicas not fully in partition *)
    | Some None =>
        if negb (owned_by destination_group replica) then
          (* should not count replicas not owned by the target group *)
          mkCounts (num_complete c) (num_incomplete c) (data_incomplete c)
            (can_be_flipped c ++ [replica])
        else if rd_is_full replica then
          mkCounts (S (num_complete c)) (num_incomplete c) (data_incomplete c)
            (can_be_flipped c)
        else
          mkCounts (num_complete c) (S (num_incomplete c))
            (data_incomplete c
               ++ [(rd_site replica, (rd_size_physical replica, rd_size replica))])
            (can_be_flipped c)
    end.

(** ** The loop that creates the requests *)

(** [while num_complete + num_incomplete + len(request_sites) < target_num],
    with [fuel] bounding the number of tests of the condition; [l.pop()]
    takes the last element. *)
Fixpoint request_loop (fuel have target_num : nat)
    (can_be_flipped : list replica_data) (site_candidates request_sites : list string)
    : option (list string) :=
  match fuel with
  | O => None
  | S fuel' =>
      if (have + length request_sites <? target_num)%nat then
        (* prioritize the replicas where we can just flip the ownership *)
        match last can_be_flipped with
        | Some replica =>
            request_loop fuel' have target_num (removelast can_be_flipped)
              site_candidates (request_sites ++ [rd_site replica])
        | None =>
            match last site_candidates with
            | None => Some request_sites                              (* break *)
            | Some site =>
                request_loop fuel' have target_num can_be_flipped
                  (removelast site_candidates) (request_sites ++ [site])
            end
        end
      else Some request_sites
  end.

Section ReportBack.

(** [random.shuffle], threading the state of the generator. *)
Variable rng : Type.
Variable shuffle : forall A : Type, rng -> list A -> list A * rng.

(** The variables of the loop over one rule's replicas. *)
Record rule_state := mkRuleState {
  checked_datasets : gset string;
  already_there : list string;
  en_route : list (string * (Z * Z));
  still_missing : list (string * Z);
  requests : list product_item;
  generator : rng
}.

(** The body of [for replica in site_partition.replicas.iterkeys()]; [None]
    is the loop of requests running out of fuel. *)
Definition check_replica (write_rrds : bool) (rule : EnforcerRule)
    (destinations : gset string) (destination_group : string) (target_num : nat)
    (site_partition : SitePartition) (st : rule_state) (replica : DatasetReplica)
    : option rule_state :=
  let d := dataset replica in
  if bool_decide (dataset_name d ∈ checked_datasets st) then Some st
  else
    let st := mkRuleState ({[dataset_name d]} ∪ checked_datasets st)
                (already_there st) (en_route st) (still_missing st)
                (requests st) (generator st) in
    if negb (existsb (fun condition => condition replica) (target_replicas rule))
    then Some st                                        (* no condition matched *)
    else
      let c := foldl (count_replica destinations site_partition destination_group d)
                 (mkCounts 0 0 [] []) (replicas d) in
      if (target_num <=? num_complete c)%nat then
        Some (if write_rrds then
                mkRuleState (checked_datasets st) (already_there st ++ [dataset_name d])
                  (en_route st) (still_missing st) (requests st) (generator st)
              else st)
      else if (target_num <=? num_complete c + num_incomplete c)%nat then
        Some (if write_rrds then
                mkRuleState (checked_datasets st) (already_there st)
                  (en_route st
                     ++ map (fun kv => ((dataset_name d ++ "__" ++ fst kv)%string, snd kv))
                            (data_incomplete c))
                  (still_missing st) (requests st) (generator st)
              else st)
      else
        let site_candidates : gset string :=
          destinations
          ∖ list_to_set (map rd_site (filter (fun r => rd_is_full r = true) (replicas d))) in
        if Nat.eqb (size site_candidates) 0 && Nat.eqb (length (can_be_flipped c)) 0
        then Some st                       (* we have nowhere to request copy to *)
        else if write_rrds then
          Some (mkRuleState (checked_datasets st) (already_there st) (en_route st)
                  (still_missing st ++ [(dataset_name d, dataset_size d)])
                  (requests st) (generator st))
        else
          let '(candidates, g) := shuffle string (generator st) (elements site_candidates) in
          match request_loop (S target_num) (num_complete c + num_incomplete c)
                  target_num (can_be_flipped c) candidates [] with
          | None => None
          | Some request_sites =>
              Some (mkRuleState (checked_datasets st) (already_there st) (en_route st)
                      (still_missing st)
                      (requests st ++ map (Request d) request_sites) g)
          end.

Fixpoint check_replicas (write_rrds : bool) (rule : EnforcerRule)
    (destinations : gset string) (destination_group : string) (target_num : nat)
    (site_partition : SitePartition) (st : rule_state)
    (rs : list DatasetReplica) : option rule_state :=
  match rs with
  | [] => Some st
  | r :: rest =>
      match check_replica write_rrds rule destinations destination_group target_num
              site_partition st r with
      | None => None
      | Some st' =>
          check_replicas write_rrds rule destinations destination_group target_num
            site_partition st' rest
      end
  end.

(** [for site in source_sites: ...], over the source sites in the order of
    iteration of the set. *)
Fixpoint check_sites (write_rrds : bool) (rule : EnforcerRule)
    (inventory : Inventory) (destinations : gset string)
    (destination_group : string) (target_num : nat) (st : rule_state)
    (sources : list string) : option rule_state :=
  match sources with
  | [] => Some st
  | site :: rest =>
      match list_find (fun s => fst s = site) (sites inventory) with
      | None => None
      | Some (_, (_, site_partition)) =>
          match check_replicas write_rrds rule destinations destination_group
                  target_num site_partition st
                  (map fst (sp_replicas site_partition)) with
          | None => None
          | Some st' =>
              check_sites write_rrds rule inventory destinations destination_group
                target_num st' rest
          end
      end
  end.

(** The effective target of a rule: [num_copies], capped by the number of
    destination sites. *)
Definition target_of (rule : EnforcerRule) (destinations : gset string) : nat :=
  if (size destinations <? num_copies rule)%nat then size destinations
  else num_copies rule.

(** The body of [for rule_name, rule in self.rules.iteritems()]: what the
    rule appends to [product], and the generator after it.  [None] is a
    [KeyError] of [inventory.groups]. *)
Definition check_rule (write_rrds : bool) (inventory : Inventory)
    (g : rng) (rule_name : string) (rule : EnforcerRule)
    : option (list product_item * rng) :=
  let destinations := _get_sites (destination_sites rule) inventory in
  let sources := _get_sites (source_sites rule) inventory in
  if negb (bool_decide (destination_group_name rule ∈ groups inventory)) then None
  else
    let target_num := target_of rule destinations in
    match check_sites write_rrds rule inventory destinations
            (destination_group_name rule) target_num
            (mkRuleState ∅ [] [] [] [] g) (elements sources) with
    | None => None
    | Some st =>
        Some (if write_rrds then
                requests st
                ++ [Report rule_name (already_there st) (en_route st) (still_missing st)]
              else requests st,
              generator st)
    end.

Fixpoint check_rules (write_rrds : bool) (inventory : Inventory) (g : rng)
    (rules : list (string * EnforcerRule)) : option (list product_item * rng) :=
  match rules with
  | [] => Some ([], g)
  | (rule_name, rule) :: rest =>
      match check_rule write_rrds inventory g rule_name rule with
      | None => None
      | Some (items, g') =>
          match check_rules write_rrds inventory g' rest with
          | None => None
          | Some (items', g'') => Some (items ++ items', g'')
          end
      end
  end.

(** [EnforcerInterface.report_back] *)
Definition report_back (write_rrds : bool) (rules : list (string * EnforcerRule))
    (inventory : Inventory) (g : rng) : option (list product_item) :=
  match check_rules write_rrds inventory g rules with
  | None => None
  | Some (product, g') =>
      if negb write_rrds then
        (* product is ordered by site - randomize requests *)
        Some (fst (shuffle product_item g' product))
      else Some product
  end.

End ReportBack.

(** The number of copy requests for a dataset in a product. *)
Definition is_request_for (dname : string) (it : product_item) : bool :=
  match it with
  | Request d _ => String.eqb (dataset_name d) dname
  | Report _ _ _ _ => false
  end.

Definition requests_for (dname : string) (product : list product_item) : nat :=
  length (filter (fun it => is_request_for dname it = true) product).

(** ** The number of requests for a dataset *)

Lemma requests_for_app (dname : string) (l1 l2 : list product_item) :
  requests_for dname (l1 ++ l2) = (requests_for dname l1 + requests_for dname l2)%nat.
Proof. unfold requests_for. by rewrite filter_app, length_app. Qed.

Lemma requests_for_requests (dname : string) (d : Dataset) (request_sites : list string) :
  requests_for dname (map (Request d) request_sites)
  = if String.eqb (dataset_name d) dname then length request_sites else 0%nat.
Proof.
  unfold requests_for.
  induction request_sites as [|site rest IH]; simpl.
  - by destruct (String.eqb _ _).
  - rewrite filter_cons. simpl. destruct (String.eqb (dataset_name d) dname) eqn:Heq.
    + rewrite decide_True by done. simpl. by rewrite IH.
    + rewrite decide_False by done. exact IH.
Qed.

Lemma requests_for_report (dname rule_name : string) (there : list string)
    (route : list (string * (Z * Z))) (missing : list (string * Z)) :
  requests_for dname [Report rule_name there route missing] = 0%nat.
Proof. reflexivity. Qed.

(** The loop of requests ends, and stops at the target. *)
Lemma request_loop_total (fuel have target_num : nat)
    (flipped : list replica_data) (candidates request_sites : list string) :
  (target_num - (have + length request_sites) < fuel)%nat ->
  is_Some (request_loop fuel have target_num flipped candidates request_sites).
Proof.
  revert flipped candidates request_sites.
  induction fuel as [|fuel IH]; intros flipped candidates request_sites Hfuel; [lia|].
  simpl. destruct (Nat.ltb_spec (have + length request_sites) target_num); [|eauto].
  destruct (last flipped).
  - apply IH. rewrite length_app. simpl. lia.
  - destruct (last candidates); [|eauto].
    apply IH. rewrite length_app. simpl. lia.
Qed.

Lemma request_loop_bound (fuel have target_num : nat)
    (flipped : list replica_data) (candidates request_sites out : list string) :
  request_loop fuel have target_num flipped candidates request_sites = Some out ->
  (length out <= Nat.max (length request_sites) (target_num - have))%nat.
Proof.
  revert flipped candidates request_sites.
  induction fuel as [|fuel IH]; intros flipped candidates request_sites; [done|].
  simpl. destruct (Nat.ltb_spec (have + length request_sites) target_num).
  - destruct (last flipped).
    + intros Hout. apply IH in Hout. rewrite length_app in Hout. simpl in Hout. lia.
    + destruct (last candidates).
      * intros Hout. apply IH in Hout. rewrite length_app in Hout. simpl in Hout. lia.
      * intros [= <-]. lia.
  - intros [= <-]. lia.
Qed.

Lemma target_of_min (rule : EnforcerRule) (destinations : gset string) :
  target_of rule destinations = Nat.min (num_copies rule) (size destinations).
Proof. unfold target_of. destruct (Nat.ltb_spec (size destinations) (num_copies rule)); lia. Qed.

Section ReportBackFacts.

Variable rng : Type.
Variable shuffle : forall A : Type, rng -> list A -> list A * rng.

Local Abbreviation check_replica := (check_replica rng shuffle).
Local Abbreviation check_replicas := (check_replicas rng shuffle).
Local Abbreviation check_sites := (check_sites rng shuffle).
Local Abbreviation check_rule := (check_rule rng shuffle).
Local Abbreviation check_rules := (check_rules rng shuffle).
Local Abbreviation report_back := (report_back rng shuffle).

(** Within one rule: a dataset that was not checked yet has no request, and
    no dataset has more requests than the target. *)
Definition capped (target_num : nat) (st : rule_state rng) : Prop :=
  forall dname,
    (requests_for dname (requests rng st) <= target_num)%nat /\
    (dname ∉ checked_datasets rng st -> requests_for dname (requests rng st) = 0%nat).

Lemma check_replica_capped (write_rrds : bool) (rule : EnforcerRule)
    (destinations : gset string) (destination_group : string) (target_num : nat)
    (site_partition : SitePartition) (st st' : rule_state rng)
    (replica : DatasetReplica) :
  capped target_num st ->
  check_replica write_rrds rule destinations destination_group target_num
    site_partition st replica = Some st' ->
  capped target_num st'.
Proof.
  intros Hcap. unfold Enforcer.check_replica.
  case_bool_decide as Hchecked; [by intros [= <-]|].
  assert (Hcap' : forall st1 : rule_state rng,
            requests rng st1 = requests rng st ->
            checked_datasets rng st1
              = {[dataset_name (dataset replica)]} ∪ checked_datasets rng st ->
            capped target_num st1).
  { intros st1 Hreq Hch dname. rewrite Hreq, Hch. split; [apply Hcap|].
    intros Hnot. apply Hcap. set_solver. }
  destruct (negb (existsb _ _)); [intros [= <-]; by apply Hcap'|].
  destruct (_ <=? _)%nat; [intros [= <-]; destruct write_rrds; by apply Hcap'|].
  destruct (_ <=? _)%nat; [intros [= <-]; destruct write_rrds; by apply Hcap'|].
  destruct (_ && _); [intros [= <-]; by apply Hcap'|].
  destruct write_rrds; [intros [= <-]; by apply Hcap'|].
  destruct (shuffle string _ _) as [candidates g].
  destruct (request_loop _ _ _ _ _ _) as [request_sites|] eqn:Hloop; [|done].
  intros [= <-]. apply request_loop_bound in Hloop. simpl in Hloop.
  intros dname. simpl. rewrite requests_for_app, requests_for_requests.
  destruct (String.eqb_spec (dataset_name (dataset replica)) dname) as [<-|Hne].
  - destruct (Hcap (dataset_name (dataset replica))) as [_ Hzero].
    rewrite (Hzero Hchecked). split; [lia|]. set_solver.
  - rewrite Nat.add_0_r. split; [apply Hcap|].
    intros Hnot. apply Hcap. set_solver.
Qed.

Lemma check_replicas_capped (write_rrds : bool) (rule : EnforcerRule)
    (destinations : gset string) (destination_group : string) (target_num : nat)
    (site_partition : SitePartition) (rs : list DatasetReplica)
    (st st' : rule_state rng) :
  capped target_num st ->
  check_replicas write_rrds rule destinations destination_group target_num
    site_partition st rs = Some st' ->
  capped target_num st'.
Proof.
  revert st. induction rs as [|r rs IH]; intros st Hcap; simpl.
  - by intros [= <-].
  - destruct (check_replica _ _ _ _ _ _ st r) as [st1|] eqn:H1; [|done].
    apply IH. by eapply check_replica_capped.
Qed.

Lemma check_sites_capped (write_rrds : bool) (rule : EnforcerRule)
    (inventory : Inventory) (destinations : gset string)
    (destination_group : string) (target_num : nat) (sources : list string)
    (st st' : rule_state rng) :
  capped target_num st ->
  check_sites write_rrds rule inventory destinations destination_group target_num
    st sources = Some st' ->
  capped target_num st'.
Proof.
  revert st. induction sources as [|site sources IH]; intros st Hcap; simpl.
  - by intros [= <-].
  - destruct (list_find _ _) as [[i [name site_partition]]|]; [|done].
    destruct (check_replicas _ _ _ _ _ _ st _) as [st1|] eqn:H1; [|done].
    apply IH. by eapply check_replicas_capped.
Qed.

Lemma check_rule_capped (write_rrds : bool) (inventory : Inventory) (g g' : rng)
    (rule_name : string) (rule : EnforcerRule) (items : list product_item)
    (dname : string) :
  check_rule write_rrds inventory g rule_name rule = Some (items, g') ->
  (requests_for dname items
   <= target_of rule (_get_sites (destination_sites rule) inventory))%nat.
Proof.
  unfold Enforcer.check_rule. destruct (negb _); [done|].
  destruct (check_sites _ _ _ _ _ _ _ _) as [st|] eqn:Hsites; [|done].
  intros [= <- _].
  assert (Hcap : capped (target_of rule (_get_sites (destination_sites rule) inventory)) st).
  { eapply check_sites_capped; [|exact Hsites]. intros n. simpl. split; [|done].
    unfold requests_for. simpl. lia. }
  destruct write_rrds; [|apply Hcap].
  rewrite requests_for_app, requests_for_report, Nat.add_0_r. apply Hcap.
Qed.

Lemma check_rules_capped (write_rrds : bool) (inventory : Inventory)
    (rules : list (string * EnforcerRule)) (g g' : rng)
    (product : list product_item) (dname : string) :
  check_rules write_rrds inventory g rules = Some (product, g') ->
  (requests_for dname product
   <= sum_list (map (fun r => target_of (snd r)
                                (_get_sites (destination_sites (snd r)) inventory))
                    rules))%nat.
Proof.
  revert g g' product.
  induction rules as [|[rule_name rule] rules IH]; intros g g' product; simpl.
  - intros [= <- _]. unfold requests_for. simpl. lia.
  - destruct (check_rule _ _ g _ _) as [[items g1]|] eqn:Hrule; [|done].
    destruct (check_rules _ _ g1 _) as [[items' g2]|] eqn:Hrules; [|done].
    intros [= <- _]. rewrite requests_for_app.
    apply (check_rule_capped _ _ _ _ _ _ _ dname) in Hrule.
    apply IH in Hrules. lia.
Qed.

(** [report_back] returns whenever the destination groups of the rules are
    groups of the inventory. *)
Lemma check_replica_total (write_rrds : bool) (rule : EnforcerRule)
    (destinations : gset string) (destination_group : string) (target_num : nat)
    (site_partition : SitePartition) (st : rule_state rng) (replica : DatasetReplica) :
  is_Some (check_replica write_rrds rule destinations destination_group target_num
             site_partition st replica).
Proof.
  unfold Enforcer.check_replica.
  case_bool_decide; [eauto|].
  destruct (negb (existsb _ _)); [eauto|].
  destruct (_ <=? _)%nat; [eauto|].
  destruct (_ <=? _)%nat; [eauto|].
  destruct (_ && _); [eauto|].
  destruct write_rrds; [eauto|].
  destruct (shuffle string _ _) as [candidates g].
  destruct (request_loop_total (S target_num)
              (num_complete (foldl (count_replica destinations site_partition
                                      destination_group (dataset replica))
                               (mkCounts 0 0 [] []) (replicas (dataset replica)))
               + num_incomplete (foldl (count_replica destinations site_partition
                                          destination_group (dataset replica))
                                   (mkCounts 0 0 [] []) (replicas (dataset replica))))
              target_num
              (can_be_flipped (foldl (count_replica destinations site_partition
                                        destination_group (dataset replica))
                                 (mkCounts 0 0 [] []) (replicas (dataset replica))))
              candidates []) as [out Hout]; [simpl; lia|].
  rewrite Hout. eauto.
Qed.

Lemma check_replicas_total (write_rrds : bool) (rule : EnforcerRule)
    (destinations : gset string) (destination_group : string) (target_num : nat)
    (site_partition : SitePartition) (rs : list DatasetReplica) (st : rule_state rng) :
  is_Some (check_replicas write_rrds rule destinations destination_group target_num
             site_partition st rs).
Proof.
  revert st. induction rs as [|r rs IH]; intros st; simpl; [eauto|].
  destruct (check_replica_total write_rrds rule destinations destination_group
              target_num site_partition st r) as [st1 H1].
  rewrite H1. apply IH.
Qed.

Lemma check_sites_total (write_rrds : bool) (rule : EnforcerRule)
    (inventory : Inventory) (destinations : gset string)
    (destination_group : string) (target_num : nat) (sources : list string)
    (st : rule_state rng) :
  Forall (fun site => site ∈ map fst (sites inventory)) sources ->
  is_Some (check_sites write_rrds rule inventory destinations destination_group
             target_num st sources).
Proof.
  intros Hsources. revert st.
  induction Hsources as [|site sources Hsite _ IH]; intros st; simpl; [eauto|].
  apply list_elem_of_fmap in Hsite as ([name sp] & -> & Hin). simpl.
  destruct (list_find_elem_of (fun s : string * SitePartition => fst s = name)
              (sites inventory) (name, sp) Hin eq_refl) as [[i [n' sp']] Hfind].
  simpl in Hfind. rewrite Hfind.
  destruct (check_replicas_total write_rrds rule destinations destination_group
              target_num sp' (map fst (sp_replicas sp')) st) as [st1 H1].
  rewrite H1. apply IH.
Qed.

Lemma _get_sites_known (conditions : list (SitePartition -> bool))
    (inventory : Inventory) :
  Forall (fun site => site ∈ map fst (sites inventory))
    (elements (_get_sites conditions inventory)).
Proof.
  apply Forall_forall. intros site Hin.
  apply elem_of_elements in Hin. unfold _get_sites in Hin.
  apply elem_of_list_to_set in Hin.
  apply list_elem_of_fmap in Hin as (s & -> & Hs).
  apply list_elem_of_filter in Hs as [_ Hs].
  apply list_elem_of_fmap. eauto.
Qed.

Lemma check_rules_total (write_rrds : bool) (inventory : Inventory)
    (rules : list (string * EnforcerRule)) (g : rng) :
  Forall (fun r => destination_group_name (snd r) ∈ groups inventory) rules ->
  is_Some (check_rules write_rrds inventory g rules).
Proof.
  intros Hrules. revert g.
  induction Hrules as [|[rule_name rule] rules Hgroup _ IH]; intros g; simpl; [eauto|].
  unfold Enforcer.check_rule. simpl in Hgroup.
  rewrite bool_decide_eq_true_2 by done. simpl.
  destruct (check_sites_total write_rrds rule inventory
              (_get_sites (destination_sites rule) inventory)
              (destination_group_name rule)
              (target_of rule (_get_sites (destination_sites rule) inventory))
              (elements (_get_sites (source_sites rule) inventory))
              (mkRuleState rng ∅ [] [] [] [] g)
              (_get_sites_known _ _)) as [st Hst].
  rewrite Hst. destruct (IH (generator rng st)) as [[items g'] Hrest].
  rewrite Hrest. eauto.
Qed.

End ReportBackFacts.

(** ** Sample inventory: one source site, two destination sites *)

Definition dataset_XYZ : Dataset :=
  mkDataset "/X/Y/Z" 1000
    [mkReplicaData "T1_a" [mkBlockReplica "b1" (Some "G")] true 1000 1000].

Definition replica_XYZ_T1_a : DatasetReplica :=
  mkDatasetReplica dataset_XYZ
    (mkReplicaData "T1_a" [mkBlockReplica "b1" (Some "G")] true 1000 1000).

Definition sample_inventory : Inventory :=
  mkInventory
    [("T1_a", mkSitePartition "T1_a" 100 [(replica_XYZ_T1_a, None)]);
     ("T2_b", mkSitePartition "T2_b" 100 []);
     ("T2_c", mkSitePartition "T2_c" 100 [])]
    {["G"]}.

(** [num_copies = 5] with sources [T1_*], destinations [T2_*] and every
    replica as target. *)
Definition sample_rule : EnforcerRule :=
  mkRule 5
    [fun sp => String.prefix "T2_" (sp_site sp)]
    [fun sp => String.prefix "T1_" (sp_site sp)]
    [fun _ => true]
    "G" false.

Definition keep_order (A : Type) (g : unit) (l : list A) : list A * unit := (l, g).

(** C10.  For a rule whose destination group is a group of the inventory,
    the effective target is [min(num_copies, number of destination sites)],
    and the requests the rule makes for any one dataset are at most that
    many, hence at most the number of sites matching the rule's destination
    conditions.  [report_back] returns, and the requests for a dataset in
    its product (a rearrangement of what the rules appended) are at most the
    sum of these targets over the rules. *)
Theorem report_back_requests_capped (rng : Type)
    (shuffle : forall A : Type, rng -> list A -> list A * rng)
    (write_rrds : bool) (rules : list (string * EnforcerRule))
    (inventory : Inventory) (g : rng) :
  (forall (g0 : rng) (l : list product_item),
      fst (shuffle product_item g0 l) ≡ₚ l) ->
  Forall (fun r => destination_group_name (snd r) ∈ groups inventory) rules ->
  (forall g0 rule_name rule items g' dname,
      check_rule rng shuffle write_rrds inventory g0 rule_name rule = Some (items, g') ->
      let destinations := _get_sites (destination_sites rule) inventory in
      target_of rule destinations = Nat.min (num_copies rule) (size destinations) /\
      (requests_for dname items <= target_of rule destinations)%nat /\
      (requests_for dname items <= size destinations)%nat) /\
  (exists product,
      report_back rng shuffle write_rrds rules inventory g = Some product /\
      forall dname,
        (requests_for dname product
         <= sum_list
              (map (fun r => target_of (snd r)
                               (_get_sites (destination_sites (snd r)) inventory))
                   rules))%nat).
Proof.
  intros Hshuffle Hgroups. split.
  - intros g0 rule_name rule items g' dname Hrule destinations.
    pose proof (check_rule_capped _ _ _ _ _ _ _ _ _ dname Hrule) as Hcap.
    pose proof (target_of_min rule destinations) as Hmin.
    fold destinations in Hcap. split_and!; [done|done|lia].
  - destruct (check_rules_total rng shuffle write_rrds inventory rules g Hgroups)
      as [[product g'] Hrules].
    unfold report_back. rewrite Hrules.
    pose proof (fun dname => check_rules_capped _ _ _ _ _ _ _ _ dname Hrules) as Hcap.
    destruct write_rrds; simpl.
    + eauto.
    + eexists. split; [reflexivity|]. intros dname.
      unfold requests_for. rewrite (Hshuffle g' product). apply Hcap.
Qed.

Lemma report_back_requests_capped_witness :
  (forall g0 rule_name rule items g' dname,
      check_rule unit keep_order false sample_inventory g0 rule_name rule
        = Some (items, g') ->
      let destinations := _get_sites (destination_sites rule) sample_inventory in
      target_of rule destinations = Nat.min (num_copies rule) (size destinations) /\
      (requests_for dname items <= target_of rule destinations)%nat /\
      (requests_for dname items <= size destinations)%nat) /\
  (exists product,
      report_back unit keep_order false [("copy2", sample_rule)] sample_inventory tt
        = Some product /\
      forall dname,
        (requests_for dname product
         <= sum_list
              (map (fun r => target_of (snd r)
                               (_get_sites (destination_sites (snd r)) sample_inventory))
                   [("copy2", sample_rule)]))%nat).
Proof.
  apply (report_back_requests_capped unit keep_order false
           [("copy2", sample_rule)] sample_inventory tt).
  - intros g0 l. reflexivity.
  - constructor; [simpl; set_solver | constructor].
Defined.

(** On the sample inventory the rule asks for five copies, two sites match
    its destinations, and two requests are made. *)
Example report_back_sample :
  target_of sample_rule (_get_sites (destination_sites sample_rule) sample_inventory)
    = 2%nat /\
  exists s1 s2,
    report_back unit keep_order false [("copy2", sample_rule)] sample_inventory tt
      = Some [Request dataset_XYZ s1; Request dataset_XYZ s2].
Proof.
  split; [by vm_compute|]. eexists _, _. vm_compute. reflexivity.
Qed.

End Enforcer.

(* ===================================================================== *)
(** * lib/detox/policy.py: further properties                             *)
(* ===================================================================== *)

Module PolicyFacts.
Import Policy.

(** ** Sorting *)

Section SortFacts.
Context {A : Type}.

Lemma insert_by_key_least (x : Z * A) (l : list (Z * A)) :
  Forall (fun y => fst x <= fst y) l -> insert_by_key x l = x :: l.
Proof.
  destruct 1 as [|y ys Hy _]; simpl; [done|].
  destruct (Z.ltb_spec (fst y) (fst x)); [lia|done].
Qed.

Lemma stable_sort_ascending (l : list (Z * A)) :
  StronglySorted (fun p q => fst p <= fst q) l -> stable_sort l = l.
Proof.
  induction 1 as [|x l Hl IH Hx]; simpl; [done|].
  rewrite IH. by apply insert_by_key_least.
Qed.

Lemma StronglySorted_flip_reverse (R : relation (Z * A)) (l : list (Z * A)) :
  StronglySorted (flip R) l -> StronglySorted R (reverse l).
Proof.
  induction 1 as [|y ys Hys IH Hy]; [constructor|].
  rewrite reverse_cons. apply StronglySorted_app. split_and!.
  - intros p q Hp Hq. apply list_elem_of_singleton in Hq as ->.
    apply elem_of_reverse_2 in Hp. rewrite reverse_involutive in Hp.
    rewrite Forall_forall in Hy. by apply Hy.
  - done.
  - repeat constructor.
Qed.

Lemma decorate_None (key : A -> option Z) (l : list A) (a : A) :
  a ∈ l -> key a = None -> decorate key l = None.
Proof.
  induction l as [|x xs IH]; intros Hin Hkey; [by apply elem_of_nil in Hin|].
  simpl. apply elem_of_cons in Hin as [<-|Hin].
  - by rewrite Hkey.
  - destruct (key x); [|done]. by rewrite IH.
Qed.

Lemma decorated_sorted (key : A -> option Z) (d : list (Z * A)) :
  Forall (fun p => key (snd p) = Some (fst p)) d ->
  StronglySorted
    (fun a b => forall ka kb, key a = Some ka -> key b = Some kb -> kb <= ka)
    (snd <$> d) ->
  StronglySorted (flip (fun p q => fst p <= fst q)) d.
Proof.
  induction 1 as [|p d Hp Hd IH]; [constructor|].
  rewrite fmap_cons. intros Hs. apply StronglySorted_inv in Hs as [Hs Hall].
  constructor; [by apply IH|].
  rewrite Forall_fmap in Hall. rewrite Forall_forall in Hall, Hd.
  apply Forall_forall. intros q Hq. unfold flip. by apply (Hall q Hq); [|apply Hd].
Qed.

(** A list whose keys never increase is what [sorted(..., reverse = True)]
    returns for it. *)
Lemma sorted_reverse_fixed (key : A -> option Z) (l : list A) :
  Forall (fun a => is_Some (key a)) l ->
  StronglySorted
    (fun a b => forall ka kb, key a = Some ka -> key b = Some kb -> kb <= ka) l ->
  sorted l key true = Some l.
Proof.
  intros Hkeys Hs. destruct (decorate_is_Some key l Hkeys) as [d Hd].
  unfold sorted. rewrite Hd. apply decorate_Some in Hd as [Hl Hd].
  rewrite <- Hl in Hs. apply decorated_sorted in Hs; [|done].
  apply StronglySorted_flip_reverse in Hs.
  rewrite (stable_sort_ascending _ Hs), reverse_involutive. by rewrite Hl.
Qed.

End SortFacts.

Lemma rank_key_is_Some (demands : DemandManager) (r : DatasetReplica) :
  is_Some (rank_key demands r) <-> is_Some (dataset_demands demands !! dataset r).
Proof.
  unfold rank_key. destruct (dataset_demands demands !! dataset r); split;
    intros [? ?]; eauto; done.
Qed.

(** X1.  [sort_deletion_candidates] raises the [KeyError] of
    [demands.dataset_demands[r.dataset]] as soon as one candidate's dataset
    has no demand entry, whatever the other candidates are: no list is
    returned. *)
Theorem sort_deletion_candidates_missing_demand (replicas : list DatasetReplica)
    (demands : DemandManager) (r : DatasetReplica) :
  r ∈ replicas ->
  dataset_demands demands !! dataset r = None ->
  sort_deletion_candidates replicas demands = None.
Proof.
  intros Hin Hnone. unfold sort_deletion_candidates, sorted.
  rewrite (decorate_None (rank_key demands) replicas r Hin); [done|].
  unfold rank_key. by rewrite Hnone.
Qed.

Lemma sort_deletion_candidates_missing_demand_witness :
  sort_deletion_candidates
    (tie_replicas ++ [mkReplica "/C/x/y" "S1"]) tie_demands = None.
Proof.
  apply (sort_deletion_candidates_missing_demand _ tie_demands
           (mkReplica "/C/x/y" "S1")).
  - do 2 right. left.
  - reflexivity.
Defined.

(** X2.  Sorting is idempotent: what [sort_deletion_candidates] returns is
    returned unchanged when it is sorted again with the same demands. *)
Theorem sort_deletion_candidates_idempotent (replicas out : list DatasetReplica)
    (demands : DemandManager) :
  sort_deletion_candidates replicas demands = Some out ->
  sort_deletion_candidates out demands = Some out.
Proof.
  intros Hsort. unfold sort_deletion_candidates in *.
  pose proof (sorted_reverse_spec _ _ _ Hsort) as (Hperm & Hsorted & _).
  apply sorted_reverse_fixed; [|done].
  rewrite Hperm. unfold sorted in Hsort.
  destruct (decorate (rank_key demands) replicas) as [d|] eqn:Hd; [|done].
  apply decorate_Some in Hd as [<- Hd]. apply Forall_fmap.
  eapply Forall_impl; [exact Hd|]. simpl. intros p ->. eauto.
Qed.

Lemma sort_deletion_candidates_idempotent_witness :
  sort_deletion_candidates tie_replicas tie_demands = Some tie_replicas.
Proof.
  apply (sort_deletion_candidates_idempotent tie_replicas tie_replicas tie_demands).
  reflexivity.
Defined.

(** ** Rules appended to a policy *)

Lemma evaluate_loop_app_none (rs1 rs2 : list rule) (i : nat)
    (replica : DatasetReplica) (dm : DemandManager) (called : list nat) :
  Forall (fun q => q replica dm = None) rs1 ->
  evaluate_loop (rs1 ++ rs2) i replica dm called
  = evaluate_loop rs2 (i + length rs1) replica dm (called ++ seq i (length rs1)).
Proof.
  intros Hrs. revert i called.
  induction Hrs as [|q rs Hq _ IH]; intros i called; simpl.
  - by rewrite Nat.add_0_r, app_nil_r.
  - rewrite Hq, IH, <- app_assoc. simpl. f_equal. lia.
Qed.

Lemma evaluate_loop_app_some (rs1 rs2 : list rule) (i : nat)
    (replica : DatasetReplica) (dm : DemandManager) (called : list nat) :
  Exists (fun q => q replica dm <> None) rs1 ->
  evaluate_loop (rs1 ++ rs2) i replica dm called
  = evaluate_loop rs1 i replica dm called.
Proof.
  intros Hrs. revert i called.
  induction rs1 as [|q rs IH]; intros i called; [by inversion Hrs|].
  simpl. destruct (q replica dm) eqn:Hq; [done|].
  apply IH. inversion Hrs; subst; [congruence|done].
Qed.

Lemma evaluate_loop_verdict (rs : list rule) (i j : nat)
    (replica : DatasetReplica) (dm : DemandManager) (called called' : list nat) :
  fst (evaluate_loop rs i replica dm called)
  = fst (evaluate_loop rs j replica dm called').
Proof.
  revert i j called called'.
  induction rs as [|q rs IH]; intros i j called called'; simpl; [done|].
  destruct (q replica dm); [done|]. apply IH.
Qed.

(** X3.  Rules added at the end of a policy's rule list change nothing for a
    replica that an earlier rule decides: the verdict and the rules called
    are the same.  When no earlier rule decides, the verdict is the one of
    the added rules alone (with the same default). *)
Theorem evaluate_rules_appended (default : decision) (rs1 rs2 : list rule)
    (replica : DatasetReplica) (dm : DemandManager) :
  (Exists (fun q => q replica dm <> None) rs1 ->
     evaluate (mkPolicy default (rs1 ++ rs2)) replica dm
     = evaluate (mkPolicy default rs1) replica dm) /\
  (Forall (fun q => q replica dm = None) rs1 ->
     fst (evaluate (mkPolicy default (rs1 ++ rs2)) replica dm)
     = fst (evaluate (mkPolicy default rs2) replica dm)).
Proof.
  split.
  - intros Hrs. unfold evaluate. simpl. by rewrite evaluate_loop_app_some.
  - intros Hrs. unfold evaluate. simpl. rewrite evaluate_loop_app_none by done.
    pose proof (evaluate_loop_verdict rs2 (0 + length rs1) 0 replica dm
                  ([] ++ seq 0 (length rs1)) []) as Hv.
    destruct (evaluate_loop rs2 (0 + length rs1) _ _ _) as [[v|] c].
    + destruct (evaluate_loop rs2 0 _ _ _) as [[v'|] c']; simpl in *; congruence.
    + destruct (evaluate_loop rs2 0 _ _ _) as [[v'|] c']; simpl in *; congruence.
Qed.

Lemma evaluate_rules_appended_witness :
  evaluate (mkPolicy DEC_DELETE ([rule_none; rule_keep] ++ [rule_protect]))
    (mkReplica "/A/x/y" "S1") tie_demands
  = evaluate (mkPolicy DEC_DELETE [rule_none; rule_keep])
      (mkReplica "/A/x/y" "S1") tie_demands /\
  fst (evaluate (mkPolicy DEC_DELETE ([rule_none] ++ [rule_protect]))
         (mkReplica "/A/x/y" "S1") tie_demands)
  = fst (evaluate (mkPolicy DEC_DELETE [rule_protect])
           (mkReplica "/A/x/y" "S1") tie_demands).
Proof.
  split.
  - apply (proj1 (evaluate_rules_appended DEC_DELETE [rule_none; rule_keep]
                    [rule_protect] _ tie_demands)).
    right. left. discriminate.
  - apply (proj2 (evaluate_rules_appended DEC_DELETE [rule_none]
                    [rule_protect] (mkReplica "/A/x/y" "S1") tie_demands)).
    repeat constructor.
Defined.

End PolicyFacts.

(* ===================================================================== *)
(** * lib/common/interface/webservice.py: the request and its retries     *)
(* ===================================================================== *)

Module WebServiceRequest.
Import WebService.

(** ** The options of a request *)

(** An element of a list of options: a ["key=value"] string or a
    [(key, value)] tuple. *)
Inductive opt :=
| OptStr (s : string)
| OptTuple (key value : string).

(** A value of the dictionary sent as JSON: what was given, or the list into
    which the values of a repeated key are collapsed. *)
Inductive jvalue :=
| JStr (s : string)
| JList (l : list string).

(** [options]: a list, a string or a dictionary (as the list of its
    items). *)
Inductive options :=
| OptionsList (l : list opt)
| OptionsStr (s : string)
| OptionsDict (d : list (string * jvalue)).

Inductive http_method := GET | POST.

(** The argument of [urllib.urlencode] or [json.dumps] whose result is the
    data of the request. *)
Inductive payload :=
| PairList (l : list (string * string))
| Text (s : string)
| Dict (d : list (string * jvalue))
| Collapsed (d : gmap string jvalue).

Inductive request_data :=
| UrlEncoded (p : payload)            (* [urllib.urlencode(options)] *)
| JsonDumped (p : payload).           (* [json.dumps(options)] *)

Record request := mkRequest {
  req_url : string;
  req_headers : list (string * string);
  req_data : option request_data
}.

Inductive prepare_error :=
| TypeError
| UnboundLocalError.

(** [len(options)] *)
Definition options_len (o : options) : nat :=
  match o with
  | OptionsList l => length l
  | OptionsStr s => String.length s
  | OptionsDict d => length d
  end.

(** ['&'.join(options)]: every element has to be a string. *)
Fixpoint join_options (l : list opt) : option string :=
  match l with
  | [] => Some ""
  | OptTuple _ _ :: _ => None
  | [OptStr s] => Some s
  | OptStr s :: rest =>
      match join_options rest with
      | Some t => Some (s ++ "&" ++ t)%string
      | None => None
      end
  end.

(** [s.partition('=')]: the part before the first ['='], the separator if
    there is one, and the rest. *)
Fixpoint partition_eq (s : string) : string * string * string :=
  match s with
  | EmptyString => ("", "", "")
  | String c rest =>
      if Ascii.eqb c "="%char then ("", "=", rest)
      else let '(head, eq, tail) := partition_eq rest in (String c head, eq, tail)
  end.

(** "convert key=value strings to (key, value) 2-tuples" *)
Fixpoint to_optlist (l : list opt) : list (string * string) :=
  match l with
  | [] => []
  | OptTuple key value :: rest => (key, value) :: to_optlist rest
  | OptStr s :: rest =>
      let '(key, eq, value) := partition_eq s in
      if String.eqb eq "=" then (key, value) :: to_optlist rest
      else to_optlist rest
  end.

(** One turn of [for key, value in options] on [optdict]: a first value is
    stored as it is, a second one makes the list of the two
    ([AttributeError]: a string has no [append]), a further one is
    appended. *)
Definition collapse_step (optdict : gmap string jvalue) (kv : string * string)
    : gmap string jvalue :=
  match optdict !! fst kv with
  | Some (JList l) => <[fst kv := JList (l ++ [snd kv])]> optdict
  | Some (JStr current) => <[fst kv := JList [current; snd kv]]> optdict
  | None => <[fst kv := JStr (snd kv)]> optdict
  end.

Definition collapse (l : list (string * string)) : gmap string jvalue :=
  foldl collapse_step ∅ l.

(** [make_request] up to the loop of attempts: the request that will be
    opened, or the exception raised on the way. *)
Definition prepare_request (self : RESTService) (resource : string)
    (o : options) (method : http_method) (format : string)
    : prepare_error + request :=
  let base := (url_base self ++ "/" ++ resource)%string in
  match method with
  | GET =>
      if Nat.eqb (options_len o) 0 then inr (mkRequest base [] None)
      else
        match o with
        | OptionsList l =>
            match join_options l with
            | Some q => inr (mkRequest (base ++ "?" ++ q)%string [] None)
            | None => inl TypeError
            end
        | OptionsStr s => inr (mkRequest (base ++ "?" ++ s)%string [] None)
        | OptionsDict _ => inr (mkRequest base [] None)
        end
  | POST =>
      if Nat.eqb (options_len o) 0 then inr (mkRequest base [] None)
      else
        let converted :=
          match o with
          | OptionsList l => PairList (to_optlist l)
          | OptionsStr s => Text s
          | OptionsDict d => Dict d
          end in
        if String.eqb format "url" then
          match converted with
          | Text _ => inl TypeError
          | _ => inr (mkRequest base [] (Some (UrlEncoded converted)))
          end
        else if String.eqb format "json" then
          let dumped :=
            match converted with
            | PairList l => Collapsed (collapse l)
            | other => other
            end in
          inr (mkRequest base [("Content-type", "application/json")]
                 (Some (JsonDumped dumped)))
        else inl UnboundLocalError
  end.

(** The values given for a key, in the order of the list. *)
Definition values_of (key : string) (l : list (string * string)) : list string :=
  map snd (filter (fun kv => fst kv = key) l).

(** The dictionary entry for a list of values. *)
Definition collapsed_value (vs : list string) : option jvalue :=
  match vs with
  | [] => None
  | [v] => Some (JStr v)
  | _ => Some (JList vs)
  end.

(** A key that holds no ['=']. *)
Fixpoint no_eq (s : string) : bool :=
  match s with
  | EmptyString => true
  | String c rest => negb (Ascii.eqb c "="%char) && no_eq rest
  end.

(** ["key=value"] *)
Definition key_value (kv : string * string) : opt :=
  OptStr (fst kv ++ "=" ++ snd kv)%string.

(** ** Options *)

Lemma partition_eq_key_value (key value : string) :
  no_eq key = true -> partition_eq (key ++ "=" ++ value)%string = (key, "=", value).
Proof.
  induction key as [|c key IH]; simpl; [done|].
  intros [Hc Hkey]%andb_true_iff. apply negb_true_iff in Hc. rewrite Hc.
  by rewrite (IH Hkey).
Qed.

Lemma partition_eq_no_eq (s : string) :
  no_eq s = true -> partition_eq s = (s, "", "").
Proof.
  induction s as [|c s IH]; simpl; [done|].
  intros [Hc Hs]%andb_true_iff. apply negb_true_iff in Hc. rewrite Hc.
  by rewrite (IH Hs).
Qed.

Lemma to_optlist_key_value (pairs : list (string * string)) :
  Forall (fun kv => no_eq (fst kv) = true) pairs ->
  to_optlist (map key_value pairs) = pairs.
Proof.
  induction 1 as [|[key value] pairs Hkey _ IH]; simpl; [done|].
  rewrite (partition_eq_key_value key value Hkey). simpl. by rewrite IH.
Qed.

Lemma to_optlist_tuples (pairs : list (string * string)) :
  to_optlist (map (fun kv => OptTuple (fst kv) (snd kv)) pairs) = pairs.
Proof. induction pairs as [|[key value] pairs IH]; simpl; [done|]. by rewrite IH. Qed.

Lemma to_optlist_app (l1 l2 : list opt) :
  to_optlist (l1 ++ l2) = to_optlist l1 ++ to_optlist l2.
Proof.
  induction l1 as [|[s|key value] l1 IH]; simpl; [done| |by rewrite IH].
  destruct (partition_eq s) as [[key eq] value].
  destruct (String.eqb eq "="); simpl; by rewrite IH.
Qed.

(** X4.  In a POST request with a list of options, ["key=value"] strings and
    [(key, value)] tuples are interchangeable: for keys that hold no ['='],
    both forms give the request whose data encodes the pairs, in the order
    of the list and with repeated keys kept.  A string without ['='] is left
    out of the data, wherever it stands in the list. *)
Theorem post_options_as_pairs (self : RESTService) (resource : string)
    (pairs : list (string * string)) :
  pairs <> [] ->
  Forall (fun kv => no_eq (fst kv) = true) pairs ->
  prepare_request self resource (OptionsList (map key_value pairs)) POST "url"
    = inr (mkRequest (url_base self ++ "/" ++ resource)%string []
             (Some (UrlEncoded (PairList pairs)))) /\
  prepare_request self resource
      (OptionsList (map (fun kv => OptTuple (fst kv) (snd kv)) pairs)) POST "url"
    = inr (mkRequest (url_base self ++ "/" ++ resource)%string []
             (Some (UrlEncoded (PairList pairs)))) /\
  (forall s before after,
      no_eq s = true ->
      prepare_request self resource
          (OptionsList (map key_value before ++ OptStr s :: map key_value after))
          POST "url"
      = inr (mkRequest (url_base self ++ "/" ++ resource)%string []
               (Some (UrlEncoded
                        (PairList (to_optlist (map key_value before)
                                   ++ to_optlist (map key_value after))))))).
Proof.
  intros Hne Hkeys. split_and!.
  - unfold prepare_request. simpl. rewrite length_map.
    destruct pairs; [done|]. simpl Nat.eqb. cbv iota.
    by rewrite to_optlist_key_value.
  - unfold prepare_request. simpl. rewrite length_map.
    destruct pairs; [done|]. simpl Nat.eqb. cbv iota.
    by rewrite to_optlist_tuples.
  - intros s before after Hs. unfold prepare_request. simpl.
    rewrite length_app. simpl. rewrite Nat.add_succ_r. simpl.
    rewrite to_optlist_app. simpl. by rewrite (partition_eq_no_eq s Hs).
Qed.

Lemma post_options_as_pairs_witness :
  prepare_request phedex "blockreplicasummary"
      (OptionsList [OptStr "node=T*MSS"; OptStr "dataset=/A/B/C"]) POST "url"
    = inr (mkRequest "https://cmsweb.cern.ch/phedex/datasvc/json/prod/blockreplicasummary" []
             (Some (UrlEncoded (PairList [("node", "T*MSS"); ("dataset", "/A/B/C")])))).
Proof.
  exact (proj1 (post_options_as_pairs phedex "blockreplicasummary"
                  [("node", "T*MSS"); ("dataset", "/A/B/C")]
                  ltac:(discriminate) ltac:(repeat constructor))).
Defined.

Lemma collapsed_value_snoc (vs : list string) (v : string) :
  collapsed_value (vs ++ [v])
  = match collapsed_value vs with
    | Some (JList l) => Some (JList (l ++ [v]))
    | Some (JStr current) => Some (JList [current; v])
    | None => Some (JStr v)
    end.
Proof. destruct vs as [|a [|b vs]]; try done. Qed.

Lemma collapse_steps_lookup (l : list (string * string)) (key : string)
    (vs : list string) (optdict : gmap string jvalue) :
  optdict !! key = collapsed_value vs ->
  foldl collapse_step optdict l !! key = collapsed_value (vs ++ values_of key l).
Proof.
  revert vs optdict. induction l as [|[k v] l IH]; intros vs optdict Hdict; simpl.
  - unfold values_of. simpl. by rewrite app_nil_r.
  - unfold values_of. rewrite filter_cons. simpl.
    destruct (decide (k = key)) as [->|Hne].
    + simpl.
      match goal with
      | |- context [vs ++ v :: ?r] => change (vs ++ v :: r) with (vs ++ [v] ++ r)
      end.
      rewrite (app_assoc vs [v]). apply IH.
      unfold collapse_step. simpl. rewrite Hdict, collapsed_value_snoc.
      destruct (collapsed_value vs) as [[current|vs']|]; by rewrite lookup_insert_eq.
    + apply IH. unfold collapse_step. simpl.
      destruct (optdict !! k) as [[current|vs']|]; by rewrite lookup_insert_ne.
Qed.

(** X5.  In a POST request sent as JSON with a list of options, the list is
    collapsed into a dictionary that loses no value: a key given once maps
    to its value, a key given several times to the list of its values in the
    order of the options, and a key never given is absent.  The request is
    marked [Content-type: application/json]. *)
Theorem post_json_collapses_repeated_keys (self : RESTService) (resource : string)
    (l : list opt) :
  l <> [] ->
  exists optdict,
    prepare_request self resource (OptionsList l) POST "json"
      = inr (mkRequest (url_base self ++ "/" ++ resource)%string
               [("Content-type", "application/json")]
               (Some (JsonDumped (Collapsed optdict)))) /\
    forall key, optdict !! key = collapsed_value (values_of key (to_optlist l)).
Proof.
  intros Hne. exists (collapse (to_optlist l)). split.
  - unfold prepare_request. simpl. by destruct l.
  - intros key. apply (collapse_steps_lookup _ key []). by rewrite lookup_empty.
Qed.

Lemma post_json_collapses_repeated_keys_witness :
  exists optdict,
    prepare_request phedex "data"
        (OptionsList [OptTuple "level" "block"; OptStr "dataset=/A/B/C";
                      OptTuple "dataset" "/D/E/F"; OptStr "dataset=/G/H/I"])
        POST "json"
      = inr (mkRequest "https://cmsweb.cern.ch/phedex/datasvc/json/prod/data"
               [("Content-type", "application/json")]
               (Some (JsonDumped (Collapsed optdict)))) /\
    forall key,
      optdict !! key
      = collapsed_value
          (values_of key
             [("level", "block"); ("dataset", "/A/B/C"); ("dataset", "/D/E/F");
              ("dataset", "/G/H/I")]).
Proof.
  exact (post_json_collapses_repeated_keys phedex "data"
           [OptTuple "level" "block"; OptStr "dataset=/A/B/C";
            OptTuple "dataset" "/D/E/F"; OptStr "dataset=/G/H/I"]
           ltac:(discriminate)).
Defined.

Lemma string_app_assoc (a b c : string) :
  ((a ++ b) ++ c = a ++ (b ++ c))%string.
Proof.
  induction a as [|x a IH]; [reflexivity|].
  change (String x ((a ++ b) ++ c) = String x (a ++ (b ++ c)))%string.
  by rewrite IH.
Qed.

Lemma join_options_strings (strs : list string) :
  join_options (map OptStr strs) = Some (String.concat "&" strs).
Proof.
  induction strs as [|a [|b strs] IH]; try done.
  change (join_options (map OptStr (a :: b :: strs)))
    with (match join_options (map OptStr (b :: strs)) with
          | Some t => Some (a ++ "&" ++ t)%string
          | None => None
          end).
  by rewrite IH.
Qed.

(** X6.  A GET request never carries data, and a POST request never has a
    query string.  In a GET request a list of strings is appended to the URL
    after ['?'], joined with ['&']; a dictionary of options is not sent at
    all: the URL is the one of the bare resource. *)
Theorem get_options_in_url (self : RESTService) (resource format : string) :
  (forall o req,
      prepare_request self resource o GET format = inr req -> req_data req = None) /\
  (forall o req,
      prepare_request self resource o POST format = inr req ->
      req_url req = (url_base self ++ "/" ++ resource)%string) /\
  (forall strs,
      strs <> [] ->
      prepare_request self resource (OptionsList (map OptStr strs)) GET format
      = inr (mkRequest
               (url_base self ++ "/" ++ resource ++ "?" ++ String.concat "&" strs)%string
               [] None)) /\
  (forall d,
      prepare_request self resource (OptionsDict d) GET format
      = inr (mkRequest (url_base self ++ "/" ++ resource)%string [] None)).
Proof.
  split_and!.
  - intros o req. unfold prepare_request.
    destruct (Nat.eqb _ _); [by intros [= <-]|].
    destruct o as [l|s|d]; [|by intros [= <-]..].
    destruct (join_options l); [by intros [= <-]|done].
  - intros o req. unfold prepare_request.
    destruct (Nat.eqb _ _); [by intros [= <-]|].
    destruct (String.eqb format "url").
    + destruct o; [by intros [= <-]|done|by intros [= <-]].
    + destruct (String.eqb format "json"); [by intros [= <-]|done].
  - intros strs Hne. unfold prepare_request. simpl. rewrite length_map.
    destruct strs as [|a strs]; [done|]. simpl Nat.eqb. cbv iota.
    rewrite join_options_strings.
    by rewrite !string_app_assoc.
  - intros d. unfold prepare_request. by destruct (Nat.eqb _ _).
Qed.

Lemma get_options_in_url_witness :
  prepare_request phedex "blockreplicas"
      (OptionsList [OptStr "subscribed=y"; OptStr "node=T2_A"]) GET "url"
  = inr (mkRequest
           "https://cmsweb.cern.ch/phedex/datasvc/json/prod/blockreplicas?subscribed=y&node=T2_A"
           [] None).
Proof.
  exact (proj1 (proj2 (proj2 (get_options_in_url phedex "blockreplicas" "url")))
           ["subscribed=y"; "node=T2_A"] ltac:(discriminate)).
Defined.

(** ** Attempts *)

Section Attempts.
Variable body : Type.
Variable json_loads : string -> body + exc_info.
Variable unicode2str : body -> body.
Variable num_attempts : nat.
Variable server : nat -> response.
Variable self : RESTService.

Local Abbreviation attempt := (attempt body json_loads unicode2str).
Local Abbreviation request_loop :=
  (request_loop body json_loads unicode2str num_attempts server).

(** What the loop has seen when it returns. *)
Definition faithful (f : final body) : Prop :=
  (calls f <= num_attempts)%nat /\
  (forall i, (i + 1 < calls f)%nat -> exists e, attempt self (server i) = inr e) /\
  match result_of f with
  | Returned result =>
      (0 < calls f)%nat /\ attempt self (server (calls f - 1)) = inl result
  | Raised e =>
      calls f = num_attempts /\
      e = mkException "RuntimeError" [ArgStr "webservice too many attempts"] /\
      forall i, (i < num_attempts)%nat -> exists e', attempt self (server i) = inr e'
  end.

Lemma request_loop_faithful (fuel : nat) (exceptions : list exc_info) (f : final body) :
  (length exceptions <= num_attempts)%nat ->
  (forall i, (i < length exceptions)%nat -> exists e, attempt self (server i) = inr e) ->
  request_loop fuel self (length exceptions) exceptions = Some f ->
  faithful f.
Proof.
  revert exceptions. induction fuel as [|fuel IH]; intros exceptions Hle Hfailed; [done|].
  simpl. destruct (Nat.eqb_spec (length exceptions) num_attempts) as [Heq|Hne].
  - intros [= <-]. unfold faithful. simpl. split_and!; try done.
    + intros i Hi. apply Hfailed. lia.
    + intros i Hi. apply Hfailed. lia.
  - destruct (attempt self (server (length exceptions))) as [result|e] eqn:Hattempt.
    + intros [= <-]. unfold faithful. simpl. split_and!; try lia.
      * intros i Hi. apply Hfailed. lia.
      * by rewrite Nat.sub_0_r.
    + replace (S (length exceptions)) with (length (exceptions ++ [e]))
        by (rewrite length_app; simpl; lia).
      apply IH.
      * rewrite length_app. simpl. lia.
      * intros i Hi. rewrite length_app in Hi. simpl in Hi.
        destruct (decide (i = length exceptions)) as [->|]; [eauto|].
        apply Hfailed. lia.
Qed.

End Attempts.

(** X7.  Whatever the server does, [make_request] ends after at most
    [num_attempts] calls.  It returns a body only from a call that
    succeeded, every call before it having failed, and it raises only after
    [num_attempts] calls that all failed; it never gives up earlier and
    never calls again after a success. *)
Theorem make_request_bounded (body : Type) (json_loads : string -> body + exc_info)
    (unicode2str : body -> body) (num_attempts : nat) (server : nat -> response)
    (self : RESTService) :
  exists f,
    make_request body json_loads unicode2str num_attempts server self = Some f /\
    faithful body json_loads unicode2str num_attempts server self f.
Proof.
  destruct (make_request_total body json_loads unicode2str num_attempts server self)
    as [f Hf].
  exists f. split; [done|].
  apply (request_loop_faithful _ _ _ _ _ _ (S num_attempts) []); simpl; [lia| |done].
  intros i Hi. lia.
Qed.

(** X8.  With an [accept] other than ['application/json'] no call can
    succeed: [result] is never assigned, every answer of the server ends in
    an exception, and after [num_attempts] calls [make_request] raises, also
    against a server that answers every call. *)
Theorem make_request_other_accept (body : Type)
    (json_loads : string -> body + exc_info) (unicode2str : body -> body)
    (num_attempts : nat) (server : nat -> response) (self : RESTService) :
  String.eqb (accept self) "application/json" = false ->
  exists f,
    make_request body json_loads unicode2str num_attempts server self = Some f /\
    calls f = num_attempts /\
    result_of f
    = Raised (mkException "RuntimeError" [ArgStr "webservice too many attempts"]).
Proof.
  intros Haccept.
  destruct (make_request_total body json_loads unicode2str num_attempts server self)
    as [f Hf].
  exists f. split; [done|].
  assert (Hfaith : faithful body json_loads unicode2str num_attempts server self f).
  { apply (request_loop_faithful _ _ _ _ _ _ (S num_attempts) []); simpl; [lia| |done].
    intros i Hi. lia. }
  destruct Hfaith as (_ & _ & Hres).
  destruct (result_of f) as [result|e].
  - destruct Hres as [_ Hok]. unfold attempt in Hok. rewrite Haccept in Hok.
    by destruct (server (calls f - 1)%nat).
  - destruct Hres as (Hcalls & -> & _). done.
Qed.

Lemma make_request_other_accept_witness :
  exists f,
    make_request string loads_any id 3 (fun _ => Content "<xml/>")
      (mkREST "http://dashb-ssb.cern.ch/dashboard/request.py" [] "application/xml")
      = Some f /\
    calls f = 3%nat /\
    result_of f
    = Raised (mkException "RuntimeError" [ArgStr "webservice too many attempts"]).
Proof.
  apply (make_request_other_accept string loads_any id 3 (fun _ => Content "<xml/>")
           (mkREST "http://dashb-ssb.cern.ch/dashboard/request.py" [] "application/xml")).
  reflexivity.
Defined.

End WebServiceRequest.

(* ===================================================================== *)
(** * lib/common/interface/phedexdbsssb.py: the replica pass and chunks   *)
(* ===================================================================== *)

Module PhEDExFacts.
Import PhEDEx.

(** ** Groups of replicas *)

(** X9.  In the merge of the group information, a dataset replica whose
    group is still unset and whose first block replica is owned by a group
    ends with invariant 5: its group is [g] exactly when all its block
    replicas are owned by [g], and null otherwise, also when a later block
    replica has no owner. *)
Theorem merge_replica_invariant_first_owned (replica : DatasetReplica)
    (br : BlockReplica) (rest : list BlockReplica) (g0 : Group) :
  group replica = None ->
  block_replicas replica = br :: rest ->
  br_group br = Some g0 ->
  group_invariant (merge_replica replica) /\
  group (merge_replica replica)
  = if bool_decide (Forall (fun b => br_group b = Some g0) rest) then Some g0 else None.
Proof.
  intros Hg Hbrs Hbr. split.
  - intros _ g. cbn [merge_replica group block_replicas].
    rewrite Hg, Hbrs. cbn [merge_group]. rewrite Hbr, merge_group_Some.
    case_bool_decide as Hall; split.
    + intros [= <-]. by constructor.
    + intros Hg'. inversion Hg'; congruence.
    + done.
    + intros Hg'. inversion Hg' as [|? ? Hb Hr]; subst.
      rewrite Hbr in Hb. inversion Hb; subst. done.
  - cbn [merge_replica group]. rewrite Hg, Hbrs. cbn [merge_group].
    by rewrite Hbr, merge_group_Some.
Qed.

Definition replica_owned_then_null : DatasetReplica :=
  mkDatasetReplica dataset_D "T2_A" true false false 10 None
    [mkBlockReplica block_b1 "T2_A" (Some AnalysisOps) true false 100;
     mkBlockReplica block_b2 "T2_A" None true false 100].

Lemma merge_replica_invariant_first_owned_witness :
  group_invariant (merge_replica replica_owned_then_null) /\
  group (merge_replica replica_owned_then_null) = None.
Proof.
  exact (merge_replica_invariant_first_owned replica_owned_then_null
           (mkBlockReplica block_b1 "T2_A" (Some AnalysisOps) true false 100)
           [mkBlockReplica block_b2 "T2_A" None true false 100] AnalysisOps
           eq_refl eq_refl eq_refl).
Defined.

(** X10.  With the dictionary of groups keyed by group name, the second pass
    never reaches its warning for a group that is not registered: whatever
    the group filter, a replica entry of such a group leaves the state of
    the pass as it was (no [BlockReplica], no [DatasetReplica], no log
    record), and so does an entry whose group is null. *)
Theorem unregistered_group_entry_skipped (fnmatch : string -> string -> bool)
    (sites : gmap string Site) (groups : gmap string Group) (group_filt : string)
    (dataset : Dataset) (block : Block) (st : pass2_state) (entry : replica_entry) :
  map_Forall (fun k g => group_name g = k) groups ->
  match re_group entry with
  | Some gname => groups !! gname = None
  | None => True
  end ->
  process_replica_entry sites groups (gname_list_of fnmatch groups group_filt)
    dataset block st entry = inr st.
Proof.
  intros Hwf Hentry. apply process_replica_entry_not_listed.
  destruct (re_group entry) as [gname|]; [|done].
  simpl. apply bool_decide_eq_false_2. intros Hin.
  apply (gname_list_of_registered _ _ _ _ Hwf) in Hin as [g Hg]. congruence.
Qed.

Lemma unregistered_group_entry_skipped_witness :
  process_replica_entry sample_sites sample_groups
    (gname_list_of any_name sample_groups "*") dataset_D block_b1
    (mkPass2 [] []) entry_unknown_group
  = inr (mkPass2 [] []).
Proof.
  apply (unregistered_group_entry_skipped any_name sample_sites sample_groups "*").
  - apply map_Forall_insert_2; [reflexivity|]. apply map_Forall_empty.
  - reflexivity.
Defined.

(** ** What the second pass builds *)

(** A dataset replica as the second pass leaves it: it has block replicas,
    all at its own site; it is complete exactly when all of them are, and
    custodial exactly when one of them is; its group and [is_partial] are
    still the initial ones. *)
Definition replica_ok (dr : DatasetReplica) : Prop :=
  is_complete dr = forallb br_is_complete (block_replicas dr) /\
  is_custodial dr = existsb br_is_custodial (block_replicas dr) /\
  Forall (fun br => br_site br = dr_site dr) (block_replicas dr) /\
  group dr = None /\ is_partial dr = false.

Definition replica_built (sites : gmap string Site) (dataset_array : list Dataset)
    (block_array : list Block) (dr : DatasetReplica) : Prop :=
  replica_ok dr /\
  block_replicas dr <> [] /\
  dr_dataset dr ∈ dataset_array /\
  (exists node site, sites !! node = Some site /\ dr_site dr = site_name site) /\
  Forall (fun br => br_block br ∈ block_array) (block_replicas dr).

Lemma lookup_replica_Some (site : string) (drs : list DatasetReplica)
    (dr : DatasetReplica) :
  lookup_replica site drs = Some dr -> dr ∈ drs /\ dr_site dr = site.
Proof.
  induction drs as [|d drs IH]; simpl; [done|].
  destruct (String.eqb_spec (dr_site d) site) as [Heq|Hne].
  - intros [= <-]. split; [by left|done].
  - intros H. destruct (IH H). split; [by right|done].
Qed.

Lemma lookup_replica_None (site : string) (drs : list DatasetReplica) :
  lookup_replica site drs = None -> site ∉ map dr_site drs.
Proof.
  induction drs as [|d drs IH]; simpl; [intros _; apply not_elem_of_nil|].
  destruct (String.eqb_spec (dr_site d) site) as [Heq|Hne]; [done|].
  intros H. apply not_elem_of_cons. split; [congruence|by apply IH].
Qed.

Lemma update_replica_sites (dr' : DatasetReplica) (drs : list DatasetReplica) :
  map dr_site (update_replica dr' drs) = map dr_site drs.
Proof.
  induction drs as [|d drs IH]; simpl; [done|].
  destruct (String.eqb_spec (dr_site d) (dr_site dr')) as [Heq|Hne]; simpl.
  - by rewrite Heq.
  - by rewrite IH.
Qed.

Lemma update_replica_Forall (P : DatasetReplica -> Prop) (dr' : DatasetReplica)
    (drs : list DatasetReplica) :
  P dr' ->
  Forall (fun d => dr_site d <> dr_site dr' -> P d) drs ->
  dr_site dr' ∈ map dr_site drs ->
  NoDup (map dr_site drs) ->
  Forall P (update_replica dr' drs).
Proof.
  intros Hdr'. induction drs as [|d drs IH]; simpl; [constructor|].
  intros Hall Hin Hnodup. apply Forall_cons in Hall as [Hd Hall].
  apply NoDup_cons in Hnodup as [Hnot Hnodup].
  destruct (String.eqb_spec (dr_site d) (dr_site dr')) as [Heq|Hne].
  - constructor; [done|]. rewrite Heq in Hnot.
    apply Forall_forall. intros x Hx. rewrite Forall_forall in Hall.
    apply Hall; [done|]. intros Hsite. apply Hnot. rewrite <- Hsite.
    apply list_elem_of_fmap. eauto.
  - constructor; [by apply Hd|]. apply IH; [done| |done].
    apply elem_of_cons in Hin as [Hin|Hin]; [congruence|done].
Qed.

(** The state of the pass over the entries of one dataset. *)
Definition pass2_inv (sites : gmap string Site) (dataset : Dataset)
    (block_array : list Block) (st : pass2_state) : Prop :=
  NoDup (map dr_site (dataset_replicas st)) /\
  Forall (replica_built sites [dataset] block_array) (dataset_replicas st).

Lemma process_replica_entry_inv (sites : gmap string Site)
    (groups : gmap string Group) (gname_list : list string)
    (dataset : Dataset) (block : Block) (block_array : list Block)
    (st st' : pass2_state) (entry : replica_entry) :
  block ∈ block_array ->
  pass2_inv sites dataset block_array st ->
  process_replica_entry sites groups gname_list dataset block st entry = inr st' ->
  pass2_inv sites dataset block_array st'.
Proof.
  intros Hblock [Hnodup Hall]. unfold process_replica_entry.
  destruct (negb (group_in _ _)); [by intros [= <-]|].
  destruct (match re_group entry with Some _ => _ | None => _ end) as [grp warns].
  destruct (sites !! re_node entry) as [site|] eqn:Hsite; [|done].
  destruct (lookup_replica (site_name site) (dataset_replicas st)) as [dr|] eqn:Hlookup.
  - apply lookup_replica_Some in Hlookup as [Hin Hdrsite].
    intros [= <-]. unfold pass2_inv. simpl. rewrite update_replica_sites.
    split; [done|]. apply update_replica_Forall; simpl; try done.
    + rewrite Forall_forall in Hall.
      destruct (Hall dr Hin) as ((Hc & Hcu & Hs & Hg & Hp) & _ & Hd & Hnode & Hb).
      split_and!; simpl; try done.
      * split_and!; simpl; try done.
        -- rewrite forallb_app. simpl. rewrite Hc.
           destruct (forallb _ _), (_ || _); done.
        -- rewrite existsb_app. simpl. rewrite Hcu.
           destruct (existsb _ _), (String.eqb _ _); done.
        -- apply Forall_app. split; [done|]. by repeat constructor.
      * by destruct (block_replicas dr).
      * apply Forall_app. split; [done|]. by repeat constructor.
    + eapply Forall_impl; [exact Hall|]. by intros d Hd _.
    + rewrite Hdrsite. apply list_elem_of_fmap. eauto.
  - apply lookup_replica_None in Hlookup.
    intros [= <-]. unfold pass2_inv. simpl. rewrite update_replica_sites.
    rewrite map_app. simpl.
    assert (Hnodup' : NoDup (map dr_site (dataset_replicas st) ++ [site_name site])).
    { apply NoDup_app. split_and!; [done| |apply NoDup_singleton].
      intros x Hx Hx'. apply list_elem_of_singleton in Hx' as ->. done. }
    split; [done|]. apply update_replica_Forall; simpl.
    + split_and!; simpl; try done.
      * split_and!; simpl; try done.
        -- by destruct (_ || _).
        -- by repeat constructor.
      * by left.
      * eauto.
      * by repeat constructor.
    + apply Forall_app. split.
      * eapply Forall_impl; [exact Hall|]. by intros d Hd _.
      * by repeat constructor.
    + rewrite map_app. simpl. apply elem_of_app. right. by left.
    + by rewrite map_app.
Qed.

Lemma process_replica_entries_inv (sites : gmap string Site)
    (groups : gmap string Group) (gname_list : list string)
    (dataset : Dataset) (block : Block) (block_array : list Block)
    (entries : list replica_entry) (st st' : pass2_state) :
  block ∈ block_array ->
  pass2_inv sites dataset block_array st ->
  process_replica_entries sites groups gname_list dataset block st entries = inr st' ->
  pass2_inv sites dataset block_array st'.
Proof.
  intros Hblock. revert st.
  induction entries as [|entry entries IH]; intros st Hinv; simpl.
  - by intros [= <-].
  - destruct (process_replica_entry _ _ _ _ _ st entry) as [e|st1] eqn:H1; [done|].
    apply IH. by eapply process_replica_entry_inv.
Qed.

Lemma process_block_entries_inv (sites : gmap string Site)
    (groups : gmap string Group) (gname_list : list string)
    (dataset : Dataset) (block_array : list Block)
    (entries : list block_entry) (barray_entry n : nat) (st st' : pass2_state) :
  pass2_inv sites dataset block_array st ->
  process_block_entries sites groups gname_list dataset block_array barray_entry
    st entries = inr (st', n) ->
  pass2_inv sites dataset block_array st'.
Proof.
  revert barray_entry st.
  induction entries as [|entry entries IH]; intros barray_entry st Hinv; simpl.
  - by intros [= <- _].
  - destruct (block_array !! barray_entry) as [block|] eqn:Hblock; [|done].
    destruct (process_replica_entries _ _ _ _ _ st _) as [e|st1] eqn:H1; [done|].
    apply IH. eapply process_replica_entries_inv; [|done|exact H1].
    by eapply list_elem_of_lookup_2.
Qed.

Lemma replica_built_weaken (sites : gmap string Site) (dataset : Dataset)
    (dataset_array : list Dataset) (block_array : list Block) (dr : DatasetReplica) :
  dataset ∈ dataset_array ->
  replica_built sites [dataset] block_array dr ->
  replica_built sites dataset_array block_array dr.
Proof.
  intros Hin (Hok & Hne & Hd & Hnode & Hb).
  apply list_elem_of_singleton in Hd. unfold replica_built. rewrite Hd.
  by split_and!.
Qed.

Lemma construct_replicas_built (sites : gmap string Site)
    (groups : gmap string Group) (gname_list : list string)
    (dataset_array : list Dataset) (block_array : list Block)
    (source : list dataset_entry) (darray_entry barray_entry : nat)
    (new_replicas out : list DatasetReplica) (logged logged' : list log_record) :
  Forall (replica_built sites dataset_array block_array) new_replicas ->
  construct_replicas sites groups gname_list dataset_array block_array
    darray_entry barray_entry new_replicas logged source = inr (out, logged') ->
  Forall (replica_built sites dataset_array block_array) out.
Proof.
  revert darray_entry barray_entry new_replicas logged.
  induction source as [|entry source IH];
    intros darray_entry barray_entry new_replicas logged Hnew; simpl.
  - by intros [= <- _].
  - destruct (de_block entry) as [block_entries|]; [|by apply IH].
    destruct (dataset_array !! darray_entry) as [dataset|] eqn:Hdataset; [|done].
    destruct (process_block_entries _ _ _ _ _ _ _ _) as [e|[st n]] eqn:Hblocks; [done|].
    apply IH. apply Forall_app. split; [done|].
    apply process_block_entries_inv in Hblocks as [_ Hall].
    + eapply Forall_impl; [exact Hall|]. intros dr. apply replica_built_weaken.
      by eapply list_elem_of_lookup_2.
    + split; simpl; constructor.
Qed.

(** X11.  Every dataset replica that the second pass of [exec_get] builds
    has at least one block replica; its block replicas are all at its own
    site; it is complete exactly when all its block replicas are (invariant
    4) and custodial exactly when one of them is; its dataset is one
    prepared by the first pass, its site one of the known sites, and the
    blocks of its block replicas are blocks prepared by the first pass. *)
Theorem second_pass_replicas (sites : gmap string Site)
    (groups : gmap string Group) (gname_list : list string)
    (dataset_array : list Dataset) (block_array : list Block)
    (source : list dataset_entry) (new_replicas : list DatasetReplica)
    (logged : list log_record) :
  construct_replicas sites groups gname_list dataset_array block_array 0 0 [] []
    source = inr (new_replicas, logged) ->
  Forall (replica_built sites dataset_array block_array) new_replicas.
Proof. apply construct_replicas_built. constructor. Qed.

Definition source_two_replicas : list dataset_entry :=
  [mkDatasetEntry "/D/x/y"
     (Some [mkBlockEntry "/D/x/y#b1" 100 1 [entry_known_group];
            mkBlockEntry "/D/x/y#b2" 100 1
              [mkReplicaEntry (Some "AnalysisOps") "T2_A" 20 "n" "y" 100]])].

Lemma second_pass_replicas_witness :
  Forall (replica_built sample_sites [dataset_D] [block_b1; block_b2])
    [mkDatasetReplica dataset_D "T2_A" false false true 20 None
       [mkBlockReplica block_b1 "T2_A" (Some AnalysisOps) true false 100;
        mkBlockReplica block_b2 "T2_A" (Some AnalysisOps) false true 100]].
Proof.
  apply (second_pass_replicas sample_sites sample_groups ["AnalysisOps"]
           [dataset_D] [block_b1; block_b2] source_two_replicas _ []).
  vm_compute. reflexivity.
Defined.

(** ** The chunks of [find_tape_copies] *)

Lemma Forall_removelast {A : Type} (P : A -> Prop) (l : list A) :
  Forall P l -> Forall P (removelast l).
Proof.
  induction 1 as [|x l Hx Hl IH]; simpl; [constructor|].
  destruct l; [constructor|]. by constructor.
Qed.

Lemma fill_chunks_sizes (chunk_size : nat) (ds : list Dataset)
    (closed : list (list Dataset)) (current : list Dataset) :
  Forall (fun c => length c = chunk_size) closed ->
  (length current < chunk_size)%nat ->
  Forall (fun c => length c = chunk_size)
    (fst (fill_chunks chunk_size ds closed current)) /\
  (length (snd (fill_chunks chunk_size ds closed current)) < chunk_size)%nat.
Proof.
  revert closed current.
  induction ds as [|d rest IH]; intros closed current Hclosed Hcur; simpl; [done|].
  destruct (skipped d); [by apply IH|].
  destruct (Nat.eqb_spec (length (current ++ [d])) chunk_size) as [Heq|Hne].
  - apply IH.
    + apply Forall_app. split; [done|]. by repeat constructor.
    + rewrite length_app in Heq. simpl in *. lia.
  - apply IH; [done|]. rewrite length_app in *. simpl in *. lia.
Qed.

(** X12.  The tape check queries the datasets in chunks of 1000: no chunk is
    empty or longer than 1000, every chunk but the last holds exactly 1000
    datasets, and the chunks hold, in the order of the dictionary, exactly
    the datasets that are neither on tape already nor [IGNORED]. *)
Theorem dataset_chunks_of_1000 (values : list Dataset) :
  Forall (fun c => (1 <= length c <= 1000)%nat) (dataset_chunks values) /\
  Forall (fun c => length c = 1000%nat) (removelast (dataset_chunks values)) /\
  concat (dataset_chunks values) = filter (fun d => skipped d = false) values.
Proof.
  split_and!; [| |apply dataset_chunks_concat].
  - unfold dataset_chunks.
    destruct (fill_chunks_sizes 1000 values [] []) as [Hclosed Hcur];
      [constructor|simpl; lia|].
    destruct (fill_chunks 1000 values [] []) as [closed current]. simpl in *.
    assert (Hc : Forall (fun c => (1 <= length c <= 1000)%nat) closed).
    { eapply Forall_impl; [exact Hclosed|]. simpl. intros c ->. lia. }
    destruct current as [|d current]; simpl; [done|].
    apply Forall_app. split; [done|]. apply Forall_singleton. simpl in *. lia.
  - unfold dataset_chunks.
    destruct (fill_chunks_sizes 1000 values [] []) as [Hclosed Hcur];
      [constructor|simpl; lia|].
    destruct (fill_chunks 1000 values [] []) as [closed current]. simpl in *.
    destruct current as [|d current]; simpl.
    + by apply Forall_removelast.
    + by rewrite removelast_last.
Qed.

End PhEDExFacts.

(* ===================================================================== *)
(** * lib/common/interface/phedexdbsssb.py: the two passes of [exec_get]  *)
(* ===================================================================== *)

Module ReplicaLinks.
Import PhEDEx.

Section FirstPass.

(** [Dataset(ds_name)], [dataset.find_block(block_name)] and
    [Block.translate_name(name.replace(ds_name + '#', ''))] (of the dataset
    name and the name of the block entry) come from [common.dataformat],
    which is not part of the sources. *)
Variable new_dataset : string -> Dataset.
Variable find_block : Dataset -> string -> option Block.
Variable internal_name : string -> string -> string.

Definition add_block (d : Dataset) (b : Block) : Dataset :=
  mkDataset (dataset_name d) (dataset_status d) (on_tape d) (blocks d ++ [b]).

(** [for block_entry in dataset_entry['block']: ...] of the first pass.  The
    dataset is the object stored under [ds_name]; [is_new] is
    [new_dataset]. *)
Fixpoint prepare_blocks (ds_name : string) (is_new : bool)
    (datasets : gmap string Dataset) (block_array : list Block)
    (entries : list block_entry) : gmap string Dataset * list Block :=
  match entries with
  | [] => (datasets, block_array)
  | entry :: rest =>
      let name := internal_name ds_name (be_name entry) in
      let dataset := default (new_dataset ds_name) (datasets !! ds_name) in
      let found := if is_new then None else find_block dataset name in
      match found with
      | Some block =>
          prepare_blocks ds_name is_new datasets (block_array ++ [block]) rest
      | None =>
          let block := mkBlock name (be_bytes entry) (be_files entry) false in
          prepare_blocks ds_name is_new
            (<[ds_name := add_block dataset block]> datasets)
            (block_array ++ [block]) rest
      end
  end.

(** The first pass: the datasets, and [dataset_array] (as the keys under
    which its datasets are stored) and [block_array]. *)
Fixpoint prepare (datasets : gmap string Dataset) (dataset_array : list string)
    (block_array : list Block) (source : list dataset_entry)
    : gmap string Dataset * list string * list Block :=
  match source with
  | [] => (datasets, dataset_array, block_array)
  | entry :: rest =>
      match de_block entry with
      | None => prepare datasets dataset_array block_array rest
      | Some block_entries =>
          let ds_name := de_name entry in
          let '(datasets1, is_new) :=
            match datasets !! ds_name with
            | Some _ => (datasets, false)
            | None => (<[ds_name := new_dataset ds_name]> datasets, true)
            end in
          let '(datasets2, block_array2) :=
            prepare_blocks ds_name is_new datasets1 block_array block_entries in
          prepare datasets2 (dataset_array ++ [ds_name]) block_array2 rest
      end
  end.

(** The first two passes of [exec_get] on a response: the new replicas and
    the warnings, or the exception raised. *)
Definition exec_get_replicas (sites : gmap string Site) (groups : gmap string Group)
    (gname_list : list string) (datasets : gmap string Dataset)
    (source : list dataset_entry)
    : error + (list DatasetReplica * list log_record) :=
  let '(datasets', dataset_array, block_array) := prepare datasets [] [] source in
  construct_replicas sites groups gname_list
    (omap (fun key => datasets' !! key) dataset_array) block_array 0 0 [] [] source.

End FirstPass.

(** The number of dataset entries with blocks and of block entries in a
    response. *)
Definition num_dataset_entries (source : list dataset_entry) : nat :=
  length (filter (fun e => is_Some (de_block e)) source).

Definition num_block_entries (source : list dataset_entry) : nat :=
  sum_list (map (fun e => length (default [] (de_block e))) source).

(** An outcome of the second pass that is not an [IndexError], and is a
    [KeyError] only for a node that is not a known site. *)
Definition within_arrays {A : Type} (sites : gmap string Site) (r : error + A) : Prop :=
  match r with
  | inl IndexError => False
  | inl (KeyError node) => sites !! node = None
  | inr _ => True
  end.

Lemma process_replica_entry_within (sites : gmap string Site)
    (groups : gmap string Group) (gname_list : list string)
    (dataset : Dataset) (block : Block) (st : pass2_state) (entry : replica_entry) :
  within_arrays sites
    (process_replica_entry sites groups gname_list dataset block st entry).
Proof.
  unfold process_replica_entry. destruct (negb _); [done|].
  destruct (match re_group entry with Some _ => _ | None => _ end) as [grp warns].
  destruct (sites !! re_node entry) as [site|] eqn:Hsite; [|done].
  by destruct (lookup_replica _ _).
Qed.

Lemma process_replica_entries_within (sites : gmap string Site)
    (groups : gmap string Group) (gname_list : list string)
    (dataset : Dataset) (block : Block) (entries : list replica_entry)
    (st : pass2_state) :
  within_arrays sites
    (process_replica_entries sites groups gname_list dataset block st entries).
Proof.
  revert st. induction entries as [|entry entries IH]; intros st; simpl; [done|].
  pose proof (process_replica_entry_within sites groups gname_list dataset block
                st entry) as H.
  destruct (process_replica_entry _ _ _ _ _ st entry) as [e|st1]; [done|apply IH].
Qed.

Lemma process_block_entries_within (sites : gmap string Site)
    (groups : gmap string Group) (gname_list : list string)
    (dataset : Dataset) (block_array : list Block) (entries : list block_entry)
    (barray_entry : nat) (st : pass2_state) :
  (barray_entry + length entries <= length block_array)%nat ->
  match process_block_entries sites groups gname_list dataset block_array
          barray_entry st entries with
  | inr (_, n) => n = (barray_entry + length entries)%nat
  | inl e => within_arrays sites (inl e : error + unit)
  end.
Proof.
  revert barray_entry st.
  induction entries as [|entry entries IH]; intros barray_entry st Hlen; simpl.
  - lia.
  - simpl in Hlen.
    destruct (lookup_lt_is_Some_2 block_array barray_entry) as [block Hblock]; [lia|].
    rewrite Hblock.
    pose proof (process_replica_entries_within sites groups gname_list dataset block
                  (be_replica entry) st) as H.
    destruct (process_replica_entries _ _ _ _ _ st _) as [[node|]|st1]; [done|done|].
    specialize (IH (S barray_entry) st1 ltac:(lia)).
    destruct (process_block_entries _ _ _ _ _ (S barray_entry) _ _) as [e|[st2 n]];
      [done|lia].
Qed.

Lemma num_entries_cons (entry : dataset_entry) (source : list dataset_entry) :
  num_dataset_entries (entry :: source)
  = ((match de_block entry with Some _ => 1 | None => 0 end) + num_dataset_entries source)%nat /\
  num_block_entries (entry :: source)
  = (length (default [] (de_block entry)) + num_block_entries source)%nat.
Proof.
  unfold num_dataset_entries, num_block_entries. rewrite filter_cons. simpl.
  split; [|done].
  destruct (de_block entry) as [block_entries|].
  - by rewrite decide_True by eauto.
  - by rewrite decide_False by (by intros [? ?]).
Qed.

Lemma construct_replicas_within (sites : gmap string Site)
    (groups : gmap string Group) (gname_list : list string)
    (dataset_array : list Dataset) (block_array : list Block)
    (source : list dataset_entry) (darray_entry barray_entry : nat)
    (new_replicas : list DatasetReplica) (logged : list log_record) :
  (darray_entry + num_dataset_entries source <= length dataset_array)%nat ->
  (barray_entry + num_block_entries source <= length block_array)%nat ->
  within_arrays sites
    (construct_replicas sites groups gname_list dataset_array block_array
       darray_entry barray_entry new_replicas logged source).
Proof.
  revert darray_entry barray_entry new_replicas logged.
  induction source as [|entry source IH];
    intros darray_entry barray_entry new_replicas logged Hd Hb; simpl; [done|].
  destruct (num_entries_cons entry source) as [Hnd Hnb].
  rewrite Hnd in Hd. rewrite Hnb in Hb. clear Hnd Hnb.
  destruct (de_block entry) as [block_entries|] eqn:Hentry; simpl in *.
  - destruct (lookup_lt_is_Some_2 dataset_array darray_entry) as [dataset Hdataset];
      [lia|].
    rewrite Hdataset.
    pose proof (process_block_entries_within sites groups gname_list dataset
                  block_array block_entries barray_entry (mkPass2 [] logged)
                  ltac:(lia)) as H.
    destruct (process_block_entries _ _ _ _ _ _ _ _) as [[node|]|[st n]]; [done|done|].
    subst n. apply IH; lia.
  - apply IH; lia.
Qed.

Section FirstPassFacts.
Variable new_dataset : string -> Dataset.
Variable find_block : Dataset -> string -> option Block.
Variable internal_name : string -> string -> string.

Local Abbreviation prepare_blocks := (prepare_blocks new_dataset find_block internal_name).
Local Abbreviation prepare := (prepare new_dataset find_block internal_name).

Lemma prepare_blocks_arrays (ds_name : string) (is_new : bool)
    (entries : list block_entry) (datasets : gmap string Dataset)
    (block_array : list Block) :
  length (snd (prepare_blocks ds_name is_new datasets block_array entries))
  = (length block_array + length entries)%nat /\
  (forall key, is_Some (datasets !! key) ->
     is_Some (fst (prepare_blocks ds_name is_new datasets block_array entries) !! key)).
Proof.
  revert datasets block_array.
  induction entries as [|entry entries IH]; intros datasets block_array; simpl.
  - split; [lia|done].
  - destruct (if is_new then None else _) as [block|].
    + destruct (IH datasets (block_array ++ [block])) as [Hlen Hdom].
      split; [|done]. rewrite Hlen, length_app. simpl. lia.
    + match goal with
      | |- context [prepare_blocks _ _ ?m ?ba entries] =>
          destruct (IH m ba) as [Hlen Hdom]
      end.
      split; [rewrite Hlen, length_app; simpl; lia|].
      intros key Hkey. apply Hdom.
      destruct (decide (ds_name = key)) as [->|Hne].
      * rewrite lookup_insert_eq. eauto.
      * by rewrite lookup_insert_ne.
Qed.

Lemma prepare_arrays (source : list dataset_entry) (datasets : gmap string Dataset)
    (dataset_array : list string) (block_array : list Block) :
  Forall (fun key => is_Some (datasets !! key)) dataset_array ->
  let '(datasets', dataset_array', block_array') :=
    prepare datasets dataset_array block_array source in
  length dataset_array' = (length dataset_array + num_dataset_entries source)%nat /\
  length block_array' = (length block_array + num_block_entries source)%nat /\
  Forall (fun key => is_Some (datasets' !! key)) dataset_array'.
Proof.
  revert datasets dataset_array block_array.
  induction source as [|entry source IH];
    intros datasets dataset_array block_array Hkeys; simpl.
  - unfold num_dataset_entries, num_block_entries. simpl. split_and!; [lia|lia|done].
  - destruct (num_entries_cons entry source) as [Hnd Hnb].
    rewrite Hnd, Hnb. clear Hnd Hnb.
    destruct (de_block entry) as [block_entries|] eqn:Hentry; simpl.
    + set (start := match datasets !! de_name entry with
                    | Some _ => (datasets, false)
                    | None => (<[de_name entry := new_dataset (de_name entry)]> datasets, true)
                    end).
      assert (Hstart : forall key, is_Some (datasets !! key) \/ key = de_name entry ->
                                   is_Some (fst start !! key)).
      { intros key [Hkey| ->]; subst start.
        - destruct (datasets !! de_name entry) eqn:Hd; simpl; [done|].
          destruct (decide (de_name entry = key)) as [->|Hne].
          + rewrite lookup_insert_eq. eauto.
          + by rewrite lookup_insert_ne.
        - destruct (datasets !! de_name entry) eqn:Hd; simpl; [by rewrite Hd|].
          rewrite lookup_insert_eq. eauto. }
      destruct start as [datasets1 is_new]. simpl in Hstart.
      pose proof (prepare_blocks_arrays (de_name entry) is_new block_entries
                    datasets1 block_array) as [Hlen Hdom].
      destruct (prepare_blocks (de_name entry) is_new datasets1 block_array
                  block_entries) as [datasets2 block_array2]. simpl in *.
      specialize (IH datasets2 (dataset_array ++ [de_name entry]) block_array2).
      destruct (prepare datasets2 (dataset_array ++ [de_name entry]) block_array2
                  source) as [[datasets' dataset_array'] block_array'].
      destruct IH as (Hd' & Hb' & Hk').
      { apply Forall_app. split.
        - eapply Forall_impl; [exact Hkeys|]. intros key Hkey. apply Hdom, Hstart. eauto.
        - apply Forall_singleton. apply Hdom, Hstart. eauto. }
      rewrite length_app in Hd'. simpl in Hd'.
      split_and!; [lia|lia|done].
    + specialize (IH datasets dataset_array block_array Hkeys).
      destruct (prepare datasets dataset_array block_array source)
        as [[datasets' dataset_array'] block_array'].
      done.
Qed.

Lemma omap_lookup_length (datasets : gmap string Dataset) (keys : list string) :
  Forall (fun key => is_Some (datasets !! key)) keys ->
  length (omap (fun key => datasets !! key) keys) = length keys.
Proof.
  induction 1 as [|key keys [d Hd] _ IH]; [done|].
  change (omap (fun key => datasets !! key) (key :: keys))
    with (match datasets !! key with
          | Some d => d :: omap (fun key => datasets !! key) keys
          | None => omap (fun key => datasets !! key) keys
          end).
  rewrite Hd. simpl. by rewrite IH.
Qed.

End FirstPassFacts.

(** X13.  The second pass of [exec_get] reads the datasets and blocks that
    the first pass prepared by position; run on the same response after the
    first pass, it never reads past the end of either array (no
    [IndexError]), whatever datasets were known before.  The only exception
    it can raise is the [KeyError] of a replica at a node that is not a
    known site. *)
Theorem second_pass_within_arrays (new_dataset : string -> Dataset)
    (find_block : Dataset -> string -> option Block)
    (internal_name : string -> string -> string)
    (sites : gmap string Site) (groups : gmap string Group)
    (gname_list : list string) (datasets : gmap string Dataset)
    (source : list dataset_entry) :
  within_arrays sites
    (exec_get_replicas new_dataset find_block internal_name sites groups
       gname_list datasets source).
Proof.
  unfold exec_get_replicas.
  pose proof (prepare_arrays new_dataset find_block internal_name source datasets
                [] [] ltac:(constructor)) as H.
  destruct (prepare new_dataset find_block internal_name datasets [] [] source)
    as [[datasets' dataset_array] block_array].
  destruct H as (Hd & Hb & Hkeys).
  apply construct_replicas_within.
  - rewrite omap_lookup_length by done. simpl in *. lia.
  - simpl in *. lia.
Qed.

End ReplicaLinks.

(* ===================================================================== *)
(** * lib/enforcer/interface.py: what [report_back] puts in the product   *)
(* ===================================================================== *)

Module EnforcerFacts.
Import Enforcer.

(** [rule_name] of a report; a request has none. *)
Definition report_name (it : product_item) : option string :=
  match it with
  | Report rule_name _ _ _ => Some rule_name
  | Request _ _ => None
  end.

(** A request of [dataset] at [site] is justified by a rule: the site
    matches a destination condition, a replica of the dataset matching a
    target condition is in the partition of a site matching a source
    condition, and either the dataset has no full replica at the site or it
    has a replica there that the destination group does not own alone. *)
Definition justified (inventory : Inventory) (rule : EnforcerRule)
    (d : Dataset) (site : string) : Prop :=
  site ∈ _get_sites (destination_sites rule) inventory /\
  (exists source site_partition replica,
      source ∈ _get_sites (source_sites rule) inventory /\
      (source, site_partition) ∈ sites inventory /\
      replica ∈ map fst (sp_replicas site_partition) /\
      dataset replica = d /\
      existsb (fun condition => condition replica) (target_replicas rule) = true) /\
  (site ∉ map rd_site (filter (fun r => rd_is_full r = true) (replicas d)) \/
   exists r, r ∈ replicas d /\ rd_site r = site /\
             owned_by (destination_group_name rule) r = false).

Lemma request_loop_sites (fuel have target_num : nat)
    (flipped : list replica_data) (candidates request_sites out : list string) :
  request_loop fuel have target_num flipped candidates request_sites = Some out ->
  forall site, site ∈ out ->
    site ∈ request_sites \/ site ∈ map rd_site flipped \/ site ∈ candidates.
Proof.
  revert flipped candidates request_sites.
  induction fuel as [|fuel IH]; intros flipped candidates request_sites; simpl; [done|].
  destruct (_ <? _)%nat.
  - destruct (last flipped) as [replica|] eqn:Hflipped.
    + apply last_Some in Hflipped as [flipped' ->].
      rewrite removelast_last. intros Hout site Hsite.
      rewrite map_app. simpl.
      destruct (IH _ _ _ Hout site Hsite) as [H|[H|H]]; set_solver.
    + destruct (last candidates) as [s|] eqn:Hcandidates.
      * apply last_Some in Hcandidates as [candidates' ->].
        rewrite removelast_last. intros Hout site Hsite.
        destruct (IH _ _ _ Hout site Hsite) as [H|[H|H]]; set_solver.
      * intros [= <-]. auto.
  - intros [= <-]. auto.
Qed.

Lemma request_loop_candidates (fuel target_num : nat)
    (candidates request_sites out : list string) :
  request_loop fuel 0 target_num [] candidates request_sites = Some out ->
  (length request_sites <= target_num)%nat ->
  length out = Nat.min target_num (length request_sites + length candidates).
Proof.
  revert candidates request_sites.
  induction fuel as [|fuel IH]; intros candidates request_sites; simpl; [done|].
  destruct (Nat.ltb_spec (length request_sites) target_num) as [Hlt|Hge].
  - destruct (last candidates) as [s|] eqn:Hcandidates.
    + apply last_Some in Hcandidates as [candidates' ->].
      rewrite removelast_last. intros Hout _.
      apply IH in Hout; rewrite ?length_app in *; simpl in *; lia.
    + apply last_None in Hcandidates as ->. intros [= <-] _. simpl. lia.
  - intros [= <-] Hle. lia.
Qed.

Lemma partition_lookup_Some (dname site : string)
    (l : list (DatasetReplica * option (list BlockReplica)))
    (v : option (list BlockReplica)) :
  partition_lookup dname site l = Some v ->
  exists r, (r, v) ∈ l /\ rd_site (data r) = site.
Proof.
  induction l as [|[r w] l IH]; simpl; [done|].
  destruct (_ && _) eqn:Hmatch.
  - intros [= ->]. apply andb_true_iff in Hmatch as [_ Hsite].
    apply String.eqb_eq in Hsite. exists r. split; [by left|done].
  - intros H. destruct (IH H) as (r' & Hin & Hsite).
    exists r'. split; [by right|done].
Qed.

(** The replicas that can be flipped are replicas of the dataset at
    destination sites that the destination group does not own alone. *)
Lemma count_replica_flipped (destinations : gset string)
    (site_partition : SitePartition) (destination_group : string) (d : Dataset)
    (l : list replica_data) (c : counts) (Q : replica_data -> Prop) :
  (forall r, r ∈ l -> rd_site r ∈ destinations ->
             owned_by destination_group r = false -> Q r) ->
  Forall Q (can_be_flipped c) ->
  Forall Q (can_be_flipped
              (foldl (count_replica destinations site_partition destination_group d)
                 c l)).
Proof.
  revert c. induction l as [|r l IH]; intros c HQ Hc; simpl; [done|].
  apply IH; [intros r' Hr'; apply HQ; by right|].
  unfold count_replica. case_bool_decide; simpl; [|done].
  destruct (partition_lookup _ _ _) as [[blockreps|]|]; [done| |done].
  destruct (owned_by destination_group r) eqn:Howned; simpl.
  - by destruct (rd_is_full r).
  - apply Forall_app. split; [done|]. apply Forall_singleton.
    apply HQ; [by left|done|done].
Qed.

(** Replicas are looked up in the partition of the source site: when that
    partition holds no replica at a destination site, nothing is counted. *)
Lemma count_replica_elsewhere (destinations : gset string)
    (site_partition : SitePartition) (destination_group : string) (d : Dataset)
    (l : list replica_data) (c : counts) :
  (forall rv, rv ∈ sp_replicas site_partition ->
              rd_site (data (fst rv)) ∉ destinations) ->
  foldl (count_replica destinations site_partition destination_group d) c l = c.
Proof.
  intros Hpartition. revert c. induction l as [|r l IH]; intros c; simpl; [done|].
  replace (count_replica destinations site_partition destination_group d c r) with c;
    [apply IH|].
  unfold count_replica. case_bool_decide as Hdest; simpl; [|done].
  destruct (partition_lookup _ _ _) as [v|] eqn:Hlookup; [|done].
  apply partition_lookup_Some in Hlookup as (r' & Hin & Hsite).
  specialize (Hpartition _ Hin). simpl in Hpartition. by rewrite Hsite in Hpartition.
Qed.

Section ProductFacts.

Variable rng : Type.
Variable shuffle : forall A : Type, rng -> list A -> list A * rng.

Local Abbreviation check_replica := (check_replica rng shuffle).
Local Abbreviation check_replicas := (check_replicas rng shuffle).
Local Abbreviation check_sites := (check_sites rng shuffle).
Local Abbreviation check_rule := (check_rule rng shuffle).
Local Abbreviation check_rules := (check_rules rng shuffle).
Local Abbreviation report_back := (report_back rng shuffle).

(** A property of the state of a rule that every replica of the partition
    of a source site preserves holds after the loop over the sites. *)
Lemma check_sites_invariant (I : rule_state rng -> Prop)
    (write_rrds : bool) (rule : EnforcerRule) (inventory : Inventory)
    (destinations : gset string) (destination_group : string) (target_num : nat)
    (all_sources : list string) :
  (forall source site_partition replica st0 st1,
      source ∈ all_sources ->
      (source, site_partition) ∈ sites inventory ->
      replica ∈ map fst (sp_replicas site_partition) ->
      I st0 ->
      check_replica write_rrds rule destinations destination_group target_num
        site_partition st0 replica = Some st1 ->
      I st1) ->
  forall (sources : list string) (st st' : rule_state rng),
    sources ⊆ all_sources ->
    I st ->
    check_sites write_rrds rule inventory destinations destination_group target_num
      st sources = Some st' ->
    I st'.
Proof.
  intros Hstep sources.
  induction sources as [|source sources IH]; intros st st' Hsub Hst; simpl.
  - by intros [= <-].
  - destruct (list_find _ _) as [[i [name site_partition]]|] eqn:Hfind; [|done].
    apply list_find_Some in Hfind as (Hlookup & Hname & _). simpl in Hname. subst name.
    apply list_elem_of_lookup_2 in Hlookup.
    assert (Hreplicas : forall rs (st0 st1 : rule_state rng),
               rs ⊆ map fst (sp_replicas site_partition) ->
               I st0 ->
               check_replicas write_rrds rule destinations destination_group
                 target_num site_partition st0 rs = Some st1 ->
               I st1).
    { induction rs as [|r rs IHrs]; intros st0 st1 Hrs H0; simpl.
      - by intros [= <-].
      - destruct (check_replica _ _ _ _ _ _ st0 r) as [st2|] eqn:Hr; [|done].
        apply IHrs; [set_solver|].
        eapply (Hstep source site_partition r st0 st2); eauto; set_solver. }
    destruct (check_replicas _ _ _ _ _ _ st _) as [st1|] eqn:Hrs; [|done].
    apply IH; [set_solver|]. eapply Hreplicas; eauto.
Qed.

Lemma check_replica_rrds (rule : EnforcerRule) (destinations : gset string)
    (destination_group : string) (target_num : nat) (site_partition : SitePartition)
    (st st' : rule_state rng) (replica : DatasetReplica) :
  check_replica true rule destinations destination_group target_num site_partition
    st replica = Some st' ->
  requests rng st' = requests rng st /\ generator rng st' = generator rng st.
Proof.
  unfold Enforcer.check_replica.
  case_bool_decide; [by intros [= <-]|].
  destruct (negb (existsb _ _)); [by intros [= <-]|].
  destruct (_ <=? _)%nat; [by intros [= <-]|].
  destruct (_ <=? _)%nat; [by intros [= <-]|].
  destruct (_ && _); by intros [= <-].
Qed.

Lemma check_rule_rrds (inventory : Inventory) (g g' : rng) (rule_name : string)
    (rule : EnforcerRule) (items : list product_item) :
  check_rule true inventory g rule_name rule = Some (items, g') ->
  map report_name items = [Some rule_name] /\ g' = g.
Proof.
  unfold Enforcer.check_rule. destruct (negb _); [done|].
  destruct (Enforcer.check_sites _ _ _ _ _ _ _ _ _ _) as [st|] eqn:Hsites; [|done].
  intros [= <- <-].
  assert (Hst : requests rng st = [] /\ generator rng st = g).
  { eapply (check_sites_invariant
              (fun st => requests rng st = [] /\ generator rng st = g)
              true rule inventory _ _ _
              (elements (_get_sites (source_sites rule) inventory)));
      [|reflexivity| |exact Hsites]; [|done].
    intros source site_partition replica st0 st1 _ _ _ [H0 H1] Hstep.
    apply check_replica_rrds in Hstep as [-> ->]. done. }
  destruct Hst as [-> ->]. done.
Qed.

Lemma check_rules_rrds (inventory : Inventory)
    (rules : list (string * EnforcerRule)) (g g' : rng)
    (product : list product_item) :
  check_rules true inventory g rules = Some (product, g') ->
  map report_name product = map (fun r => Some (fst r)) rules.
Proof.
  revert g product. induction rules as [|[rule_name rule] rules IH];
    intros g product; simpl.
  - by intros [= <- <-].
  - destruct (Enforcer.check_rule _ _ _ _ _ _ _) as [[items g1]|] eqn:Hrule; [|done].
    destruct (Enforcer.check_rules _ _ _ _ g1 _) as [[items' g2]|] eqn:Hrules; [|done].
    intros [= <- <-].
    apply check_rule_rrds in Hrule as [Hitems _].
    rewrite map_app, Hitems. simpl. f_equal. eauto.
Qed.

Hypothesis shuffle_permutation :
  forall (A : Type) (g : rng) (l : list A), fst (shuffle A g l) ≡ₚ l.

Definition requests_justified (inventory : Inventory) (rule : EnforcerRule)
    (items : list product_item) : Prop :=
  forall d site, Request d site ∈ items -> justified inventory rule d site.

Lemma check_replica_justified (write_rrds : bool) (inventory : Inventory)
    (rule : EnforcerRule) (source : string) (site_partition : SitePartition)
    (replica : DatasetReplica) (st st' : rule_state rng) :
  source ∈ _get_sites (source_sites rule) inventory ->
  (source, site_partition) ∈ sites inventory ->
  replica ∈ map fst (sp_replicas site_partition) ->
  requests_justified inventory rule (requests rng st) ->
  check_replica write_rrds rule (_get_sites (destination_sites rule) inventory)
    (destination_group_name rule)
    (target_of rule (_get_sites (destination_sites rule) inventory))
    site_partition st replica = Some st' ->
  requests_justified inventory rule (requests rng st').
Proof.
  intros Hsource Hpartition Hreplica Hst. unfold Enforcer.check_replica.
  case_bool_decide; [by intros [= <-]|].
  destruct (negb (existsb _ _)) eqn:Htarget; [by intros [= <-]|].
  apply negb_false_iff in Htarget.
  destruct (_ <=? _)%nat; [destruct write_rrds; by intros [= <-]|].
  destruct (_ <=? _)%nat; [destruct write_rrds; by intros [= <-]|].
  destruct (_ && _); [by intros [= <-]|].
  destruct write_rrds; [by intros [= <-]|].
  match goal with
  | |- context [shuffle string ?g0 ?l] =>
      pose proof (shuffle_permutation string g0 l) as Hperm
  end.
  destruct (shuffle string _ _) as [candidates g]. simpl in Hperm.
  destruct (request_loop _ _ _ _ _ _) as [request_sites|] eqn:Hloop; [|done].
  intros [= <-]. simpl. intros d site Hin.
  apply elem_of_app in Hin as [Hin|Hin]; [by apply Hst|].
  apply list_elem_of_fmap in Hin as (s & [= -> ->] & Hs).
  pose proof (request_loop_sites _ _ _ _ _ _ _ Hloop s Hs) as [Hnil|[Hflip|Hcand]].
  - by apply elem_of_nil in Hnil.
  - apply list_elem_of_fmap in Hflip as (r & -> & Hr).
    pose proof (count_replica_flipped (_get_sites (destination_sites rule) inventory)
                  site_partition (destination_group_name rule) (dataset replica)
                  (replicas (dataset replica)) (mkCounts 0 0 [] [])
                  (fun r => r ∈ replicas (dataset replica) /\
                            rd_site r ∈ _get_sites (destination_sites rule) inventory /\
                            owned_by (destination_group_name rule) r = false)
                  ltac:(by intros) ltac:(constructor)) as Hflipped.
    rewrite Forall_forall in Hflipped.
    destruct (Hflipped r Hr) as (Hr1 & Hr2 & Hr3).
    split_and!; [done| |right; eauto].
    exists source, site_partition, replica. done.
  - rewrite Hperm in Hcand. apply elem_of_elements in Hcand.
    apply elem_of_difference in Hcand as [Hdest Hfull].
    split_and!; [done| |left].
    + exists source, site_partition, replica. done.
    + intros Hin. apply Hfull. by apply elem_of_list_to_set.
Qed.

Lemma check_rule_justified (write_rrds : bool) (inventory : Inventory) (g g' : rng)
    (rule_name : string) (rule : EnforcerRule) (items : list product_item) :
  check_rule write_rrds inventory g rule_name rule = Some (items, g') ->
  requests_justified inventory rule items.
Proof.
  unfold Enforcer.check_rule. destruct (negb _); [done|].
  destruct (Enforcer.check_sites _ _ _ _ _ _ _ _ _ _) as [st|] eqn:Hsites; [|done].
  intros [= <- <-].
  assert (Hst : requests_justified inventory rule (requests rng st)).
  { eapply (check_sites_invariant
              (fun st => requests_justified inventory rule (requests rng st))
              write_rrds rule inventory _ _ _
              (elements (_get_sites (source_sites rule) inventory)));
      [|reflexivity| |exact Hsites].
    - intros source site_partition replica st0 st1 Hsource Hpartition Hreplica H0 Hstep.
      apply elem_of_elements in Hsource.
      eapply check_replica_justified; eauto.
    - intros d site Hin. simpl in Hin. by apply elem_of_nil in Hin. }
  destruct write_rrds; [|done].
  intros d site Hin. apply elem_of_app in Hin as [Hin|Hin]; [by apply Hst|].
  by apply list_elem_of_singleton in Hin.
Qed.

Lemma check_rules_justified (write_rrds : bool) (inventory : Inventory)
    (rules : list (string * EnforcerRule)) (g g' : rng)
    (product : list product_item) :
  check_rules write_rrds inventory g rules = Some (product, g') ->
  forall d site, Request d site ∈ product ->
    exists rule, rule ∈ map snd rules /\ justified inventory rule d site.
Proof.
  revert g product. induction rules as [|[rule_name rule] rules IH];
    intros g product; simpl.
  - intros [= <- <-] d site Hin. by apply elem_of_nil in Hin.
  - destruct (Enforcer.check_rule _ _ _ _ _ _ _) as [[items g1]|] eqn:Hrule; [|done].
    destruct (Enforcer.check_rules _ _ _ _ g1 _) as [[items' g2]|] eqn:Hrules; [|done].
    intros [= <- <-] d site Hin.
    apply elem_of_app in Hin as [Hin|Hin].
    + exists rule. split; [by left|].
      eapply check_rule_justified; eauto.
    + destruct (IH _ _ Hrules d site Hin) as (rule' & Hrule' & Hj).
      exists rule'. split; [by right|done].
Qed.

End ProductFacts.

(** X14.  With [write_rrds], and the destination group of every rule a group
    of the inventory, [report_back] returns one report per rule, in the
    order of the rules and under the name of the rule, and not a single copy
    request; the random generator plays no part. *)
Theorem report_back_write_rrds (rng : Type)
    (shuffle : forall A : Type, rng -> list A -> list A * rng)
    (rules : list (string * EnforcerRule)) (inventory : Inventory) (g : rng) :
  Forall (fun r => destination_group_name (snd r) ∈ groups inventory) rules ->
  exists product,
    report_back rng shuffle true rules inventory g = Some product /\
    map report_name product = map (fun r => Some (fst r)) rules.
Proof.
  intros Hgroups. unfold report_back.
  destruct (check_rules_total rng shuffle true inventory rules g Hgroups)
    as [[product g'] Hrules].
  rewrite Hrules. simpl. exists product. split; [done|].
  eapply check_rules_rrds; eauto.
Qed.

Lemma report_back_write_rrds_witness :
  exists product,
    report_back unit keep_order true [("copy2", sample_rule)] sample_inventory tt
      = Some product /\
    map report_name product = [Some "copy2"].
Proof.
  apply (report_back_write_rrds unit keep_order [("copy2", sample_rule)]
           sample_inventory tt).
  apply Forall_singleton. simpl. set_solver.
Defined.

(** X15.  Whatever the order the shuffles produce, every copy request
    [(dataset, site)] in the product of [report_back] is justified by one of
    the rules: the site matches a destination condition of the rule, a
    replica of the dataset that matches a target condition of the rule is in
    the partition of a site matching a source condition, and the dataset
    either has no full replica at the site or has a replica there that is
    not owned by the destination group alone (a request to flip the
    ownership). *)
Theorem report_back_requests_justified (rng : Type)
    (shuffle : forall A : Type, rng -> list A -> list A * rng)
    (write_rrds : bool) (rules : list (string * EnforcerRule))
    (inventory : Inventory) (g : rng) (product : list product_item)
    (d : Dataset) (site : string) :
  (forall (A : Type) (g0 : rng) (l : list A), fst (shuffle A g0 l) ≡ₚ l) ->
  report_back rng shuffle write_rrds rules inventory g = Some product ->
  Request d site ∈ product ->
  exists rule, rule ∈ map snd rules /\ justified inventory rule d site.
Proof.
  intros Hshuffle. unfold report_back.
  destruct (check_rules _ _ _ _ _ _) as [[items g']|] eqn:Hrules; [|done].
  intros Hproduct Hin.
  eapply (check_rules_justified rng shuffle Hshuffle); [exact Hrules|].
  destruct write_rrds; simpl in Hproduct; injection Hproduct as <-; [done|].
  by rewrite (Hshuffle product_item g' items) in Hin.
Qed.

Lemma report_back_requests_justified_witness :
  exists rule, rule ∈ map snd [("copy2", sample_rule)] /\
               justified sample_inventory rule dataset_XYZ "T2_b".
Proof.
  eapply (report_back_requests_justified unit keep_order false
            [("copy2", sample_rule)] sample_inventory tt _ dataset_XYZ "T2_b").
  - intros A g0 l. reflexivity.
  - vm_compute. reflexivity.
  - rewrite !elem_of_cons. auto.
Defined.

(** X16.  The replicas of a dataset at the destination sites are looked up
    in the partition of the source site under which the dataset is checked.
    When that partition holds no replica at a destination site (a source
    site that is not itself a destination), none of the dataset's replicas
    is counted or offered for a change of ownership, and the rule requests
    the dataset at [min(target_num, number of destination sites without a
    full replica)] sites, however many complete replicas the destination
    group already owns at destination sites. *)
Theorem check_replica_counts_source_partition (rng : Type)
    (shuffle : forall A : Type, rng -> list A -> list A * rng)
    (rule : EnforcerRule) (destinations : gset string) (destination_group : string)
    (target_num : nat) (site_partition : SitePartition) (st : rule_state rng)
    (replica : DatasetReplica) :
  (forall (A : Type) (g0 : rng) (l : list A), fst (shuffle A g0 l) ≡ₚ l) ->
  (forall rv, rv ∈ sp_replicas site_partition ->
              rd_site (data (fst rv)) ∉ destinations) ->
  dataset_name (dataset replica) ∉ checked_datasets rng st ->
  existsb (fun condition => condition replica) (target_replicas rule) = true ->
  (0 < target_num)%nat ->
  exists st' request_sites,
    check_replica rng shuffle false rule destinations destination_group target_num
      site_partition st replica = Some st' /\
    requests rng st' = requests rng st ++ map (Request (dataset replica)) request_sites /\
    length request_sites
    = Nat.min target_num
        (size (destinations
               ∖ list_to_set
                   (map rd_site (filter (fun r => rd_is_full r = true)
                                   (replicas (dataset replica)))))).
Proof.
  intros Hshuffle Hpartition Hnew Htarget Hpos.
  unfold check_replica.
  rewrite bool_decide_eq_false_2 by done.
  rewrite Htarget. simpl.
  rewrite (count_replica_elsewhere destinations site_partition destination_group
             (dataset replica) (replicas (dataset replica)) (mkCounts 0 0 [] [])
             Hpartition). simpl.
  destruct (Nat.leb_spec target_num 0) as [Hle|_]; [lia|].
  set (site_candidates := destinations ∖ _).
  destruct (Nat.eqb_spec (size site_candidates) 0) as [Hempty|Hnonempty]; simpl.
  - eexists _, []. split; [done|]. simpl. rewrite app_nil_r. split; [done|lia].
  - pose proof (Hshuffle string (generator rng st) (elements site_candidates)) as Hperm.
    destruct (shuffle string _ _) as [candidates g]. simpl in Hperm.
    destruct (request_loop_total (S target_num) 0 target_num [] candidates [])
      as [out Hout]; [simpl; lia|].
    pose proof Hout as Hloop. simpl in Hloop. rewrite Hloop.
    eexists _, out. split; [done|]. simpl. split; [done|].
    apply request_loop_candidates in Hout; [|simpl; lia].
    rewrite Hout. simpl. by rewrite Hperm.
Qed.

(** The dataset is complete at [T2_b], owned by [G]; it is checked under the
    source site [T1_a]. *)
Definition dataset_copied : Dataset :=
  mkDataset "/X/Y/Z" 1000
    [mkReplicaData "T1_a" [mkBlockReplica "b1" (Some "G")] true 1000 1000;
     mkReplicaData "T2_b" [mkBlockReplica "b1" (Some "G")] true 1000 1000].

Definition partition_T1_a : SitePartition :=
  mkSitePartition "T1_a" 100
    [(mkDatasetReplica dataset_copied
        (mkReplicaData "T1_a" [mkBlockReplica "b1" (Some "G")] true 1000 1000), None)].

Lemma check_replica_counts_source_partition_witness :
  exists st' request_sites,
    check_replica unit keep_order false sample_rule {["T2_b"; "T2_c"]} "G" 1
      partition_T1_a (mkRuleState unit ∅ [] [] [] [] tt)
      (mkDatasetReplica dataset_copied
         (mkReplicaData "T1_a" [mkBlockReplica "b1" (Some "G")] true 1000 1000))
      = Some st' /\
    requests unit st'
    = [] ++ map (Request dataset_copied) request_sites /\
    length request_sites
    = Nat.min 1
        (size (({["T2_b"; "T2_c"]} : gset string)
               ∖ list_to_set
                   (map rd_site (filter (fun r => rd_is_full r = true)
                                   (replicas dataset_copied))))).
Proof.
  apply (check_replica_counts_source_partition unit keep_order sample_rule
           {["T2_b"; "T2_c"]} "G" 1 partition_T1_a
           (mkRuleState unit ∅ [] [] [] [] tt)
           (mkDatasetReplica dataset_copied
              (mkReplicaData "T1_a" [mkBlockReplica "b1" (Some "G")] true 1000 1000))).
  - intros A g0 l. reflexivity.
  - intros rv Hrv. apply list_elem_of_singleton in Hrv as ->. simpl. set_solver.
  - simpl. set_solver.
  - reflexivity.
  - lia.
Defined.

End EnforcerFacts.

(* ===================================================================== *)
(** * lib/common/interface/phedexdbsssb.py: [set_site_status]             *)
(* ===================================================================== *)

Module SiteStatus.

(** [Site.STAT_READY], [Site.STAT_WAITROOM], [Site.STAT_MORGUE] *)
Inductive site_status := STAT_READY | STAT_WAITROOM | STAT_MORGUE.

(** An entry of the [csvdata] of the dashboard: [entry['VOName']], the time
    [time.mktime(time.strptime(entry['Time'], ...))] in seconds, and
    [entry['Status']]. *)
Record ssb_entry := mkEntry {
  VOName : string;
  Time : Z;
  Status : string
}.

(** The status written for an entry of the column of [stat]. *)
Definition verdict (stat : site_status) (entry : ssb_entry) : site_status :=
  if String.eqb (Status entry) "in" then stat else STAT_READY.

(** The body of [for entry in source]: the statuses of the sites (by their
    key in [sites]) and [latest_timestamp]. *)
Definition process_entry (stat : site_status)
    (st : gmap string site_status * gmap string Z) (entry : ssb_entry)
    : gmap string site_status * gmap string Z :=
  let '(statuses, latest_timestamp) := st in
  match statuses !! VOName entry with
  | None => st                                                    (* KeyError *)
  | Some _ =>
      match latest_timestamp !! VOName entry with
      | Some latest =>
          if latest >? Time entry then st
          else (<[VOName entry := verdict stat entry]> statuses,
                <[VOName entry := Time entry]> latest_timestamp)
      | None =>
          (<[VOName entry := verdict stat entry]> statuses,
           <[VOName entry := Time entry]> latest_timestamp)
      end
  end.

(** One column: [latest_timestamp] starts empty. *)
Definition process_column (stat : site_status) (statuses : gmap string site_status)
    (source : list ssb_entry) : gmap string site_status :=
  fst (foldl (process_entry stat) (statuses, ∅) source).

(** The loop over the columns; [ssb colid] is
    [json.loads(result)['csvdata']] for the column, [None] when the key is
    missing (SSB parse error: return). *)
Fixpoint process_columns (ssb : Z -> option (list ssb_entry))
    (statuses : gmap string site_status) (columns : list (Z * site_status))
    : gmap string site_status :=
  match columns with
  | [] => statuses
  | (colid, stat) :: rest =>
      match ssb colid with
      | None => statuses
      | Some source => process_columns ssb (process_column stat statuses source) rest
      end
  end.

(** [set_site_status]: every site is set ready, then the waiting room (153)
    and the morgue (199) are read. *)
Definition set_site_status (ssb : Z -> option (list ssb_entry))
    (statuses : gmap string site_status) : gmap string site_status :=
  process_columns ssb ((fun _ => STAT_READY) <$> statuses)
    [(153, STAT_WAITROOM); (199, STAT_MORGUE)].

(** The entries of a site in a column. *)
Definition entries_of (name : string) (source : list ssb_entry) : list ssb_entry :=
  filter (fun entry => VOName entry = name) source.

(** [entry] decides among [entries]: no entry is more recent, and the
    entries after it are older. *)
Definition decides (entry : ssb_entry) (entries : list ssb_entry) : Prop :=
  exists before after,
    entries = before ++ entry :: after /\
    Forall (fun e => Time e <= Time entry) before /\
    Forall (fun e => Time e < Time entry) after.

(** What the loop does to one site. *)
Definition site_step (stat : site_status) (st : site_status * option Z)
    (entry : ssb_entry) : site_status * option Z :=
  match snd st with
  | Some latest =>
      if latest >? Time entry then st else (verdict stat entry, Some (Time entry))
  | None => (verdict stat entry, Some (Time entry))
  end.

Lemma process_entry_site (stat : site_status) (name : string)
    (st : gmap string site_status * gmap string Z) (entry : ssb_entry)
    (status : site_status) :
  fst st !! name = Some status ->
  let st' := process_entry stat st entry in
  (fst st' !! name, snd st' !! name)
  = if decide (VOName entry = name)
    then let r := site_step stat (status, snd st !! name) entry in (Some (fst r), snd r)
    else (Some status, snd st !! name).
Proof.
  destruct st as [statuses latest]. simpl. intros Hname.
  unfold process_entry, site_step.
  destruct (decide (VOName entry = name)) as [->|Hne].
  - rewrite Hname. simpl. destruct (latest !! name) as [t|] eqn:Hlatest.
    + destruct (t >? Time entry); simpl; [by rewrite Hname, Hlatest|].
      by rewrite !lookup_insert_eq.
    + simpl. by rewrite !lookup_insert_eq.
  - destruct (statuses !! VOName entry); simpl; [|by rewrite Hname].
    destruct (latest !! VOName entry) as [t|].
    + destruct (t >? Time entry); simpl; [by rewrite Hname|].
      by rewrite !lookup_insert_ne, Hname.
    + simpl. by rewrite !lookup_insert_ne, Hname.
Qed.

Lemma process_entries_site (stat : site_status) (name : string)
    (source : list ssb_entry) (st : gmap string site_status * gmap string Z)
    (status : site_status) :
  fst st !! name = Some status ->
  let st' := foldl (process_entry stat) st source in
  let r := foldl (site_step stat) (status, snd st !! name) (entries_of name source) in
  fst st' !! name = Some (fst r) /\ snd st' !! name = snd r.
Proof.
  revert st status. induction source as [|entry source IH]; intros st status Hname; simpl.
  - done.
  - pose proof (process_entry_site stat name st entry status Hname) as Hstep.
    simpl in Hstep. unfold entries_of. rewrite filter_cons.
    destruct (decide (VOName entry = name)) as [Heq|Hne].
    + injection Hstep as H1 H2. simpl.
      specialize (IH (process_entry stat st entry) _ H1). simpl in IH.
      rewrite H2 in IH.
      by destruct (site_step stat (status, snd st !! name) entry).
    + injection Hstep as H1 H2.
      specialize (IH (process_entry stat st entry) _ H1). simpl in IH.
      by rewrite H2 in IH.
Qed.

Lemma site_step_decides (stat : site_status) (status : site_status)
    (entries : list ssb_entry) :
  entries <> [] ->
  exists entry,
    decides entry entries /\
    foldl (site_step stat) (status, None) entries
    = (verdict stat entry, Some (Time entry)).
Proof.
  induction entries as [|x entries IH] using rev_ind; [done|]. intros _.
  rewrite foldl_app. simpl.
  destruct entries as [|y entries'].
  - exists x. split; [|done]. exists [], []. by split_and!.
  - remember (y :: entries') as es eqn:Hes.
    destruct IH as (entry & (before & after & Hsplit & Hbefore & Hafter) & Hfold);
      [by subst|].
    rewrite Hfold. unfold site_step. simpl.
    destruct (Z.gtb_spec (Time entry) (Time x)) as [Hgt|Hle].
    + exists entry. split; [|done].
      exists before, (after ++ [x]). split_and!; [|done|].
      * rewrite Hsplit. by rewrite <- app_assoc.
      * apply Forall_app. split; [done|]. apply Forall_singleton. lia.
    + exists x. split; [|done].
      exists es, []. split_and!; [done| |done].
      rewrite Hsplit. apply Forall_app. split.
      * eapply Forall_impl; [exact Hbefore|]. simpl. lia.
      * constructor; [lia|]. eapply Forall_impl; [exact Hafter|]. simpl. lia.
Qed.

(** One column, for one site. *)
Lemma process_column_site (stat : site_status) (statuses : gmap string site_status)
    (source : list ssb_entry) (name : string) :
  match statuses !! name with
  | None => process_column stat statuses source !! name = None
  | Some status =>
      (entries_of name source = [] /\
       process_column stat statuses source !! name = Some status) \/
      (exists entry,
          decides entry (entries_of name source) /\
          process_column stat statuses source !! name = Some (verdict stat entry))
  end.
Proof.
  unfold process_column.
  destruct (statuses !! name) as [status|] eqn:Hname.
  - pose proof (process_entries_site stat name source (statuses, ∅) status Hname)
      as [Hstatus _]. simpl in Hstatus. rewrite lookup_empty in Hstatus.
    destruct (entries_of name source) as [|e es] eqn:Hentries.
    + left. done.
    + right.
      destruct (site_step_decides stat status (e :: es) ltac:(done))
        as (entry & Hdecides & Hfold).
      exists entry. split; [done|]. by rewrite Hstatus, Hfold.
  - assert (H : forall st, fst st !! name = None ->
                           fst (foldl (process_entry stat) st source) !! name = None).
    { induction source as [|entry source IH]; intros st Hst; simpl; [done|].
      apply IH. destruct st as [s l]. simpl in *. unfold process_entry.
      destruct (s !! VOName entry) eqn:Hentry; [|done].
      assert (VOName entry <> name) by (intros Heq; rewrite Heq in Hentry; congruence).
      destruct (l !! VOName entry) as [t|].
      - destruct (t >? Time entry); simpl; [done|]. by rewrite lookup_insert_ne.
      - simpl. by rewrite lookup_insert_ne. }
    by apply H.
Qed.

(** X17.  [set_site_status] with both columns readable.  The sites stay the
    same.  A site with entries in the morgue column has its status from that
    column alone: from the most recent entry (the last one of these, when
    several have the same time), [STAT_MORGUE] if it says 'in' and
    [STAT_READY] otherwise, also when the waiting room column lists the site
    as 'in'.  A site with no entry in the morgue column has its status from
    the waiting room column in the same way, and a site in neither is
    ready. *)
Theorem set_site_status_latest_entry (ssb : Z -> option (list ssb_entry))
    (statuses : gmap string site_status) (waitroom morgue : list ssb_entry)
    (name : string) :
  ssb 153 = Some waitroom ->
  ssb 199 = Some morgue ->
  match statuses !! name with
  | None => set_site_status ssb statuses !! name = None
  | Some _ =>
      exists status,
        set_site_status ssb statuses !! name = Some status /\
        match entries_of name morgue, entries_of name waitroom with
        | _ :: _, _ =>
            exists entry, decides entry (entries_of name morgue) /\
                          status = verdict STAT_MORGUE entry
        | [], _ :: _ =>
            exists entry, decides entry (entries_of name waitroom) /\
                          status = verdict STAT_WAITROOM entry
        | [], [] => status = STAT_READY
        end
  end.
Proof.
  intros Hwaitroom Hmorgue. unfold set_site_status. simpl.
  rewrite Hwaitroom, Hmorgue.
  set (ready := (fun _ => STAT_READY) <$> statuses).
  assert (Hready : ready !! name = (fun _ => STAT_READY) <$> statuses !! name)
    by apply lookup_fmap.
  pose proof (process_column_site STAT_WAITROOM ready waitroom name) as H1.
  set (after_waitroom := process_column STAT_WAITROOM ready waitroom) in *.
  pose proof (process_column_site STAT_MORGUE after_waitroom morgue name) as H2.
  destruct (statuses !! name) as [s0|]; simpl in Hready; rewrite Hready in H1.
  - destruct H1 as [[Hnone1 H1]|(e1 & Hd1 & H1)]; rewrite H1 in H2.
    + destruct H2 as [[Hnone2 H2]|(e2 & Hd2 & H2)].
      * exists STAT_READY. split; [done|]. by rewrite Hnone1, Hnone2.
      * eexists. split; [exact H2|].
        destruct (entries_of name morgue) as [|m ms] eqn:Hm.
        -- destruct Hd2 as (b & a & Hsplit & _). by destruct b.
        -- exists e2. done.
    + destruct H2 as [[Hnone2 H2]|(e2 & Hd2 & H2)].
      * eexists. split; [exact H2|]. rewrite Hnone2.
        destruct (entries_of name waitroom) as [|w ws] eqn:Hw.
        -- destruct Hd1 as (b & a & Hsplit & _). by destruct b.
        -- exists e1. done.
      * eexists. split; [exact H2|].
        destruct (entries_of name morgue) as [|m ms] eqn:Hm.
        -- destruct Hd2 as (b & a & Hsplit & _). by destruct b.
        -- exists e2. done.
  - rewrite H1 in H2. done.
Qed.

(** The site is in the waiting room, and left the morgue later than it
    entered it. *)
Definition sample_ssb (colid : Z) : option (list ssb_entry) :=
  if colid =? 153 then Some [mkEntry "T2_A" 100 "in"]
  else if colid =? 199 then
    Some [mkEntry "T2_A" 50 "in"; mkEntry "T2_A" 60 "out"; mkEntry "T2_X" 70 "in"]
  else None.

Lemma set_site_status_latest_entry_witness :
  match ({["T2_A" := STAT_WAITROOM]} : gmap string site_status) !! "T2_A" with
  | None => set_site_status sample_ssb {["T2_A" := STAT_WAITROOM]} !! "T2_A" = None
  | Some _ =>
      exists status,
        set_site_status sample_ssb {["T2_A" := STAT_WAITROOM]} !! "T2_A" = Some status /\
        match entries_of "T2_A"
                [mkEntry "T2_A" 50 "in"; mkEntry "T2_A" 60 "out"; mkEntry "T2_X" 70 "in"],
              entries_of "T2_A" [mkEntry "T2_A" 100 "in"] with
        | _ :: _, _ =>
            exists entry,
              decides entry
                (entries_of "T2_A"
                   [mkEntry "T2_A" 50 "in"; mkEntry "T2_A" 60 "out";
                    mkEntry "T2_X" 70 "in"]) /\
              status = verdict STAT_MORGUE entry
        | [], _ :: _ =>
            exists entry, decides entry (entries_of "T2_A" [mkEntry "T2_A" 100 "in"]) /\
                          status = verdict STAT_WAITROOM entry
        | [], [] => status = STAT_READY
        end
  end.
Proof.
  apply (set_site_status_latest_entry sample_ssb {["T2_A" := STAT_WAITROOM]}
           [mkEntry "T2_A" 100 "in"]
           [mkEntry "T2_A" 50 "in"; mkEntry "T2_A" 60 "out"; mkEntry "T2_X" 70 "in"]
           "T2_A"); reflexivity.
Defined.

End SiteStatus.

(* ===================================================================== *)
(** * lib/core/persistency/impl/mysqlstore.py: [_load_blocks]             *)
(* ===================================================================== *)

Module MySQLLoadBlocks.

(** A row of
    [SELECT b.id, b.dataset_id, b.name, b.size, b.num_files, b.is_open,
     UNIX_TIMESTAMP(b.last_update) FROM blocks AS b ... ORDER BY b.dataset_id]. *)
Record block_row := mkBlockRow {
  row_block_id : Z;
  row_dataset_id : Z;
  row_name : string;
  row_size : Z;
  row_num_files : Z;
  row_is_open : Z;
  row_last_update : Z
}.

(** A [Block]; its dataset is the object of [id_dataset_map] under
    [block_dataset]. *)
Record Block := mkBlock {
  block_name : string;
  block_dataset : Z;
  block_size : Z;
  block_num_files : Z;
  block_is_open : bool;
  block_last_update : Z;
  bid : Z
}.

(** What [_load_blocks] reads and writes of a [Dataset]; [blocks] in the
    order the blocks were added. *)
Record Dataset := mkDataset {
  dataset_name : string;
  dataset_size : Z;
  dataset_num_files : Z;
  blocks : list Block
}.

(** The variables of the loop: the datasets of [id_dataset_map] by id,
    [id_block_maps], [_dataset_id], and the id under which [dataset] and
    [id_block_map] are bound ([dataset] is [None] and [id_block_map] is not
    bound before the first change of dataset). *)
Record load_state := mkLoad {
  id_dataset_map : gmap Z Dataset;
  id_block_maps : gmap Z (gmap Z Block);
  _dataset_id : Z;
  current : option Z
}.

Section LoadBlocks.

(** [Block.to_internal_name] is not part of the sources. *)
Variable to_internal_name : string -> string.

Definition make_block (dataset : Z) (row : block_row) : Block :=
  mkBlock (to_internal_name (row_name row)) dataset (row_size row)
    (row_num_files row) (row_is_open row =? 1) (row_last_update row)
    (row_block_id row).

(** [if dataset_id != _dataset_id: ...]; [None] is the [KeyError] of
    [id_dataset_map]. *)
Definition enter_dataset (st : load_state) (row : block_row) : option load_state :=
  if bool_decide (row_dataset_id row <> _dataset_id st) then
    match id_dataset_map st !! row_dataset_id row with
    | None => None
    | Some dataset =>
        Some (mkLoad
                (<[row_dataset_id row := mkDataset (dataset_name dataset) 0 0 []]>
                   (id_dataset_map st))
                (<[row_dataset_id row := ∅]> (id_block_maps st))
                (row_dataset_id row)
                (Some (row_dataset_id row)))
    end
  else Some st.

(** One turn of the loop; [None] is an exception. *)
Definition load_row (st : load_state) (row : block_row) : option load_state :=
  match enter_dataset st row with
  | None => None
  | Some st1 =>
      match current st1 with
      | None => None                         (* [dataset] is [None] *)
      | Some cur =>
          match id_dataset_map st1 !! cur, id_block_maps st1 !! cur with
          | Some dataset, Some id_block_map =>
              let block := make_block cur row in
              Some (mkLoad
                      (<[cur := mkDataset (dataset_name dataset)
                                  (dataset_size dataset + block_size block)
                                  (dataset_num_files dataset + block_num_files block)
                                  (blocks dataset ++ [block])]>
                         (id_dataset_map st1))
                      (<[cur := <[row_block_id row := block]> id_block_map]>
                         (id_block_maps st1))
                      (_dataset_id st1) (current st1))
          | _, _ => None
          end
      end
  end.

Fixpoint load_rows (st : load_state) (rows : list block_row) : option load_state :=
  match rows with
  | [] => Some st
  | row :: rest =>
      match load_row st row with
      | None => None
      | Some st' => load_rows st' rest
      end
  end.

(** [_load_blocks] on the rows of its query. *)
Definition _load_blocks (datasets : gmap Z Dataset)
    (block_maps : gmap Z (gmap Z Block)) (rows : list block_row)
    : option (gmap Z Dataset * gmap Z (gmap Z Block)) :=
  match load_rows (mkLoad datasets block_maps 0 None) rows with
  | None => None
  | Some st => Some (id_dataset_map st, id_block_maps st)
  end.

End LoadBlocks.

Definition Zsum (l : list Z) : Z := foldr Z.add 0 l.

(** The rows of a dataset. *)
Definition rows_of (id : Z) (rows : list block_row) : list block_row :=
  filter (fun row => row_dataset_id row = id) rows.

(** A dataset after its rows [rs] were loaded. *)
Definition loaded (to_internal_name : string -> string) (id : Z)
    (dataset : Dataset) (rs : list block_row) : Dataset :=
  match rs with
  | [] => dataset
  | _ :: _ =>
      mkDataset (dataset_name dataset) (Zsum (map row_size rs))
        (Zsum (map row_num_files rs)) (map (make_block to_internal_name id) rs)
  end.

(** The blocks of a dataset by id, after its rows [rs] were loaded. *)
Definition loaded_map (to_internal_name : string -> string) (id : Z)
    (before : option (gmap Z Block)) (rs : list block_row) : option (gmap Z Block) :=
  match rs with
  | [] => before
  | _ :: _ =>
      Some (foldl (fun m row =>
                     <[row_block_id row := make_block to_internal_name id row]> m)
              ∅ rs)
  end.

Lemma rows_of_none (id : Z) (rows : list block_row) :
  (forall row, row ∈ rows -> row_dataset_id row <> id) -> rows_of id rows = [].
Proof.
  unfold rows_of. induction rows as [|row rows IH]; intros H; [done|].
  rewrite filter_cons, decide_False by (apply H; by left).
  apply IH. intros r Hr. apply H. by right.
Qed.

Lemma Zsum_app (l1 l2 : list Z) : Zsum (l1 ++ l2) = Zsum l1 + Zsum l2.
Proof. unfold Zsum. induction l1 as [|x l1 IH]; simpl; lia. Qed.

Section LoadBlocksFacts.

Variable to_internal_name : string -> string.
Variable datasets : gmap Z Dataset.
Variable block_maps : gmap Z (gmap Z Block).

Local Abbreviation load_row := (load_row to_internal_name).
Local Abbreviation load_rows := (load_rows to_internal_name).
Local Abbreviation loaded := (loaded to_internal_name).
Local Abbreviation loaded_map := (loaded_map to_internal_name).

Lemma load_rows_app (rows1 rows2 : list block_row) (st : load_state) :
  load_rows st (rows1 ++ rows2)
  = match load_rows st rows1 with
    | None => None
    | Some st' => load_rows st' rows2
    end.
Proof.
  revert st. induction rows1 as [|row rows1 IH]; intros st; simpl; [done|].
  destruct (load_row st row); [apply IH|done].
Qed.

(** The state after the rows [pre]. *)
Definition load_inv (pre : list block_row) (st : load_state) : Prop :=
  _dataset_id st = match last pre with Some row => row_dataset_id row | None => 0 end /\
  current st = match last pre with Some row => Some (row_dataset_id row) | None => None end /\
  (forall id, id_dataset_map st !! id
              = (fun d => loaded id d (rows_of id pre)) <$> datasets !! id) /\
  (forall id, id_block_maps st !! id = loaded_map id (block_maps !! id) (rows_of id pre)).

Lemma rows_of_snoc (id : Z) (pre : list block_row) (row : block_row) :
  rows_of id (pre ++ [row])
  = if decide (row_dataset_id row = id) then rows_of id pre ++ [row] else rows_of id pre.
Proof.
  unfold rows_of. rewrite filter_app, filter_cons, filter_nil.
  destruct (decide _); [done|by rewrite app_nil_r].
Qed.

Lemma loaded_snoc (id : Z) (d : Dataset) (rs : list block_row) (row : block_row) :
  loaded id d (rs ++ [row])
  = let d0 := match rs with
              | [] => mkDataset (dataset_name d) 0 0 []
              | _ :: _ => loaded id d rs
              end in
    mkDataset (dataset_name d0) (dataset_size d0 + row_size row)
      (dataset_num_files d0 + row_num_files row)
      (blocks d0 ++ [make_block to_internal_name id row]).
Proof.
  destruct rs as [|r rs]; simpl; [f_equal; lia|].
  rewrite !map_app. simpl.
  change (row_size r :: map row_size rs ++ [row_size row])
    with ((row_size r :: map row_size rs) ++ [row_size row]).
  change (row_num_files r :: map row_num_files rs ++ [row_num_files row])
    with ((row_num_files r :: map row_num_files rs) ++ [row_num_files row]).
  rewrite !Zsum_app. unfold Zsum. simpl. f_equal; lia.
Qed.

Lemma loaded_map_snoc (id : Z) (before : option (gmap Z Block))
    (rs : list block_row) (row : block_row) :
  loaded_map id before (rs ++ [row])
  = Some (<[row_block_id row := make_block to_internal_name id row]>
            (match rs with
             | [] => ∅
             | _ :: _ => default ∅ (loaded_map id before rs)
             end)).
Proof.
  destruct rs as [|r rs]; simpl; [done|].
  by rewrite foldl_app.
Qed.

Lemma load_block_row_inv (pre : list block_row) (row : block_row) (st : load_state) :
  StronglySorted Z.le (map row_dataset_id (pre ++ [row])) ->
  row_dataset_id row <> 0 ->
  is_Some (datasets !! row_dataset_id row) ->
  load_inv pre st ->
  exists st', load_row st row = Some st' /\ load_inv (pre ++ [row]) st'.
Proof.
  intros Hsorted Hnonzero [d Hd] (Hid & Hcur & Hdatasets & Hmaps).
  rewrite map_app in Hsorted.
  apply StronglySorted_app in Hsorted as (Hle & Hsorted & _).
  assert (Hpre : forall r, r ∈ pre -> row_dataset_id r <= row_dataset_id row).
  { intros r Hr. apply Hle; [by apply list_elem_of_fmap_2|]. simpl. by left. }
  set (k := row_dataset_id row) in *.
  assert (Hstate :
    exists st1, enter_dataset st row = Some st1 /\
      _dataset_id st1 = k /\ current st1 = Some k /\
      (forall id, id_dataset_map st1 !! id
                  = if decide (k = id)
                    then Some (match rows_of k pre with
                               | [] => mkDataset (dataset_name d) 0 0 []
                               | _ :: _ => loaded k d (rows_of k pre)
                               end)
                    else (fun d => loaded id d (rows_of id pre)) <$> datasets !! id) /\
      (forall id, id_block_maps st1 !! id
                  = if decide (k = id)
                    then Some (match rows_of k pre with
                               | [] => ∅
                               | _ :: _ => default ∅ (loaded_map k (block_maps !! k)
                                                        (rows_of k pre))
                               end)
                    else loaded_map id (block_maps !! id) (rows_of id pre))).
  { unfold enter_dataset. fold k. case_bool_decide as Hchange.
    - (* a new dataset: none of the rows before is one of it *)
      assert (Hnone : rows_of k pre = []).
      { apply rows_of_none. intros r Hr Hrk. destruct (last pre) as [l|] eqn:Hlast.
        - apply last_Some in Hlast as [pre' ->].
          rewrite map_app in Hsorted.
          apply StronglySorted_app in Hsorted as (Hlast & _ & _).
          assert (row_dataset_id r <= row_dataset_id l) as Hrl.
          { apply elem_of_app in Hr as [Hr|Hr].
            - apply Hlast; [by apply list_elem_of_fmap_2|]. simpl. by left.
            - apply list_elem_of_singleton in Hr as ->. lia. }
          specialize (Hpre l ltac:(set_solver)). simpl in Hid. lia.
        - apply last_None in Hlast. subst pre. by apply elem_of_nil in Hr. }
      rewrite Hdatasets, Hd. simpl.
      eexists. split; [done|]. simpl. rewrite Hnone. split_and!; [done|done| |].
      + intros id. destruct (decide (k = id)) as [<-|Hne].
        * by rewrite lookup_insert_eq.
        * by rewrite lookup_insert_ne, Hdatasets.
      + intros id. destruct (decide (k = id)) as [<-|Hne].
        * by rewrite lookup_insert_eq.
        * by rewrite lookup_insert_ne, Hmaps.
    - destruct (last pre) as [l|] eqn:Hlast; [|congruence].
      apply last_Some in Hlast as [pre' ->].
      eexists. split; [done|]. split_and!; [congruence|congruence| |].
      + intros id. rewrite Hdatasets. destruct (decide (k = id)) as [<-|Hne]; [|done].
        rewrite Hd. simpl. rewrite rows_of_snoc.
        rewrite decide_True by congruence.
        by destruct (rows_of k pre').
      + intros id. rewrite Hmaps. destruct (decide (k = id)) as [<-|Hne]; [|done].
        rewrite rows_of_snoc. rewrite decide_True by congruence.
        by destruct (rows_of k pre'). }
  destruct Hstate as (st1 & Henter & Hid1 & Hcur1 & Hdatasets1 & Hmaps1).
  unfold MySQLLoadBlocks.load_row. rewrite Henter, Hcur1.
  rewrite Hdatasets1, Hmaps1, !decide_True by done.
  eexists. split; [done|]. unfold load_inv. rewrite last_snoc.
  split_and!; simpl; [done|done| |].
  - intros id. rewrite rows_of_snoc. fold k. destruct (decide (k = id)) as [<-|Hne].
    + rewrite lookup_insert_eq, Hd. simpl. rewrite loaded_snoc.
      by destruct (rows_of k pre).
    + by rewrite lookup_insert_ne, Hdatasets1, decide_False.
  - intros id. rewrite rows_of_snoc. fold k. destruct (decide (k = id)) as [<-|Hne].
    + rewrite lookup_insert_eq, loaded_map_snoc. done.
    + by rewrite lookup_insert_ne, Hmaps1, decide_False.
Qed.

Lemma load_block_rows_inv (rows : list block_row) :
  StronglySorted Z.le (map row_dataset_id rows) ->
  Forall (fun row => row_dataset_id row <> 0 /\
                     is_Some (datasets !! row_dataset_id row)) rows ->
  exists st, load_rows (mkLoad datasets block_maps 0 None) rows = Some st /\
             load_inv rows st.
Proof.
  induction rows as [|row rows IH] using rev_ind; intros Hsorted Hrows.
  - eexists. split; [done|]. split_and!; simpl; try done.
    intros id. by destruct (datasets !! id).
  - apply Forall_app in Hrows as [Hrows Hrow].
    apply Forall_singleton in Hrow as [Hnonzero Hknown].
    destruct IH as (st & Hload & Hinv); [|done|].
    { rewrite map_app in Hsorted. by apply StronglySorted_app in Hsorted as (_ & ? & _). }
    destruct (load_block_row_inv rows row st Hsorted Hnonzero Hknown Hinv)
      as (st' & Hrow & Hinv').
    exists st'. split; [|done].
    rewrite load_rows_app, Hload. simpl. by rewrite Hrow.
Qed.

End LoadBlocksFacts.

(** X18.  [_load_blocks] on rows ordered by dataset id (as its query orders
    them), with ids other than 0 and of datasets in [id_dataset_map]: it
    returns; a dataset with at least one row has as blocks the blocks of its
    rows, in order, and as size and number of files the sums over its rows,
    whatever they were before, and [id_block_maps] gives its blocks by id; a
    dataset with no row keeps its size, number of files and blocks, and
    gets no entry in [id_block_maps]. *)
Theorem _load_blocks_totals (to_internal_name : string -> string)
    (datasets : gmap Z Dataset) (block_maps : gmap Z (gmap Z Block))
    (rows : list block_row) :
  StronglySorted Z.le (map row_dataset_id rows) ->
  Forall (fun row => row_dataset_id row <> 0 /\
                     is_Some (datasets !! row_dataset_id row)) rows ->
  exists datasets' block_maps',
    _load_blocks to_internal_name datasets block_maps rows
    = Some (datasets', block_maps') /\
    (forall id,
        datasets' !! id
        = (fun d => loaded to_internal_name id d (rows_of id rows)) <$> datasets !! id) /\
    (forall id,
        block_maps' !! id
        = loaded_map to_internal_name id (block_maps !! id) (rows_of id rows)).
Proof.
  intros Hsorted Hrows.
  destruct (load_block_rows_inv to_internal_name datasets block_maps rows Hsorted Hrows)
    as (st & Hload & _ & _ & Hdatasets & Hmaps).
  unfold _load_blocks. rewrite Hload. eauto.
Qed.

(** A dataset stored with size 5 and 9 files, and two rows of blocks. *)
Definition sample_datasets : gmap Z Dataset :=
  {[1 := mkDataset "/A/x/y" 5 9 []; 2 := mkDataset "/B/x/y" 7 1 []]}.

Definition sample_rows : list block_row :=
  [mkBlockRow 10 1 "b1" 100 2 0 0; mkBlockRow 11 1 "b2" 50 1 1 0].

Lemma _load_blocks_totals_witness :
  exists datasets' block_maps',
    _load_blocks (fun name => name) sample_datasets ∅ sample_rows
    = Some (datasets', block_maps') /\
    (forall id,
        datasets' !! id
        = (fun d => loaded (fun name => name) id d (rows_of id sample_rows))
            <$> sample_datasets !! id) /\
    (forall id,
        block_maps' !! id
        = loaded_map (fun name => name) id
            ((∅ : gmap Z (gmap Z Block)) !! id) (rows_of id sample_rows)).
Proof.
  apply (_load_blocks_totals (fun name => name) sample_datasets ∅ sample_rows).
  - apply SSorted_cons;
      [apply SSorted_cons; [apply SSorted_nil|apply Forall_nil; done]|].
    apply Forall_cons; split; [simpl; lia|apply Forall_nil; done].
  - apply Forall_cons; split; [split; [done|by eexists]|].
    apply Forall_cons; split; [split; [done|by eexists]|apply Forall_nil; done].
Defined.

End MySQLLoadBlocks.

(* ===================================================================== *)
(** * lib/core/persistency/impl/mysqlstore.py: what [_load_replicas] builds *)
(* ===================================================================== *)

Module MySQLLoadReplicas.
Import MySQLStore.





Section LoadReplicasFacts.

Variable id_group_map : gmap Z Group.
Variable id_site_map : gmap Z Site.
Variable id_dataset_map : gmap Z Dataset.
Variable id_block_maps : gmap Z (gmap Z Block).

Local Abbreviation enter_dataset := (enter_dataset id_dataset_map id_block_maps).
Local Abbreviation enter_site := (enter_site id_site_map).
Local Abbreviation load_row :=
  (load_row id_group_map id_site_map id_dataset_map id_block_maps).
Local Abbreviation load_rows :=
  (load_rows id_group_map id_site_map id_dataset_map id_block_maps).







(** The variables of the loop are bound once a dataset and a site were
    entered. *)
Definition bound (st : load_state) : Prop :=
  (ls_dataset_id st <> 0 ->
   is_Some (ls_dataset st) /\
   is_Some (ls_id_block_map st) /\
   ls_id_block_map st = id_block_maps !! ls_dataset_id st) /\
  (ls_site_id st <> 0 -> is_Some (ls_site st)).

(** A row that [_load_replicas] can load. *)
Definition loadable (row : replica_row) : Prop :=
  row_dataset_id row <> 0 /\ row_site_id row <> 0 /\
  is_Some (id_dataset_map !! row_dataset_id row) /\
  is_Some (id_site_map !! row_site_id row) /\
  exists id_block_map,
    id_block_maps !! row_dataset_id row = Some id_block_map /\
    forall cols, row_replica row = Some cols ->
      is_Some (id_block_map !! col_block_id cols) /\
      is_Some (id_group_map !! col_group_id cols).

Lemma load_row_loadable (st : load_state) (row : replica_row) :
  bound st -> loadable row ->
  exists st', load_row st row = Some st' /\ bound st'.
Proof.
  intros [Hdataset Hsite] (Hd0 & Hs0 & [d Hd] & [s Hs] & m & Hm & Hcols).
  unfold MySQLStore.load_row.
  assert (H1 : exists st1, enter_dataset st row = Some st1 /\
                 ls_dataset_id st1 = row_dataset_id row /\
                 is_Some (ls_dataset st1) /\ ls_id_block_map st1 = Some m /\
                 ls_site_id st1 = ls_site_id st /\ ls_site st1 = ls_site st).
  { unfold MySQLStore.enter_dataset. case_bool_decide as Hchange.
    - rewrite Hd, Hm. eexists. split; [done|]. simpl. split_and!; eauto.
    - eexists. split; [done|].
      destruct Hdataset as (Hds & Hbm & Hbm'); [congruence|].
      split_and!; try done. rewrite Hbm', <- Hchange. done. }
  destruct H1 as (st1 & -> & Hid1 & [dataset Hds1] & Hbm1 & Hsid1 & Hsite1).
  assert (H2 : exists st2, enter_site st1 row = Some st2 /\
                 ls_dataset_id st2 = row_dataset_id row /\
                 ls_dataset st2 = Some dataset /\ ls_id_block_map st2 = Some m /\
                 ls_site_id st2 = row_site_id row /\ is_Some (ls_site st2)).
  { unfold MySQLStore.enter_site. case_bool_decide as Hchange.
    - rewrite Hs. eexists. split; [done|]. simpl. split_and!; eauto.
    - eexists. split; [done|]. split_and!; try done.
      rewrite Hsite1. apply Hsite. congruence. }
  destruct H2 as (st2 & -> & Hid2 & Hds2 & Hbm2 & Hsid2 & [site Hsite2]).
  rewrite Hds2, Hsite2.
  destruct (current_replica dataset site st2) as [dataset_replica linked].
  destruct (row_replica row) as [cols|] eqn:Hrow.
  - rewrite Hbm2. destruct (Hcols cols eq_refl) as [[block Hblock] [grp Hgrp]].
    rewrite Hblock, Hgrp. eexists. split; [done|].
    split; simpl; intros _; rewrite ?Hds2, ?Hbm2, ?Hsite2, ?Hid2, ?Hm; eauto.
  - eexists. split; [done|].
    split; simpl; intros _; rewrite ?Hds2, ?Hbm2, ?Hsite2, ?Hid2, ?Hm; eauto.
Qed.

Lemma load_rows_loadable (rows : list replica_row) (st : load_state) :
  bound st -> Forall loadable rows -> is_Some (load_rows st rows).
Proof.
  intros Hst Hrows. revert st Hst.
  induction Hrows as [|row rows Hrow _ IH]; intros st Hst; simpl; [eauto|].
  destruct (load_row_loadable st row Hst Hrow) as (st' & -> & Hst'). by apply IH.
Qed.

End LoadReplicasFacts.


(** The row of a partial replica of block 7 at site 3. *)
Definition partial_row : replica_row :=
  mkRow 1 3 (Some (mkColumns 7 1 0 0 5)) (Some 40).


(** X20.  [_load_replicas] returns (raises no [KeyError], and uses no
    variable before it is bound) when every row has a dataset id and a site
    id other than 0 that [id_dataset_map], [id_block_maps] and [id_site_map]
    know, and the block and the group of every row with a block replica are
    in the block map of the row's dataset and in [id_group_map]. *)
Theorem _load_replicas_returns (id_group_map : gmap Z Group)
    (id_site_map : gmap Z Site) (id_dataset_map : gmap Z Dataset)
    (id_block_maps : gmap Z (gmap Z Block)) (rows : list replica_row) :
  Forall (loadable id_group_map id_site_map id_dataset_map id_block_maps) rows ->
  is_Some (_load_replicas id_group_map id_site_map id_dataset_map id_block_maps rows).
Proof.
  intros Hrows. unfold _load_replicas.
  destruct (load_rows_loadable id_group_map id_site_map id_dataset_map id_block_maps
              rows (mkLoad 0 0 None None None None [])) as [st ->]; [|done|eauto].
  split; simpl; done.
Qed.

Lemma _load_replicas_returns_witness :
  is_Some (_load_replicas {[1 := grp1]} {[3 := site3]} {[1 := ds1]}
             {[1 := {[7 := blk1]}]} [partial_row]).
Proof.
  apply (_load_replicas_returns {[1 := grp1]} {[3 := site3]} {[1 := ds1]}
           {[1 := {[7 := blk1]}]} [partial_row]).
  apply Forall_singleton. unfold loadable. simpl.
  split_and!; [done|done|by eexists|by eexists|].
  exists {[7 := blk1]}. split; [done|].
  intros cols [= <-]. simpl. split; by eexists.
Defined.

End MySQLLoadReplicas.

(* ===================================================================== *)
(** * lib/core/persistency/impl/mysqlstore.py: the lists of names         *)
(* ===================================================================== *)

Module MySQLNames.

(** [s.replace(old, new)] for strings of one character. *)
Fixpoint replace_char (old new : ascii) (s : string) : string :=
  match s with
  | EmptyString => EmptyString
  | String c rest =>
      String (if Ascii.eqb c old then new else c) (replace_char old new rest)
  end.

(** [pattern.replace('*', '%').replace('?', '_')] *)
Definition like_pattern (pattern : string) : string :=
  replace_char "?" "_" (replace_char "*" "%" pattern).

Section Names.

(** [fnmatch.fnmatch(name, filt)] *)
Variable fnmatch : string -> string -> bool.

(** [for filt in filters: if fnmatch.fnmatch(name, filt): break] with its
    [else]: [true] is the [break]. *)
Fixpoint matches (name : string) (filters : list string) : bool :=
  match filters with
  | [] => false
  | filt :: rest => if fnmatch name filt then true else matches name rest
  end.

(** The loop over [names] of [get_group_names] and [get_site_names]. *)
Fixpoint select_names (include exclude : list string) (group_names : list string)
    (names : list string) : list string :=
  match names with
  | [] => group_names
  | name :: rest =>
      if negb (matches name include) then
        (* no match *)
        select_names include exclude group_names rest
      else if matches name exclude then
        select_names include exclude group_names rest
      else
        (* no match *)
        select_names include exclude (group_names ++ [name]) rest
  end.

(** [get_group_names] on the names of the table [groups]. *)
Definition get_group_names (names : list string) (include exclude : list string)
    : list string :=
  select_names include exclude [] names.

(** [get_site_names] on the names of the table [sites]. *)
Definition get_site_names (names : list string) (include exclude : list string)
    : list string :=
  select_names include exclude [] names.

(** The loop [for name in names] of [get_dataset_names]. *)
Fixpoint select_datasets (exclude : list string) (dataset_names : list string)
    (names : list string) : list string :=
  match names with
  | [] => dataset_names
  | name :: rest =>
      if matches name exclude then select_datasets exclude dataset_names rest
      else select_datasets exclude (dataset_names ++ [name]) rest
  end.

(** [get_dataset_names]; [like pattern] is the result of
    [SELECT name FROM datasets WHERE name LIKE pattern]. *)
Fixpoint dataset_names_loop (like : string -> list string) (exclude : list string)
    (dataset_names : list string) (include : list string) : list string :=
  match include with
  | [] => dataset_names
  | pattern :: rest =>
      dataset_names_loop like exclude
        (select_datasets exclude dataset_names (like (like_pattern pattern))) rest
  end.

Definition get_dataset_names (like : string -> list string)
    (include exclude : list string) : list string :=
  dataset_names_loop like exclude [] include.

Lemma matches_true (name : string) (filters : list string) :
  matches name filters = true <-> exists filt, filt ∈ filters /\ fnmatch name filt = true.
Proof.
  induction filters as [|filt filters IH]; simpl.
  - split; [done|]. intros (f & Hf & _). by apply elem_of_nil in Hf.
  - destruct (fnmatch name filt) eqn:Hfilt.
    + split; [|done]. intros _. exists filt. split; [by left|done].
    + rewrite IH. split.
      * intros (f & Hf & Hm). exists f. split; [by right|done].
      * intros (f & Hf & Hm). apply elem_of_cons in Hf as [->|Hf]; [congruence|eauto].
Qed.

Lemma select_names_filter (include exclude : list string)
    (names group_names : list string) :
  select_names include exclude group_names names
  = group_names
    ++ filter (fun name => matches name include = true /\ matches name exclude = false)
         names.
Proof.
  revert group_names. induction names as [|name names IH]; intros group_names; simpl.
  - by rewrite app_nil_r.
  - rewrite filter_cons.
    destruct (decide (matches name include = true /\ matches name exclude = false))
      as [[Hin Hex]|Hnot].
    + rewrite Hin, Hex. simpl. rewrite IH. by rewrite <- app_assoc.
    + destruct (matches name include); simpl; [|apply IH].
      destruct (matches name exclude); [apply IH|]. by destruct Hnot.
Qed.

Lemma select_datasets_filter (exclude : list string) (names dataset_names : list string) :
  select_datasets exclude dataset_names names
  = dataset_names ++ filter (fun name => matches name exclude = false) names.
Proof.
  revert dataset_names. induction names as [|name names IH]; intros dataset_names; simpl.
  - by rewrite app_nil_r.
  - rewrite filter_cons.
    destruct (decide (matches name exclude = false)) as [Hex|Hnot].
    + rewrite Hex. rewrite IH. by rewrite <- app_assoc.
    + destruct (matches name exclude); [apply IH|done].
Qed.

Lemma dataset_names_loop_concat (like : string -> list string)
    (exclude include dataset_names : list string) :
  dataset_names_loop like exclude dataset_names include
  = dataset_names
    ++ concat (map (fun pattern =>
                      filter (fun name => matches name exclude = false)
                        (like (like_pattern pattern)))
                 include).
Proof.
  revert dataset_names.
  induction include as [|pattern include IH]; intros dataset_names; simpl.
  - by rewrite app_nil_r.
  - rewrite IH, select_datasets_filter. by rewrite <- app_assoc.
Qed.

End Names.

(** X21.  [get_group_names] (and [get_site_names], which is the same loop)
    returns the names of the table, in the order of the table, that match
    one of the [include] filters and none of the [exclude] filters: an
    excluded name is left out even when it is included, nothing is returned
    with an empty [include], and a name that the table lists once is
    returned at most once, however many filters it matches. *)
Theorem get_group_names_selects (fnmatch : string -> string -> bool)
    (names include exclude : list string) :
  (forall name,
      name ∈ get_group_names fnmatch names include exclude <->
      name ∈ names /\
      (exists filt, filt ∈ include /\ fnmatch name filt = true) /\
      (forall filt, filt ∈ exclude -> fnmatch name filt = false)) /\
  get_group_names fnmatch names include exclude `sublist_of` names /\
  (NoDup names -> NoDup (get_group_names fnmatch names include exclude)) /\
  get_site_names fnmatch names include exclude
  = get_group_names fnmatch names include exclude.
Proof.
  unfold get_site_names, get_group_names. rewrite select_names_filter. simpl.
  split_and!; [|apply sublist_filter|apply NoDup_filter|done].
  intros name. rewrite list_elem_of_filter, matches_true.
  split.
  - intros [[Hin Hex] Hname]. split_and!; [done|done|].
    intros filt Hfilt. destruct (fnmatch name filt) eqn:Hm; [|done].
    assert (matches fnmatch name exclude = true) by (apply matches_true; eauto).
    congruence.
  - intros (Hname & Hin & Hex). split_and!; [done| |done].
    destruct (matches fnmatch name exclude) eqn:Hm; [|done].
    apply matches_true in Hm as (filt & Hfilt & Hm). rewrite (Hex _ Hfilt) in Hm. done.
Qed.

Lemma not_excluded (fnmatch : string -> string -> bool) (name : string)
    (exclude : list string) :
  matches fnmatch name exclude = false <->
  forall filt, filt ∈ exclude -> fnmatch name filt = false.
Proof.
  split.
  - intros Hm filt Hfilt. destruct (fnmatch name filt) eqn:Hf; [|done].
    assert (matches fnmatch name exclude = true) by (apply matches_true; eauto).
    congruence.
  - intros Hex. destruct (matches fnmatch name exclude) eqn:Hm; [|done].
    apply matches_true in Hm as (filt & Hfilt & Hm). rewrite (Hex _ Hfilt) in Hm. done.
Qed.

Lemma concat_repeats {A : Type} (x : A) (chunks : list (list A)) (i j : nat)
    (c1 c2 : list A) :
  (i < j)%nat -> chunks !! i = Some c1 -> chunks !! j = Some c2 ->
  x ∈ c1 -> x ∈ c2 -> ~ NoDup (concat chunks).
Proof.
  revert i j. induction chunks as [|c chunks IH]; intros i j Hij Hi Hj H1 H2 Hnodup.
  - done.
  - simpl in Hnodup. apply NoDup_app in Hnodup as (_ & Hdisjoint & Hrest).
    destruct i as [|i]; destruct j as [|j]; try lia; simpl in *.
    + injection Hi as ->. apply (Hdisjoint x H1).
      apply list_elem_of_In, in_concat. exists c2.
      split; [|by apply list_elem_of_In].
      apply list_elem_of_In. by eapply list_elem_of_lookup_2.
    + apply (IH i j); [lia|done..].
Qed.

(** X22.  [get_dataset_names] runs one query per [include] pattern and
    appends the names of each that match no [exclude] filter: a name that
    the queries of two of the patterns return, and that no [exclude] filter
    matches, is in the list returned, and more than once. *)
Theorem get_dataset_names_repeats (fnmatch : string -> string -> bool)
    (like : string -> list string) (include exclude : list string)
    (name : string) (i j : nat) (pattern1 pattern2 : string) :
  i <> j ->
  include !! i = Some pattern1 -> include !! j = Some pattern2 ->
  name ∈ like (like_pattern pattern1) -> name ∈ like (like_pattern pattern2) ->
  (forall filt, filt ∈ exclude -> fnmatch name filt = false) ->
  name ∈ get_dataset_names fnmatch like include exclude /\
  ~ NoDup (get_dataset_names fnmatch like include exclude).
Proof.
  intros Hij Hi Hj H1 H2 Hex.
  unfold get_dataset_names. rewrite dataset_names_loop_concat. simpl.
  set (chunk := fun pattern =>
                  filter (fun name => matches fnmatch name exclude = false)
                    (like (like_pattern pattern))).
  assert (Hc1 : name ∈ chunk pattern1)
    by (apply list_elem_of_filter; split; [by apply not_excluded|done]).
  assert (Hc2 : name ∈ chunk pattern2)
    by (apply list_elem_of_filter; split; [by apply not_excluded|done]).
  assert (Hlookup : forall k pattern, include !! k = Some pattern ->
                                      map chunk include !! k = Some (chunk pattern)).
  { intros k pattern Hk. change (map chunk include) with (chunk <$> include).
    by rewrite list_lookup_fmap, Hk. }
  split.
  - apply list_elem_of_In, in_concat. exists (chunk pattern1).
    split; [|by apply list_elem_of_In].
    apply list_elem_of_In. eapply list_elem_of_lookup_2. by apply Hlookup.
  - destruct (Nat.lt_total i j) as [Hlt|[Heq|Hgt]]; [|done|].
    + eapply (concat_repeats name _ i j); eauto.
    + eapply (concat_repeats name _ j i); eauto.
Qed.

Definition sample_like (pattern : string) : list string :=
  if String.eqb pattern "/A/%/%" then ["/A/x/y"] else ["/A/x/y"; "/B/x/y"].

Lemma get_dataset_names_repeats_witness :
  "/A/x/y" ∈ get_dataset_names (fun _ _ => false) sample_like ["/A/*/*"; "/*/x/y"] [] /\
  ~ NoDup (get_dataset_names (fun _ _ => false) sample_like ["/A/*/*"; "/*/x/y"] []).
Proof.
  apply (get_dataset_names_repeats (fun _ _ => false) sample_like
           ["/A/*/*"; "/*/x/y"] [] "/A/x/y" 0 1 "/A/*/*" "/*/x/y").
  - lia.
  - reflexivity.
  - reflexivity.
  - vm_compute. by left.
  - vm_compute. by left.
  - intros filt Hfilt. reflexivity.
Defined.

End MySQLNames.

(* ===================================================================== *)
(** * lib/common/interface/phedexdbsssb.py: the details of the datasets   *)
(* ===================================================================== *)

Module DatasetInfo.
Import PhEDEx.

(** What [set_dataset_constituent_info] and [set_dataset_details] read and
    write of a [Dataset]; [data_type] is one of [Dataset.TYPE_*]. *)
Record Dataset := mkDataset {
  name : string;
  status : PhEDEx.status;
  data_type : Z;
  size : Z;
  num_files : Z;
  is_open : bool;
  last_update : Z;
  blocks : list Block
}.

(** ** The chunks of the two functions *)

(** [while start < len(datasets): dataset_chunks.append(datasets[start:start
    + chunk_size]); start += chunk_size], with [fuel] bounding the number of
    tests of the condition. *)
Fixpoint slice_loop {A : Type} (fuel start chunk_size : nat) (datasets : list A)
    (dataset_chunks : list (list A)) : option (list (list A)) :=
  match fuel with
  | O => None
  | S fuel' =>
      if (start <? length datasets)%nat then
        slice_loop fuel' (start + chunk_size) chunk_size datasets
          (dataset_chunks ++ [take chunk_size (drop start datasets)])
      else Some dataset_chunks
  end.

Definition slice_chunks {A : Type} (chunk_size : nat) (datasets : list A)
    : option (list (list A)) :=
  slice_loop (S (length datasets)) 0 chunk_size datasets [].

(** The chunks of [set_dataset_constituent_info]: [chunk_size = 100]. *)
Definition constituent_chunks (datasets : list Dataset) : option (list (list Dataset)) :=
  slice_chunks 100 datasets.

Section Details.

(** [Dataset.TYPE_UNKNOWN], [Dataset.status_val] and
    [Dataset.data_type_val] are not part of the sources. *)
Variable TYPE_UNKNOWN : Z.
Variable status_val : string -> PhEDEx.status.
Variable data_type_val : string -> Z.

(** The datasets that need a status or type update. *)
Definition use_datasetlist (datasets : list Dataset) : list Dataset :=
  filter (fun d => status d <> STAT_VALID \/ data_type d = TYPE_UNKNOWN) datasets.

(** The chunks of [set_dataset_details]: [chunk_size = 1000]. *)
Definition details_chunks (datasets : list Dataset) : option (list (list Dataset)) :=
  slice_chunks 1000 (use_datasetlist datasets).

(** An entry of the DBS [datasetlist]. *)
Record dbs_entry := mkDbsEntry {
  e_dataset : string;
  dataset_access_type : string;
  primary_ds_type : string;
  last_modification_date : Z
}.

(** [next(e for e in dbs_entries if e['dataset'] == dataset.name)] and
    [dbs_entries.remove(dbs_entry)]: the entry and the entries that remain;
    [None] is [StopIteration]. *)
Fixpoint take_entry (dname : string) (dbs_entries : list dbs_entry)
    : option (dbs_entry * list dbs_entry) :=
  match dbs_entries with
  | [] => None
  | e :: rest =>
      if String.eqb (e_dataset e) dname then Some (e, rest)
      else
        match take_entry dname rest with
        | Some (found, rest') => Some (found, e :: rest')
        | None => None
        end
  end.

(** [set_status_type]: the datasets of the list after the call, and the
    names logged as unknown. *)
Fixpoint set_status_type (dataset_list : list Dataset) (dbs_entries : list dbs_entry)
    : list Dataset * list string :=
  match dataset_list with
  | [] => ([], [])
  | dataset :: rest =>
      match take_entry (name dataset) dbs_entries with
      | None =>
          let '(datasets, logged) := set_status_type rest dbs_entries in
          (mkDataset (name dataset) STAT_UNKNOWN (data_type dataset) (size dataset)
             (num_files dataset) (is_open dataset) (last_update dataset)
             (blocks dataset) :: datasets,
           name dataset :: logged)
      | Some (dbs_entry, dbs_entries') =>
          let '(datasets, logged) := set_status_type rest dbs_entries' in
          (mkDataset (name dataset) (status_val (dataset_access_type dbs_entry))
             (data_type_val (primary_ds_type dbs_entry)) (size dataset)
             (num_files dataset) (is_open dataset)
             (last_modification_date dbs_entry) (blocks dataset) :: datasets,
           logged)
      end
  end.

(** The first entry of DBS for a dataset, and the dataset as this entry (or
    its absence) leaves it. *)
Definition entry_of (dname : string) (dbs_entries : list dbs_entry) : option dbs_entry :=
  head (filter (fun e => e_dataset e = dname) dbs_entries).

Definition detailed (dbs_entries : list dbs_entry) (dataset : Dataset) : Dataset :=
  match entry_of (name dataset) dbs_entries with
  | Some e =>
      mkDataset (name dataset) (status_val (dataset_access_type e))
        (data_type_val (primary_ds_type e)) (size dataset) (num_files dataset)
        (is_open dataset) (last_modification_date e) (blocks dataset)
  | None =>
      mkDataset (name dataset) STAT_UNKNOWN (data_type dataset) (size dataset)
        (num_files dataset) (is_open dataset) (last_update dataset) (blocks dataset)
  end.

End Details.

Lemma slice_loop_spec {A : Type} (chunk_size : nat) (datasets : list A) :
  (0 < chunk_size)%nat ->
  forall (fuel start : nat) (dataset_chunks : list (list A)),
    (length datasets - start < fuel)%nat ->
    exists chunks,
      slice_loop fuel start chunk_size datasets dataset_chunks
      = Some (dataset_chunks ++ chunks) /\
      concat chunks = drop start datasets /\
      Forall (fun c => (1 <= length c <= chunk_size)%nat) chunks /\
      Forall (fun c => length c = chunk_size) (removelast chunks).
Proof.
  intros Hpos. induction fuel as [|fuel IH]; intros start dataset_chunks Hfuel; [lia|].
  simpl. destruct (Nat.ltb_spec start (length datasets)) as [Hlt|Hge].
  - destruct (IH (start + chunk_size)%nat
                (dataset_chunks ++ [take chunk_size (drop start datasets)]))
      as (chunks & Hloop & Hconcat & Hsizes & Hfull); [lia|].
    exists (take chunk_size (drop start datasets) :: chunks).
    assert (Hlen : length (take chunk_size (drop start datasets))
                   = Nat.min chunk_size (length datasets - start))
      by (by rewrite length_take, length_drop).
    split_and!.
    + rewrite Hloop. by rewrite <- app_assoc.
    + simpl. rewrite Hconcat.
      rewrite <- drop_drop. apply take_drop.
    + constructor; [lia|done].
    + destruct chunks as [|c chunks']; [constructor|].
      change (removelast (take chunk_size (drop start datasets) :: c :: chunks'))
        with (take chunk_size (drop start datasets) :: removelast (c :: chunks')).
      constructor; [|done].
      assert (1 <= length (drop (start + chunk_size) datasets))%nat as Hrest.
      { rewrite <- Hconcat. simpl. rewrite length_app.
        apply Forall_cons in Hsizes as [Hc _]. lia. }
      rewrite length_drop in Hrest. lia.
  - exists []. split_and!; [by rewrite app_nil_r| |constructor|constructor].
    simpl. by rewrite drop_ge by lia.
Qed.

Lemma slice_chunks_spec {A : Type} (chunk_size : nat) (datasets : list A) :
  (0 < chunk_size)%nat ->
  exists chunks,
    slice_chunks chunk_size datasets = Some chunks /\
    concat chunks = datasets /\
    Forall (fun c => (1 <= length c <= chunk_size)%nat) chunks /\
    Forall (fun c => length c = chunk_size) (removelast chunks).
Proof.
  intros Hpos.
  destruct (slice_loop_spec chunk_size datasets Hpos (S (length datasets)) 0 [])
    as (chunks & Hloop & Hconcat & Hsizes & Hfull); [lia|].
  exists chunks. by split_and!.
Qed.

(** X23.  The lists of datasets are cut into chunks by slices:
    [set_dataset_constituent_info] in slices of 100, [set_dataset_details]
    the datasets that need an update in slices of 1000.  In both, the loop
    ends, no chunk is empty or longer than the chunk size, every chunk but
    the last has exactly the chunk size, and the chunks together are the
    list, in order: every dataset is in exactly one request. *)
Theorem dataset_slices (TYPE_UNKNOWN : Z) (datasets : list Dataset) :
  (exists chunks,
      constituent_chunks datasets = Some chunks /\
      concat chunks = datasets /\
      Forall (fun c => (1 <= length c <= 100)%nat) chunks /\
      Forall (fun c => length c = 100%nat) (removelast chunks)) /\
  (exists chunks,
      details_chunks TYPE_UNKNOWN datasets = Some chunks /\
      concat chunks = use_datasetlist TYPE_UNKNOWN datasets /\
      Forall (fun c => (1 <= length c <= 1000)%nat) chunks /\
      Forall (fun c => length c = 1000%nat) (removelast chunks)).
Proof.
  split.
  - apply (slice_chunks_spec 100 datasets). lia.
  - apply (slice_chunks_spec 1000 (use_datasetlist TYPE_UNKNOWN datasets)). lia.
Qed.

Section DetailsFacts.

Variable TYPE_UNKNOWN : Z.
Variable status_val : string -> PhEDEx.status.
Variable data_type_val : string -> Z.

Lemma take_entry_None (dname : string) (dbs_entries : list dbs_entry) :
  take_entry dname dbs_entries = None -> entry_of dname dbs_entries = None.
Proof.
  unfold entry_of. induction dbs_entries as [|e rest IH]; simpl; [done|].
  rewrite filter_cons.
  destruct (String.eqb_spec (e_dataset e) dname) as [Heq|Hne]; [done|].
  rewrite decide_False by done.
  destruct (take_entry dname rest) as [[found rest']|]; [done|]. auto.
Qed.

Lemma take_entry_Some (dname : string) (dbs_entries rest : list dbs_entry)
    (found : dbs_entry) :
  take_entry dname dbs_entries = Some (found, rest) ->
  entry_of dname dbs_entries = Some found /\
  forall other, other <> dname -> entry_of other rest = entry_of other dbs_entries.
Proof.
  unfold entry_of. revert rest.
  induction dbs_entries as [|e entries IH]; intros rest; simpl; [done|].
  rewrite filter_cons.
  destruct (String.eqb_spec (e_dataset e) dname) as [Heq|Hne].
  - intros [= <- <-]. rewrite decide_True by done. split; [done|].
    intros other Hother. rewrite filter_cons, decide_False by congruence. done.
  - rewrite decide_False by done.
    destruct (take_entry dname entries) as [[found' rest']|]; [|done].
    intros [= <- <-]. destruct (IH rest' eq_refl) as [Hfound Hothers].
    split; [done|]. intros other Hother. rewrite !filter_cons.
    destruct (decide (e_dataset e = other)); simpl; [done|]. by apply Hothers.
Qed.

Lemma set_status_type_detailed (dataset_list : list Dataset)
    (dbs_entries all_entries : list dbs_entry) :
  NoDup (map name dataset_list) ->
  (forall d, d ∈ dataset_list ->
             entry_of (name d) dbs_entries = entry_of (name d) all_entries) ->
  fst (set_status_type status_val data_type_val dataset_list dbs_entries)
  = map (detailed status_val data_type_val all_entries) dataset_list /\
  snd (set_status_type status_val data_type_val dataset_list dbs_entries)
  = map name (filter (fun d => entry_of (name d) all_entries = None) dataset_list).
Proof.
  revert dbs_entries.
  induction dataset_list as [|dataset rest IH]; intros dbs_entries Hnodup Hsame;
    simpl; [done|].
  apply NoDup_cons in Hnodup as [Hfresh Hnodup].
  rewrite filter_cons. unfold detailed at 1.
  rewrite <- (Hsame dataset) by (by left).
  destruct (take_entry (name dataset) dbs_entries) as [[found rest']|] eqn:Htake.
  - apply take_entry_Some in Htake as [Hfound Hothers].
    destruct (IH rest' Hnodup) as [IH1 IH2].
    { intros d Hd. rewrite Hothers; [apply Hsame; by right|].
      intros Heq. apply Hfresh. rewrite <- Heq. by apply list_elem_of_fmap_2. }
    destruct (set_status_type _ _ rest rest') as [datasets logged]. simpl in *.
    rewrite Hfound. rewrite decide_False by done. by rewrite IH1, IH2.
  - apply take_entry_None in Htake.
    destruct (IH dbs_entries Hnodup) as [IH1 IH2].
    { intros d Hd. apply Hsame. by right. }
    destruct (set_status_type _ _ rest dbs_entries) as [datasets logged]. simpl in *.
    rewrite Htake. rewrite decide_True by done. simpl. by rewrite IH1, IH2.
Qed.

End DetailsFacts.

(** X24.  [set_status_type] on datasets with different names: every dataset
    of the list gets the status, the data type and the modification date of
    the first DBS entry of its name, and keeps its other fields; a dataset
    without an entry gets the status unknown and keeps its data type and
    [last_update], and these are the datasets logged as unknown.  (An entry
    is used up by the dataset that takes it, which does not matter when the
    names differ.) *)
Theorem set_status_type_first_entry (status_val : string -> PhEDEx.status)
    (data_type_val : string -> Z) (dataset_list : list Dataset)
    (dbs_entries : list dbs_entry) :
  NoDup (map name dataset_list) ->
  set_status_type status_val data_type_val dataset_list dbs_entries
  = (map (detailed status_val data_type_val dbs_entries) dataset_list,
     map name (filter (fun d => entry_of (name d) dbs_entries = None) dataset_list)).
Proof.
  intros Hnodup.
  destruct (set_status_type_detailed status_val data_type_val dataset_list
              dbs_entries dbs_entries Hnodup) as [H1 H2]; [done|].
  destruct (set_status_type _ _ _ _) as [datasets logged]. simpl in *. by subst.
Qed.

Definition dataset_A : Dataset := mkDataset "/A/x/y" STAT_UNKNOWN 0 10 1 true 5 [].
Definition dataset_B : Dataset := mkDataset "/B/x/y" STAT_PRODUCTION 2 20 2 true 6 [].

Definition sample_status_val (s : string) : PhEDEx.status :=
  if String.eqb s "VALID" then STAT_VALID else STAT_INVALID.

Lemma set_status_type_first_entry_witness :
  set_status_type sample_status_val (fun _ => 1) [dataset_A; dataset_B]
    [mkDbsEntry "/A/x/y" "VALID" "mc" 77; mkDbsEntry "/A/x/y" "INVALID" "data" 78]
  = (map (detailed sample_status_val (fun _ => 1)
            [mkDbsEntry "/A/x/y" "VALID" "mc" 77; mkDbsEntry "/A/x/y" "INVALID" "data" 78])
       [dataset_A; dataset_B],
     map name
       (filter (fun d => entry_of (name d)
                           [mkDbsEntry "/A/x/y" "VALID" "mc" 77;
                            mkDbsEntry "/A/x/y" "INVALID" "data" 78] = None)
          [dataset_A; dataset_B])).
Proof.
  apply (set_status_type_first_entry sample_status_val (fun _ => 1)
           [dataset_A; dataset_B]
           [mkDbsEntry "/A/x/y" "VALID" "mc" 77; mkDbsEntry "/A/x/y" "INVALID" "data" 78]).
  simpl. apply NoDup_cons. split; [set_solver|]. apply NoDup_singleton.
Defined.

(** ** [set_constituent] *)

(** An entry of the PhEDEx [data] query, and its block entries. *)
Record data_block_entry := mkDataBlockEntry {
  db_name : string;
  db_bytes : Z;
  db_files : Z;
  db_is_open : string;
  db_time_create : Z
}.

Record data_entry := mkDataEntry {
  d_name : string;
  d_is_open : string;
  d_block : list data_block_entry
}.

Definition Zsum (l : list Z) : Z := foldr Z.add 0 l.

Section Constituent.

(** [Block.translate_name(block_entry['name'].replace(dataset.name + '#', ''))]
    of the dataset name and the name of the entry, and
    [dataset.find_block], come from [common.dataformat], which is not part
    of the sources; [older e] is
    [time.time() - block_entry['time_create'] > 48. * 3600.]. *)
Variable internal_name : string -> string -> string.
Variable find_block : Dataset -> string -> option Block.
Variable older : data_block_entry -> bool.

(** [next(d for d in list_chunk if d.name == ds_entry['name'])] and
    [list_chunk.remove(dataset)]; [None] is [StopIteration]. *)
Fixpoint take_dataset (dname : string) (list_chunk : list Dataset)
    : option (Dataset * list Dataset) :=
  match list_chunk with
  | [] => None
  | d :: rest =>
      if String.eqb (name d) dname then Some (d, rest)
      else
        match take_dataset dname rest with
        | Some (found, rest') => Some (found, d :: rest')
        | None => None
        end
  end.

(** The body of [for block_entry in ds_entry['block']]. *)
Definition add_block_entry (st : Dataset * list Block) (block_entry : data_block_entry)
    : Dataset * list Block :=
  let '(dataset, open_blocks) := st in
  let block_name := internal_name (name dataset) (db_name block_entry) in
  let '(block, dataset) :=
    match find_block dataset block_name with
    | Some block => (block, dataset)
    | None =>
        let block := mkBlock block_name (db_bytes block_entry) (db_files block_entry)
                       false in
        (block,
         mkDataset (name dataset) (status dataset) (data_type dataset) (size dataset)
           (num_files dataset) (is_open dataset) (last_update dataset)
           (blocks dataset ++ [block]))
    end in
  if String.eqb (db_is_open block_entry) "y" && older block_entry then
    (* Block is more than 48 hours old and is still open *)
    (dataset, open_blocks ++ [block])
  else (dataset, open_blocks).

(** The body of [for ds_entry in source], on the dataset found. *)
Definition set_entry (dataset : Dataset) (open_blocks : list Block) (ds_entry : data_entry)
    : Dataset * list Block :=
  let dataset :=
    mkDataset (name dataset) (status dataset) (data_type dataset) (size dataset)
      (num_files dataset) (String.eqb (d_is_open ds_entry) "y") (last_update dataset)
      (blocks dataset) in
  let '(dataset, open_blocks) :=
    foldl add_block_entry (dataset, open_blocks) (d_block ds_entry) in
  (mkDataset (name dataset) STAT_VALID (data_type dataset)
     (Zsum (map block_size (blocks dataset)))
     (Zsum (map block_num_files (blocks dataset)))
     (is_open dataset) (last_update dataset) (blocks dataset),
   open_blocks).

(** What remains: in case PhEDEx does not say anything about this dataset. *)
Definition set_unknown (dataset : Dataset) : Dataset :=
  mkDataset (name dataset) STAT_UNKNOWN (data_type dataset) 0 0 (is_open dataset)
    (last_update dataset) (blocks dataset).

Fixpoint set_entries (list_chunk : list Dataset) (done : list Dataset)
    (open_blocks : list Block) (source : list data_entry)
    : option (list Dataset * list Dataset * list Block) :=
  match source with
  | [] => Some (done, list_chunk, open_blocks)
  | ds_entry :: rest =>
      match take_dataset (d_name ds_entry) list_chunk with
      | None => None
      | Some (dataset, list_chunk') =>
          let '(dataset', open_blocks') := set_entry dataset open_blocks ds_entry in
          set_entries list_chunk' (done ++ [dataset']) open_blocks' rest
      end
  end.

(** [set_constituent] on the answer of PhEDEx: the datasets PhEDEx reported
    on, in the order of the answer, the other datasets of the chunk, and the
    blocks to check with DBS; [None] is [StopIteration]. *)
Definition set_constituent (list_chunk : list Dataset) (source : list data_entry)
    : option (list Dataset * list Dataset * list Block) :=
  match set_entries list_chunk [] [] source with
  | None => None
  | Some (done, remaining, open_blocks) =>
      Some (done, map set_unknown remaining, open_blocks)
  end.

(** What [set_constituent] makes of a dataset [before] that PhEDEx reported
    on. *)
Definition reported (before after : Dataset) : Prop :=
  name after = name before /\
  data_type after = data_type before /\
  last_update after = last_update before /\
  blocks before `prefix_of` blocks after /\
  status after = STAT_VALID /\
  size after = Zsum (map block_size (blocks after)) /\
  num_files after = Zsum (map block_num_files (blocks after)).

Lemma take_dataset_Some (dname : string) (list_chunk rest : list Dataset)
    (found : Dataset) :
  take_dataset dname list_chunk = Some (found, rest) ->
  name found = dname /\ list_chunk ≡ₚ found :: rest.
Proof.
  revert rest. induction list_chunk as [|d chunk IH]; intros rest; simpl; [done|].
  destruct (String.eqb_spec (name d) dname) as [Heq|Hne].
  - intros [= <- <-]. done.
  - destruct (take_dataset dname chunk) as [[found' rest']|]; [|done].
    intros [= <- <-]. destruct (IH rest' eq_refl) as [Hname Hperm].
    split; [done|]. rewrite Hperm. apply perm_swap.
Qed.

Lemma take_dataset_None (dname : string) (list_chunk : list Dataset) :
  take_dataset dname list_chunk = None <-> dname ∉ map name list_chunk.
Proof.
  induction list_chunk as [|d chunk IH]; simpl.
  - split; [intros _; apply not_elem_of_nil|done].
  - destruct (String.eqb_spec (name d) dname) as [Heq|Hne].
    + split; [done|]. intros Hnot. exfalso. apply Hnot. rewrite Heq. by left.
    + rewrite not_elem_of_cons. destruct (take_dataset dname chunk) as [[found rest]|].
      * split; [done|]. intros [_ Hnot]. by apply IH in Hnot.
      * split; [|done]. intros _. split; [congruence|]. by apply IH.
Qed.

Lemma add_block_entries_blocks (entries : list data_block_entry)
    (dataset : Dataset) (open_blocks : list Block) :
  let st := foldl add_block_entry (dataset, open_blocks) entries in
  name (fst st) = name dataset /\
  data_type (fst st) = data_type dataset /\
  last_update (fst st) = last_update dataset /\
  is_open (fst st) = is_open dataset /\
  blocks dataset `prefix_of` blocks (fst st).
Proof.
  revert dataset open_blocks.
  induction entries as [|entry entries IH]; intros dataset open_blocks; simpl.
  - by split_and!.
  - unfold add_block_entry at 2.
    destruct (find_block dataset _) as [block|].
    + destruct (_ && _); apply IH.
    + match goal with
      | |- context [foldl add_block_entry (if _ then (?d, ?o1) else (?d, ?o2)) entries] =>
          assert (H : forall o, name (fst (foldl add_block_entry (d, o) entries))
                                = name dataset /\
                                data_type (fst (foldl add_block_entry (d, o) entries))
                                = data_type dataset /\
                                last_update (fst (foldl add_block_entry (d, o) entries))
                                = last_update dataset /\
                                is_open (fst (foldl add_block_entry (d, o) entries))
                                = is_open dataset /\
                                blocks dataset
                                  `prefix_of` blocks (fst (foldl add_block_entry (d, o)
                                                             entries)))
      end.
      { intros o. destruct (IH (mkDataset (name dataset) (status dataset)
                                  (data_type dataset) (size dataset) (num_files dataset)
                                  (is_open dataset) (last_update dataset)
                                  (blocks dataset ++ [mkBlock
                                     (internal_name (name dataset) (db_name entry))
                                     (db_bytes entry) (db_files entry) false])) o)
          as (H1 & H2 & H3 & H4 & H5). simpl in *.
        split_and!; try done. etrans; [|exact H5]. by apply prefix_app_r. }
      destruct (_ && _); apply H.
Qed.

Lemma set_entry_reported (dataset : Dataset) (open_blocks : list Block)
    (ds_entry : data_entry) :
  reported dataset (fst (set_entry dataset open_blocks ds_entry)).
Proof.
  unfold set_entry.
  pose proof (add_block_entries_blocks (d_block ds_entry)
                (mkDataset (name dataset) (status dataset) (data_type dataset)
                   (size dataset) (num_files dataset)
                   (String.eqb (d_is_open ds_entry) "y") (last_update dataset)
                   (blocks dataset)) open_blocks) as (H1 & H2 & H3 & H4 & H5).
  destruct (foldl add_block_entry _ (d_block ds_entry)) as [dataset' open_blocks'].
  simpl in *. by split_and!.
Qed.

Lemma set_entries_reported (all_datasets : list Dataset) (source : list data_entry)
    (list_chunk done : list Dataset) (open_blocks : list Block)
    (done' remaining : list Dataset) (open_blocks' : list Block) :
  set_entries list_chunk done open_blocks source = Some (done', remaining, open_blocks') ->
  Forall (fun d => exists before, before ∈ all_datasets /\ reported before d) done ->
  (forall d, d ∈ list_chunk -> d ∈ all_datasets) ->
  Forall (fun d => exists before, before ∈ all_datasets /\ reported before d) done' /\
  (forall d, d ∈ remaining -> d ∈ all_datasets) /\
  map name done' = map name done ++ map d_name source /\
  (length done' + length remaining = length done + length list_chunk)%nat.
Proof.
  revert list_chunk done open_blocks.
  induction source as [|ds_entry source IH]; intros list_chunk done open_blocks; simpl.
  - intros [= <- <- <-] Hdone Hchunk. rewrite app_nil_r. by split_and!.
  - destruct (take_dataset (d_name ds_entry) list_chunk) as [[dataset chunk']|] eqn:Htake;
      [|done].
    apply take_dataset_Some in Htake as [Hname Hperm].
    pose proof (set_entry_reported dataset open_blocks ds_entry) as Hreported.
    destruct (set_entry dataset open_blocks ds_entry) as [dataset' open_blocks1].
    simpl in Hreported.
    intros Hrest Hdone Hchunk.
    destruct (IH _ _ _ Hrest) as (H1 & H2 & H3 & H4).
    { apply Forall_app. split; [done|]. apply Forall_singleton.
      exists dataset. split; [|done]. apply Hchunk. rewrite Hperm. by left. }
    { intros d Hd. apply Hchunk. rewrite Hperm. by right. }
    split_and!; [done|done| |].
    + rewrite H3, map_app. simpl. rewrite <- app_assoc. simpl.
      destruct Hreported as (-> & _). by rewrite Hname.
    + rewrite H4, length_app. simpl. apply Permutation_length in Hperm.
      simpl in Hperm. lia.
Qed.

Lemma set_entries_returns (source : list data_entry) (list_chunk done : list Dataset)
    (open_blocks : list Block) :
  NoDup (map d_name source) ->
  (forall dname, dname ∈ map d_name source -> dname ∈ map name list_chunk) ->
  is_Some (set_entries list_chunk done open_blocks source).
Proof.
  revert list_chunk done open_blocks.
  induction source as [|ds_entry source IH]; intros list_chunk done open_blocks;
    simpl; [eauto|].
  intros Hnodup Hknown. apply NoDup_cons in Hnodup as [Hfresh Hnodup].
  destruct (take_dataset (d_name ds_entry) list_chunk) as [[dataset chunk']|] eqn:Htake.
  - apply take_dataset_Some in Htake as [Hname Hperm].
    destruct (set_entry dataset open_blocks ds_entry) as [dataset' open_blocks1].
    apply IH; [done|]. intros dname Hdname.
    assert (Hin : dname ∈ map name list_chunk) by (apply Hknown; by right).
    rewrite Hperm in Hin. simpl in Hin. apply elem_of_cons in Hin as [Heq|Hin]; [|done].
    exfalso. apply Hfresh. by rewrite <- Hname, <- Heq.
  - apply take_dataset_None in Htake. exfalso. apply Htake, Hknown. by left.
Qed.

Lemma set_entries_unknown_dataset (source : list data_entry)
    (list_chunk done : list Dataset) (open_blocks : list Block) (dname : string) :
  dname ∈ map d_name source ->
  dname ∉ map name list_chunk ->
  set_entries list_chunk done open_blocks source = None.
Proof.
  revert list_chunk done open_blocks.
  induction source as [|ds_entry source IH]; intros list_chunk done open_blocks;
    simpl.
  - intros Hin. by apply elem_of_nil in Hin.
  - intros Hin Hmissing.
    destruct (take_dataset (d_name ds_entry) list_chunk) as [[dataset chunk']|] eqn:Htake;
      [|done].
    apply take_dataset_Some in Htake as [Hname Hperm].
    destruct (set_entry dataset open_blocks ds_entry) as [dataset' open_blocks1].
    apply elem_of_cons in Hin as [Heq|Hin].
    + exfalso. apply Hmissing. rewrite Hperm. simpl. rewrite Hname, Heq. by left.
    + apply IH; [done|]. intros Hin'. apply Hmissing. rewrite Hperm. by right.
Qed.

End Constituent.

(** X25.  When [set_constituent] returns: the datasets PhEDEx reported on
    are, in the order of the answer, datasets of the chunk, each with the
    blocks it had followed by the new ones, with the status valid and with
    the sums of the sizes and of the numbers of files of its blocks as size
    and number of files; every other dataset returned is a dataset of the
    chunk set unknown, with size 0 and no file, and with its blocks as they
    were; the two lists together have as many datasets as the chunk. *)
Theorem set_constituent_datasets (internal_name : string -> string -> string)
    (find_block : Dataset -> string -> option Block)
    (older : data_block_entry -> bool)
    (list_chunk : list Dataset) (source : list data_entry)
    (done unknown : list Dataset) (open_blocks : list Block) :
  set_constituent internal_name find_block older list_chunk source
  = Some (done, unknown, open_blocks) ->
  map name done = map d_name source /\
  Forall (fun d => exists before, before ∈ list_chunk /\ reported before d) done /\
  Forall (fun d => exists before, before ∈ list_chunk /\ d = set_unknown before) unknown /\
  (length done + length unknown = length list_chunk)%nat.
Proof.
  unfold set_constituent.
  destruct (set_entries _ _ _ list_chunk [] [] source)
    as [[[done' remaining] open_blocks']|] eqn:Hentries; [|done].
  intros [= <- <- <-].
  destruct (set_entries_reported internal_name find_block older list_chunk source
              list_chunk [] [] done' remaining open_blocks' Hentries)
    as (H1 & H2 & H3 & H4); [constructor|done|].
  split_and!; [done|done| |by rewrite length_map].
  apply Forall_forall. intros d Hd.
  apply list_elem_of_fmap in Hd as (before & -> & Hbefore). eauto.
Qed.

Definition dataset_open : Dataset :=
  mkDataset "/A/x/y" STAT_PRODUCTION 0 0 0 true 5 [mkBlock "b0" 10 1 false].

Definition source_A : list data_entry :=
  [mkDataEntry "/A/x/y" "y" [mkDataBlockEntry "/A/x/y#b1" 100 2 "n" 0]].

Lemma set_constituent_datasets_witness :
  map name [mkDataset "/A/x/y" STAT_VALID 0 110 3 true 5
              [mkBlock "b0" 10 1 false; mkBlock "/A/x/y#b1" 100 2 false]]
  = map d_name source_A /\
  Forall (fun d => exists before, before ∈ [dataset_open; dataset_B] /\ reported before d)
    [mkDataset "/A/x/y" STAT_VALID 0 110 3 true 5
       [mkBlock "b0" 10 1 false; mkBlock "/A/x/y#b1" 100 2 false]] /\
  Forall (fun d => exists before, before ∈ [dataset_open; dataset_B] /\
                                  d = set_unknown before)
    [set_unknown dataset_B] /\
  (length [mkDataset "/A/x/y" STAT_VALID 0 110 3 true 5
             [mkBlock "b0" 10 1 false; mkBlock "/A/x/y#b1" 100 2 false]]
   + length [set_unknown dataset_B] = length [dataset_open; dataset_B])%nat.
Proof.
  apply (set_constituent_datasets (fun _ n => n) (fun _ _ => None) (fun _ => false)
           [dataset_open; dataset_B] source_A _ _ []).
  vm_compute. reflexivity.
Defined.

(** X26.  [set_constituent] returns when the answer of PhEDEx names every
    dataset at most once and names only datasets of the chunk. *)
Theorem set_constituent_returns (internal_name : string -> string -> string)
    (find_block : Dataset -> string -> option Block)
    (older : data_block_entry -> bool)
    (list_chunk : list Dataset) (source : list data_entry) :
  NoDup (map d_name source) ->
  (forall dname, dname ∈ map d_name source -> dname ∈ map name list_chunk) ->
  is_Some (set_constituent internal_name find_block older list_chunk source).
Proof.
  intros Hnodup Hknown. unfold set_constituent.
  destruct (set_entries_returns internal_name find_block older source list_chunk [] []
              Hnodup Hknown) as [[[done remaining] open_blocks] ->].
  eauto.
Qed.

Lemma set_constituent_returns_witness :
  is_Some (set_constituent (fun _ n => n) (fun _ _ => None) (fun _ => false)
             [dataset_open; dataset_B] source_A).
Proof.
  apply (set_constituent_returns (fun _ n => n) (fun _ _ => None) (fun _ => false)
           [dataset_open; dataset_B] source_A).
  - apply NoDup_singleton.
  - intros dname Hdname. apply list_elem_of_singleton in Hdname as ->.
    simpl. by left.
Defined.

(** X27.  An answer of PhEDEx that names a dataset that is not in the chunk
    makes [set_constituent] fail with [StopIteration]: no dataset of the
    chunk is set unknown, and no open block is passed on. *)
Theorem set_constituent_unknown_dataset (internal_name : string -> string -> string)
    (find_block : Dataset -> string -> option Block)
    (older : data_block_entry -> bool)
    (list_chunk : list Dataset) (source : list data_entry) (dname : string) :
  dname ∈ map d_name source ->
  dname ∉ map name list_chunk ->
  set_constituent internal_name find_block older list_chunk source = None.
Proof.
  intros Hin Hmissing. unfold set_constituent.
  by rewrite (set_entries_unknown_dataset internal_name find_block older source
                list_chunk [] [] dname Hin Hmissing).
Qed.

Lemma set_constituent_unknown_dataset_witness :
  set_constituent (fun _ n => n) (fun _ _ => None) (fun _ => false)
    [dataset_B] source_A = None.
Proof.
  apply (set_constituent_unknown_dataset (fun _ n => n) (fun _ _ => None)
           (fun _ => false) [dataset_B] source_A "/A/x/y").
  - simpl. by left.
  - simpl. set_solver.
Defined.

End DatasetInfo.

(* ===================================================================== *)
(** * lib/common/interface/phedexdbsssb.py: deletion requests             *)
(* ===================================================================== *)

Module Deletion.

(** Datasets, blocks, sites and groups are objects of the inventory, one per
    name, and are represented by their names.  The group of a dataset
    replica is [None] when it is owned by multiple groups. *)
Record BlockReplica := mkBlockReplica {
  br_block : string;
  br_dataset : string;
  br_site : string;
  br_group : option string
}.

Record DatasetReplica := mkDatasetReplica {
  dr_dataset : string;
  dr_site : string;
  dr_group : option string;
  dr_block_replicas : list BlockReplica
}.

(** The argument of [schedule_deletion], by its type. *)
Inductive replica :=
| OfDataset (r : DatasetReplica)
| OfBlock (r : BlockReplica).

Definition site_of (r : replica) : string :=
  match r with
  | OfDataset r => dr_site r
  | OfBlock r => br_site r
  end.

(** [{dataset: {block: [file]}}], the file lists being empty here.  Content
    can be empty if inclusive deletion is desired. *)
Abbreviation catalog := (gmap string (gset string)).

(** The requests sent to PhEDEx: [delete] with the options [node], [data]
    (the catalogs, which [_form_catalog_xml] writes out) and [comments]
    when there are any, besides the constant [level] and
    [rm_subscriptions]; and [updaterequest] with the decision [approve]. *)
Inductive phedex_call :=
| Delete (node : string) (data : catalog) (comments : option string)
| Approve (request : Z) (node : string).

Definition comments_option (comments : string) : option string :=
  if String.eqb comments "" then None else Some comments.

(** [catalogs[dataset][brep.block] = []] *)
Definition add_block (dataset : string) (block : string) (catalogs : catalog) : catalog :=
  <[dataset := {[block]} ∪ default ∅ (catalogs !! dataset)]> catalogs.

(** The catalogs of [schedule_deletion]; [None] is the [return 0] for a
    block replica of another group. *)
Definition deletion_catalogs (r : replica) (groups : list string) : option catalog :=
  match r with
  | OfDataset r =>
      let dataset := dr_dataset r in
      let catalogs : catalog := {[dataset := ∅]} in
      if negb (Nat.eqb (length groups) 0) then
        match dr_group r with
        | None =>                            (* replica owned by multiple groups *)
            Some (foldl (fun c brep =>
                           match br_group brep with
                           | Some g =>
                               if bool_decide (g ∉ groups)
                               then add_block dataset (br_block brep) c else c
                           | None => c
                           end)
                    catalogs (dr_block_replicas r))
        | Some g =>
            if bool_decide (g ∉ groups) then Some (delete dataset catalogs)
            else Some catalogs
        end
      else Some catalogs
  | OfBlock r =>
      if negb (Nat.eqb (length groups) 0)
         && match br_group r with
            | None => true
            | Some g => bool_decide (g ∉ groups)
            end
      then None
      else Some {[br_dataset r := {[br_block r]}]}
  end.

(** The body of [for drep in replicas_to_delete] of [run_deletion_request]. *)
Definition add_replica (groups : list string) (catalogs : catalog)
    (drep : DatasetReplica) : catalog :=
  let catalogs := <[dr_dataset drep := ∅]> catalogs in
  if negb (Nat.eqb (length groups) 0) then
    match dr_group drep with
    | None =>                                (* replica owned by multiple groups *)
        foldl (fun c brep =>
                 match br_group brep with
                 | Some g =>
                     if bool_decide (g ∈ groups)
                     then add_block (dr_dataset drep) (br_block brep) c else c
                 | None => c
                 end)
          catalogs (dr_block_replicas drep)
    | Some g =>
        if bool_decide (g ∉ groups) then      (* owned by a wrong group *)
          delete (dr_dataset drep) catalogs
        else catalogs
    end
  else catalogs.

Definition deletion_request_catalogs (groups : list string)
    (replicas_to_delete : list DatasetReplica) : catalog :=
  foldl (add_replica groups) ∅ replicas_to_delete.

(** [while request_id in request_mapping: request_id -= 1], with [fuel]
    bounding the number of tests. *)
Fixpoint free_request_id {A : Type} (fuel : nat) (request_id : Z)
    (request_mapping : gmap Z A) : option Z :=
  match fuel with
  | O => None
  | S fuel' =>
      match request_mapping !! request_id with
      | Some _ => free_request_id fuel' (request_id - 1) request_mapping
      | None => Some request_id
      end
  end.

(** [replicas_by_site]: the replicas of each site, the sites in the order of
    their first replica. *)
Fixpoint add_to_site (r : DatasetReplica) (by_site : list (string * list DatasetReplica))
    : list (string * list DatasetReplica) :=
  match by_site with
  | [] => [(dr_site r, [r])]
  | (site, replicas) :: rest =>
      if String.eqb site (dr_site r) then (site, replicas ++ [r]) :: rest
      else (site, replicas) :: add_to_site r rest
  end.

Definition replicas_by_site (replica_list : list DatasetReplica)
    : list (string * list DatasetReplica) :=
  foldl (fun by_site r => add_to_site r by_site) [] replica_list.

Section Requests.

(** [config.read_only]; the ids [int(result[i]['id'])] of the answer of
    PhEDEx to a request; the order of [replicas_by_site.items()]. *)
Variable read_only : bool.
Variable phedex : phedex_call -> list Z.
Variable dict_items :
  list (string * list DatasetReplica) -> list (string * list DatasetReplica).

(** The state of [schedule_deletions]: [request_mapping] and the requests
    sent so far. *)
Record state := mkState {
  request_mapping : gmap Z (bool * list DatasetReplica);
  sent : list phedex_call
}.

(** [schedule_deletion]: the value returned and the requests sent. *)
Definition schedule_deletion (r : replica) (groups : list string) (comments : string)
    (is_test : bool) : Z * list phedex_call :=
  match deletion_catalogs r groups with
  | None => (0, [])
  | Some catalogs =>
      if read_only then (0, [])
      else if is_test then (-1, [])
      else
        let delete := Delete (site_of r) catalogs (comments_option comments) in
        match phedex delete with
        | [] => (0, [delete])                                  (* delete failed *)
        | request_id :: _ =>
            let approve := Approve request_id (site_of r) in
            match phedex approve with
            | [] => (0, [delete; approve])           (* deletion approval failed *)
            | _ :: _ => (request_id, [delete; approve])
            end
        end
  end.

(** [run_deletion_request]; [None] is the loop over the request ids running
    out of fuel. *)
Definition run_deletion_request (groups : list string) (comments : string)
    (is_test : bool) (st : state) (site : string)
    (replicas_to_delete : list DatasetReplica) : option state :=
  let catalogs := deletion_request_catalogs groups replicas_to_delete in
  if read_only then Some st
  else if is_test then
    match free_request_id (S (size (request_mapping st))) (-1) (request_mapping st) with
    | None => None
    | Some request_id =>
        Some (mkState (<[request_id := (true, replicas_to_delete)]> (request_mapping st))
                (sent st))
    end
  else
    let delete := Delete site catalogs (comments_option comments) in
    match phedex delete with
    | [] => Some (mkState (request_mapping st) (sent st ++ [delete]))
    | request_id :: _ =>
        let approve := Approve request_id site in
        match phedex approve with
        | [] =>
            Some (mkState (<[request_id := (false, replicas_to_delete)]>
                             (request_mapping st))
                    (sent st ++ [delete; approve]))
        | _ :: _ =>
            Some (mkState (<[request_id := (true, replicas_to_delete)]>
                             (<[request_id := (false, replicas_to_delete)]>
                                (request_mapping st)))
                    (sent st ++ [delete; approve]))
        end
    end.

Fixpoint run_deletion_requests (groups : list string) (comments : string)
    (is_test : bool) (st : state) (items : list (string * list DatasetReplica))
    : option state :=
  match items with
  | [] => Some st
  | (site, replica_list) :: rest =>
      match run_deletion_request groups comments is_test st site replica_list with
      | None => None
      | Some st' => run_deletion_requests groups comments is_test st' rest
      end
  end.

(** [schedule_deletions] *)
Definition schedule_deletions (replica_list : list DatasetReplica)
    (groups : list string) (comments : string) (is_test : bool) : option state :=
  run_deletion_requests groups comments is_test (mkState ∅ [])
    (dict_items (replicas_by_site replica_list)).

End Requests.

(** ** The catalogs *)

(** The blocks of a replica that are owned by one of the groups, and the
    ones that are owned by another group. *)
Definition owned (groups : list string) (brep : BlockReplica) : bool :=
  match br_group brep with
  | Some g => bool_decide (g ∈ groups)
  | None => false
  end.

Definition owned_by_others (groups : list string) (brep : BlockReplica) : bool :=
  match br_group brep with
  | Some g => bool_decide (g ∉ groups)
  | None => false
  end.

Definition blocks_where (p : BlockReplica -> bool) (r : DatasetReplica) : gset string :=
  list_to_set (map br_block (filter (fun b => p b = true) (dr_block_replicas r))).

(** The entry of a replica in the catalogs of [run_deletion_request]. *)
Definition entry_of (groups : list string) (r : DatasetReplica) : option (gset string) :=
  match groups with
  | [] => Some ∅
  | _ :: _ =>
      match dr_group r with
      | None => Some (blocks_where (owned groups) r)
      | Some g => if bool_decide (g ∈ groups) then Some ∅ else None
      end
  end.

Lemma add_blocks_lookup (dataset : string) (p : BlockReplica -> bool)
    (step : catalog -> BlockReplica -> catalog) (breps : list BlockReplica)
    (c : catalog) (blocks : gset string) :
  (forall c brep, step c brep
                  = if p brep then add_block dataset (br_block brep) c else c) ->
  c !! dataset = Some blocks ->
  foldl step c breps !! dataset
  = Some (blocks ∪ list_to_set (map br_block (filter (fun b => p b = true) breps))) /\
  forall other, other <> dataset -> foldl step c breps !! other = c !! other.
Proof.
  intros Hstep. revert c blocks.
  induction breps as [|brep breps IH]; intros c blocks Hc; simpl.
  - split; [|done]. rewrite Hc. f_equal. set_solver.
  - rewrite filter_cons, Hstep. destruct (p brep) eqn:Hp.
    + rewrite decide_True by done.
      destruct (IH (add_block dataset (br_block brep) c) ({[br_block brep]} ∪ blocks))
        as [H1 H2].
      { unfold add_block. by rewrite lookup_insert_eq, Hc. }
      split.
      * rewrite H1. f_equal. simpl. set_solver.
      * intros other Hother. rewrite H2 by done. unfold add_block.
        by rewrite lookup_insert_ne.
    + rewrite decide_False by congruence. by apply IH.
Qed.

Lemma add_replica_lookup (groups : list string) (catalogs : catalog)
    (drep : DatasetReplica) :
  add_replica groups catalogs drep !! dr_dataset drep = entry_of groups drep /\
  forall other, other <> dr_dataset drep ->
                add_replica groups catalogs drep !! other = catalogs !! other.
Proof.
  unfold add_replica, entry_of. destruct groups as [|g0 groups'];
    cbn [length Nat.eqb negb].
  - split; [by rewrite lookup_insert_eq|]. intros other Hother.
    by rewrite lookup_insert_ne.
  - destruct (dr_group drep) as [g|].
    + case_bool_decide as Hg.
      * rewrite bool_decide_eq_false_2 by done. split; [by rewrite lookup_delete_eq|].
        intros other Hother. by rewrite lookup_delete_ne, lookup_insert_ne.
      * rewrite bool_decide_eq_true_2 by done.
        split; [by rewrite lookup_insert_eq|].
        intros other Hother. by rewrite lookup_insert_ne.
    + destruct (add_blocks_lookup (dr_dataset drep) (owned (g0 :: groups'))
                  (fun c brep =>
                     match br_group brep with
                     | Some g =>
                         if bool_decide (g ∈ g0 :: groups')
                         then add_block (dr_dataset drep) (br_block brep) c else c
                     | None => c
                     end)
                  (dr_block_replicas drep)
                  (<[dr_dataset drep := ∅]> catalogs) ∅) as [H1 H2].
      * intros c brep. unfold owned. by destruct (br_group brep).
      * by rewrite lookup_insert_eq.
      * split.
        -- rewrite H1. unfold blocks_where. f_equal. set_solver.
        -- intros other Hother. rewrite H2 by done. by rewrite lookup_insert_ne.
Qed.

Lemma deletion_request_catalogs_lookup (groups : list string)
    (replicas : list DatasetReplica) (catalogs : catalog) :
  NoDup (map dr_dataset replicas) ->
  (forall r, r ∈ replicas ->
             foldl (add_replica groups) catalogs replicas !! dr_dataset r
             = entry_of groups r) /\
  (forall other, other ∉ map dr_dataset replicas ->
                 foldl (add_replica groups) catalogs replicas !! other
                 = catalogs !! other).
Proof.
  revert catalogs. induction replicas as [|drep replicas IH]; intros catalogs Hnodup.
  - split; [|done]. intros r Hr. by apply elem_of_nil in Hr.
  - simpl in *. apply NoDup_cons in Hnodup as [Hfresh Hnodup].
    destruct (IH (add_replica groups catalogs drep) Hnodup) as [H1 H2].
    destruct (add_replica_lookup groups catalogs drep) as [H3 H4].
    split.
    + intros r Hr. apply elem_of_cons in Hr as [->|Hr]; [|by apply H1].
      by rewrite H2.
    + intros other Hother. apply not_elem_of_cons in Hother as [Hne Hother].
      rewrite H2 by done. by apply H4.
Qed.

(** X28.  The catalogs that [run_deletion_request] sends for replicas of
    different datasets hold entries of these datasets only.  Without groups
    every replica has the entry of its whole dataset (no block).  With
    groups, a replica owned by one group has that entry if the group is one
    of the groups and none otherwise, and a replica owned by multiple groups
    has the entry with its blocks that are owned by one of the groups. *)
Theorem deletion_request_entries (groups : list string)
    (replicas_to_delete : list DatasetReplica) :
  NoDup (map dr_dataset replicas_to_delete) ->
  (forall r, r ∈ replicas_to_delete ->
             deletion_request_catalogs groups replicas_to_delete !! dr_dataset r
             = entry_of groups r) /\
  (forall other, other ∉ map dr_dataset replicas_to_delete ->
                 deletion_request_catalogs groups replicas_to_delete !! other = None).
Proof.
  intros Hnodup. unfold deletion_request_catalogs.
  destruct (deletion_request_catalogs_lookup groups replicas_to_delete ∅ Hnodup)
    as [H1 H2].
  split; [done|]. intros other Hother. by rewrite H2.
Qed.

Definition replica_two_owners : DatasetReplica :=
  mkDatasetReplica "/A/x/y" "T2_A" None
    [mkBlockReplica "b1" "/A/x/y" "T2_A" (Some "AnalysisOps");
     mkBlockReplica "b2" "/A/x/y" "T2_A" (Some "DataOps")].

Lemma deletion_request_entries_witness :
  (forall r, r ∈ [replica_two_owners] ->
             deletion_request_catalogs ["AnalysisOps"] [replica_two_owners]
               !! dr_dataset r
             = entry_of ["AnalysisOps"] r) /\
  (forall other, other ∉ map dr_dataset [replica_two_owners] ->
                 deletion_request_catalogs ["AnalysisOps"] [replica_two_owners]
                   !! other = None).
Proof.
  apply (deletion_request_entries ["AnalysisOps"] [replica_two_owners]).
  apply NoDup_singleton.
Defined.

(** X29.  For a dataset replica owned by multiple groups, and a list of
    groups that is not empty, the two functions read the groups in opposite
    ways: [schedule_deletion] lists the blocks whose owner is not one of the
    groups, [schedule_deletions] the blocks whose owner is one of them, so no
    block is in both requests.  And when no block of the replica is owned by
    one of the groups, the entry that [schedule_deletions] sends has no
    block, like the entry for a replica that one of the groups owns as a
    whole. *)
Theorem deletion_of_shared_replica (r : DatasetReplica) (groups : list string) :
  groups <> [] ->
  dr_group r = None ->
  deletion_catalogs (OfDataset r) groups
  = Some {[dr_dataset r := blocks_where (owned_by_others groups) r]} /\
  deletion_request_catalogs groups [r]
  = {[dr_dataset r := blocks_where (owned groups) r]} /\
  (forall brep, brep ∈ dr_block_replicas r ->
                ~ (owned groups brep = true /\ owned_by_others groups brep = true)) /\
  ((forall brep, brep ∈ dr_block_replicas r -> owned groups brep = false) ->
   forall whole,
     dr_dataset whole = dr_dataset r ->
     (exists g, dr_group whole = Some g /\ g ∈ groups) ->
     deletion_request_catalogs groups [r] = deletion_request_catalogs groups [whole]).
Proof.
  intros Hgroups Hshared.
  assert (Hbulk : forall r0, deletion_request_catalogs groups [r0]
                             = match entry_of groups r0 with
                               | Some blocks => {[dr_dataset r0 := blocks]}
                               | None => ∅
                               end).
  { intros r0. apply map_eq. intros k.
    destruct (deletion_request_catalogs_lookup groups [r0] ∅
                ltac:(apply NoDup_singleton)) as [H1 H2].
    unfold deletion_request_catalogs.
    destruct (decide (k = dr_dataset r0)) as [->|Hne].
    - rewrite H1 by (by left). destruct (entry_of groups r0).
      + by rewrite lookup_singleton_eq.
      + done.
    - rewrite H2 by (simpl; set_solver). destruct (entry_of groups r0).
      + by rewrite lookup_singleton_ne.
      + done. }
  split_and!.
  - unfold deletion_catalogs. destruct groups as [|g0 groups']; [done|]. simpl.
    rewrite Hshared. f_equal. apply map_eq. intros k.
    destruct (add_blocks_lookup (dr_dataset r) (owned_by_others (g0 :: groups'))
                (fun c brep =>
                   match br_group brep with
                   | Some g =>
                       if bool_decide (g ∉ g0 :: groups')
                       then add_block (dr_dataset r) (br_block brep) c else c
                   | None => c
                   end)
                (dr_block_replicas r) {[dr_dataset r := ∅]} ∅) as [H1 H2].
    + intros c brep. unfold owned_by_others. by destruct (br_group brep).
    + by rewrite lookup_singleton_eq.
    + destruct (decide (k = dr_dataset r)) as [->|Hne].
      * rewrite H1, lookup_singleton_eq. unfold blocks_where. f_equal. set_solver.
      * rewrite H2 by done. by rewrite !lookup_singleton_ne.
  - rewrite Hbulk. unfold entry_of. destruct groups; [done|]. by rewrite Hshared.
  - intros brep _ [H1 H2]. unfold owned, owned_by_others in *.
    destruct (br_group brep) as [g|]; [|done].
    apply bool_decide_eq_true in H1. apply bool_decide_eq_true in H2. done.
  - intros Hnone whole Hdataset (g & Hg & Hin).
    rewrite !Hbulk. unfold entry_of. destruct groups as [|g0 groups']; [done|].
    rewrite Hshared, Hg, bool_decide_eq_true_2, Hdataset by done.
    f_equal. unfold blocks_where.
    assert (Hfilter : filter (fun b => owned (g0 :: groups') b = true)
                        (dr_block_replicas r) = []).
    { induction (dr_block_replicas r) as [|b bs IH]; [done|].
      rewrite filter_cons, decide_False.
      - apply IH. intros brep Hbrep. apply Hnone. by right.
      - rewrite Hnone by (by left). done. }
    by rewrite Hfilter.
Qed.

Lemma deletion_of_shared_replica_witness :
  deletion_catalogs (OfDataset replica_two_owners) ["AnalysisOps"]
  = Some {[dr_dataset replica_two_owners
           := blocks_where (owned_by_others ["AnalysisOps"]) replica_two_owners]} /\
  deletion_request_catalogs ["AnalysisOps"] [replica_two_owners]
  = {[dr_dataset replica_two_owners
      := blocks_where (owned ["AnalysisOps"]) replica_two_owners]} /\
  (forall brep, brep ∈ dr_block_replicas replica_two_owners ->
                ~ (owned ["AnalysisOps"] brep = true /\
                   owned_by_others ["AnalysisOps"] brep = true)) /\
  ((forall brep, brep ∈ dr_block_replicas replica_two_owners ->
                 owned ["AnalysisOps"] brep = false) ->
   forall whole,
     dr_dataset whole = dr_dataset replica_two_owners ->
     (exists g, dr_group whole = Some g /\ g ∈ ["AnalysisOps"]) ->
     deletion_request_catalogs ["AnalysisOps"] [replica_two_owners]
     = deletion_request_catalogs ["AnalysisOps"] [whole]).
Proof.
  apply (deletion_of_shared_replica replica_two_owners ["AnalysisOps"]); done.
Defined.

(** ** Requests in test mode *)

Lemma free_request_id_next {A : Type} (request_mapping : gmap Z A) (n : nat) :
  (forall z, is_Some (request_mapping !! z) <-> - Z.of_nat n <= z <= -1) ->
  forall (fuel i : nat),
    (i <= n)%nat -> (n - i < fuel)%nat ->
    free_request_id fuel (- Z.of_nat i - 1) request_mapping = Some (- Z.of_nat n - 1).
Proof.
  intros Hkeys. induction fuel as [|fuel IH]; intros i Hi Hfuel; [lia|]. simpl.
  destruct (request_mapping !! (- Z.of_nat i - 1)) as [x|] eqn:Hlookup.
  - assert (Hin : - Z.of_nat n <= - Z.of_nat i - 1 <= -1) by (apply Hkeys; eauto).
    replace (- Z.of_nat i - 1 - 1) with (- Z.of_nat (S i) - 1) by lia.
    apply IH; lia.
  - destruct (decide (i = n)) as [->|Hne]; [done|].
    assert (Hsome : is_Some (request_mapping !! (- Z.of_nat i - 1)))
      by (apply Hkeys; lia).
    rewrite Hlookup in Hsome. by destruct Hsome.
Qed.

Section TestRequests.

Variable phedex : phedex_call -> list Z.
Variable groups : list string.
Variable comments : string.

(** After [done] items in test mode: one entry per item, under the ids
    [-1], [-2], ..., and nothing sent. *)
Definition test_inv (done : list (string * list DatasetReplica)) (st : state) : Prop :=
  sent st = [] /\
  size (request_mapping st) = length done /\
  (forall z, is_Some (request_mapping st !! z) <-> - Z.of_nat (length done) <= z <= -1) /\
  (forall (i : nat) site replicas,
      done !! i = Some (site, replicas) ->
      request_mapping st !! (- Z.of_nat i - 1) = Some (true, replicas)).

Lemma run_deletion_requests_test (items done : list (string * list DatasetReplica))
    (st : state) :
  test_inv done st ->
  exists st',
    run_deletion_requests false phedex groups comments true st items = Some st' /\
    test_inv (done ++ items) st'.
Proof.
  revert done st. induction items as [|[site replicas] items IH]; intros done st Hinv.
  - exists st. rewrite app_nil_r. done.
  - destruct Hinv as (Hsent & Hsize & Hkeys & Hvalues).
    pose proof (free_request_id_next (request_mapping st) (length done) Hkeys
                  (S (length done)) 0 ltac:(lia) ltac:(lia)) as Hfree.
    change (- Z.of_nat 0 - 1) with (-1) in Hfree.
    cbn [run_deletion_requests]. unfold run_deletion_request.
    rewrite Hsize, Hfree.
    destruct (IH (done ++ [(site, replicas)])
                (mkState (<[- Z.of_nat (length done) - 1 := (true, replicas)]>
                            (request_mapping st)) (sent st))) as (st' & Hrun & Hinv').
    { assert (Hfresh : request_mapping st !! (- Z.of_nat (length done) - 1) = None).
      { destruct (request_mapping st !! (- Z.of_nat (length done) - 1)) eqn:Hl; [|done].
        assert (- Z.of_nat (length done) <= - Z.of_nat (length done) - 1 <= -1)
          by (apply Hkeys; eauto). lia. }
      split_and!; simpl.
      - done.
      - rewrite map_size_insert_None by done. rewrite length_app. simpl. lia.
      - intros z. rewrite length_app. simpl.
        destruct (decide (z = - Z.of_nat (length done) - 1)) as [->|Hne].
        + rewrite lookup_insert_eq. split; [lia|eauto].
        + rewrite lookup_insert_ne by done. rewrite Hkeys. lia.
      - intros i site0 replicas0 Hi.
        destruct (decide (i = length done)) as [->|Hne].
        + rewrite list_lookup_middle in Hi by done. injection Hi as <- <-.
          by rewrite lookup_insert_eq.
        + assert (i < length done)%nat.
          { apply lookup_lt_Some in Hi. rewrite length_app in Hi. simpl in Hi. lia. }
          rewrite lookup_app_l in Hi by done.
          rewrite lookup_insert_ne by lia. by eapply Hvalues. }
    exists st'. split; [done|]. by rewrite <- app_assoc in Hinv'.
Qed.

End TestRequests.

(** X30.  [schedule_deletions] in test mode (and not read-only) sends
    nothing to PhEDEx and returns: its request mapping has one entry per
    site with replicas to delete, under the ids [-1], [-2], ... in the
    order in which the sites are visited, each marked as completed and
    holding the replicas of the site. *)
Theorem schedule_deletions_test_ids (phedex : phedex_call -> list Z)
    (dict_items :
       list (string * list DatasetReplica) -> list (string * list DatasetReplica))
    (replica_list : list DatasetReplica) (groups : list string) (comments : string) :
  let items := dict_items (replicas_by_site replica_list) in
  exists st,
    schedule_deletions false phedex dict_items replica_list groups comments true
    = Some st /\
    sent st = [] /\
    (forall z, is_Some (request_mapping st !! z) <-> - Z.of_nat (length items) <= z <= -1) /\
    (forall (i : nat) site replicas,
        items !! i = Some (site, replicas) ->
        request_mapping st !! (- Z.of_nat i - 1) = Some (true, replicas)).
Proof.
  intros items. unfold schedule_deletions. fold items.
  destruct (run_deletion_requests_test phedex groups comments items [] (mkState ∅ []))
    as (st & Hrun & Hsent & _ & Hkeys & Hvalues).
  { split_and!; simpl; try done.
    intros z. rewrite lookup_empty. split; [by intros [? ?]|lia]. }
  exists st. by split_and!.
Qed.

End Deletion.
